(** * Wordfall puzzle engine: a shallow embedding and its properties

    The development follows the TypeScript sources: [constants.ts] and the
    application module that holds the dictionary trie, the leaderboard,
    the tile generator, the deadlock detector [findFirstWord] and the
    handlers of the [App] component.

    Conventions of the embedding:
    - JavaScript numbers that the engine uses as integers (scores,
      lengths, coordinates, counters, dates) are [Z] or [nat]; the few
      fractional computations (spawn chances, the time bonus,
      [targetScore * 1.5]) are taken over the rationals [Q], so rounding
      of floating-point numbers is not modelled;
    - [Math.random()] is an injected sequence of rationals, threaded
      through the state ([Rng]);
    - an array or property access that would throw a [TypeError] returns
      [None] (or the outcome [TypeError] in the deadlock detector);
    - a React state update is the function from the previous state to the
      next one; a callback scheduled with [setTimeout] is a transition of
      its own ([settle], [invalidReset]);
    - the recursion of [findFirstWord] is bounded by a depth [fuel]; that
      enough fuel exists on every grid is proved, not assumed;
    - sounds, feedback texts, flying tiles and screen layout are left
      out.

    The file has two parts: the definitions, in the order of the sources,
    then the lemmas and theorems. *)

From Stdlib Require Import Ascii String ZArith QArith Qround Qminmax Sorted Lia.
From stdpp Require Import gmap strings list.

#[local] Open Scope Z_scope.
#[local] Set Warnings "-register-all".

(** ** constants.ts *)

Definition GRID_SIZE : nat := 6.
Definition MIN_WORD_LENGTH : nat := 3.
Definition MAX_WORD_LENGTH : nat := 10.

Definition TILE_COLORS : list string :=
  ["PINK"; "BLUE"; "TEAL"; "PURPLE"; "INDIGO"].

Definition WILD_COLOR : string := "GOLD".

Definition LETTER_POOL : string :=
  "EEEEEEEEEEEEAAAAAAAAAIIIIIIIIIOOOOOOOONNNNNNRRRRRRTTTTTTLLLLSSSSUUUUDDDDGGGBBCCMMPPFFHHVVWWYYKJXQZ".

(** [SCORES] is a [Record<number, number>]: a lookup outside the keys is
    [undefined], here [None]. *)
Definition SCORES (len : nat) : option Z :=
  match len with
  | 3%nat => Some 10
  | 4%nat => Some 20
  | 5%nat => Some 40
  | 6%nat => Some 80
  | 7%nat => Some 150
  | 8%nat => Some 300
  | 9%nat => Some 500
  | 10%nat => Some 1000
  | _ => None
  end.

(** ** The dictionary trie *)

Module Trie.

(** [class TrieNode]: a map from one-character keys to children and the
    end-of-word flag. *)
Inductive TrieNode : Type :=
  MkNode { isEndOfWord : bool; children : gmap ascii TrieNode }.

(** [new TrieNode()] *)
Definition newNode : TrieNode := MkNode false ∅.

(** The walk of [insert] below one node: a missing child is created,
    the last node reached gets the flag. *)
Fixpoint insertAt (word : string) (node : TrieNode) : TrieNode :=
  match word with
  | EmptyString => MkNode true (children node)
  | String ch rest =>
      let child := default newNode (children node !! ch) in
      MkNode (isEndOfWord node) (<[ch := insertAt rest child]> (children node))
  end.

(** The walk of [search] below one node. *)
Fixpoint searchAt (word : string) (node : TrieNode) : nat :=
  match word with
  | EmptyString => if isEndOfWord node then 2%nat else 1%nat
  | String ch rest =>
      match children node !! ch with
      | None => 0%nat
      | Some child => searchAt rest child
      end
  end.

(** [class Trie] *)
Record t : Type := MkTrie { root : TrieNode }.

Definition new : t := MkTrie newNode.

Definition insert (word : string) (tr : t) : t := MkTrie (insertAt word (root tr)).

Definition search (word : string) (tr : t) : nat := searchAt word (root tr).

(** [words.forEach(w => tr.insert(w))] *)
Definition insertAll (words : list string) (tr : t) : t :=
  foldl (fun tr w => insert w tr) tr words.

(** The trie of [loadDictionary]: the words inserted into a fresh trie. *)
Definition ofWords (words : list string) : t := insertAll words new.

End Trie.

(** The three results of [Trie.search]. *)
Definition NoMatch : nat := 0.
Definition PrefixOnly : nat := 1.
Definition ExactWord : nat := 2.

(** The word filter of [loadDictionary] (trimming and upper-casing of the
    raw lines are left to the caller). *)
Definition keptByLoader (w : string) : bool :=
  (MIN_WORD_LENGTH <=? String.length w)%nat && (String.length w <=? MAX_WORD_LENGTH)%nat.

Definition loadWords (raw : list string) : list string := filter (fun w => keptByLoader w = true) raw.

(** ** Enumerations and records of the data model *)

Inductive TileStatus : Type :=
  IDLE | SELECTED | VALID | REJECT | INVALID | MATCHED | EXPLODED.

Inductive GameMode : Type := CASUAL | TIMED.

Inductive Difficulty : Type := EASY | NORMAL | HARD.

Inductive Screen : Type := MENU | GAME | GAMEOVER | LEVEL_UP | LEADERBOARD.

(** The forced tile types of the special spawn queue. *)
Inductive ForcedType : Type := BLOCKED | BOMB.

#[global] Instance TileStatus_eq_dec : EqDecision TileStatus.
Proof. solve_decision. Defined.
#[global] Instance GameMode_eq_dec : EqDecision GameMode.
Proof. solve_decision. Defined.
#[global] Instance Difficulty_eq_dec : EqDecision Difficulty.
Proof. solve_decision. Defined.
#[global] Instance Screen_eq_dec : EqDecision Screen.
Proof. solve_decision. Defined.

Module Coord.
Record Coordinate : Type := Mk { r : Z; c : Z }.

(** [p.r === q.r && p.c === q.c] *)
Definition same (p q : Coordinate) : bool := (r p =? r q) && (c p =? c q).
End Coord.
Abbreviation Coordinate := Coord.Coordinate.

Module Tile.
(** [id] and [key] are renderings of one random draw each; the
    embedding keeps the draw. *)
Record TileData : Type := Mk {
  id : Q;
  letter : string;
  status : TileStatus;
  key : Q;
  color : string;
  isNew : bool;
  isBlocked : bool;
  isBomb : bool
}.

(** [{ ...tile, status: s }] *)
Definition withStatus (s : TileStatus) (t : TileData) : TileData :=
  Mk (id t) (letter t) s (key t) (color t) (isNew t) (isBlocked t) (isBomb t).

(** [{ ...tile, isNew: b }] *)
Definition withIsNew (b : bool) (t : TileData) : TileData :=
  Mk (id t) (letter t) (status t) (key t) (color t) b (isBlocked t) (isBomb t).

(** [status === MATCHED || status === EXPLODED] *)
Definition removed (t : TileData) : bool :=
  bool_decide (status t = MATCHED) || bool_decide (status t = EXPLODED).
End Tile.
Abbreviation TileData := Tile.TileData.

Record GameState : Type := MkGameState {
  score : Z;
  wordCount : Z;
  bestWord : string;
  lastScoreAdded : option Z;
  level : Z;
  timeLeft : Z;
  targetScore : Z;
  streakShort : Z;
  streakLong : Z
}.

(** ** The leaderboard *)

Module HighScore.
Record HighScoreEntry : Type := Mk {
  score : Z;
  bestWord : string;
  date : Z;
  level : option Z
}.
End HighScore.
Abbreviation HighScoreEntry := HighScore.HighScoreEntry.

(** [localStorage] restricted to the two leaderboard keys: what
    [JSON.parse] yields for each mode, [None] when the key is absent or
    unreadable. *)
Definition Storage : Type := GameMode → option (list HighScoreEntry).

Definition getLeaderboard (mode : GameMode) (store : Storage) : list HighScoreEntry :=
  default [] (store mode).

Definition setItem (mode : GameMode) (v : list HighScoreEntry) (store : Storage) : Storage :=
  fun m => if decide (m = mode) then Some v else store m.

(** [scores.sort((a, b) => b.score - a.score)]: the sort of an array is
    stable, so on integer scores its result is the stable arrangement by
    descending score, computed here by insertion from the right: an entry
    goes in front of the first entry that does not beat it. *)
Fixpoint insertByScore (x : HighScoreEntry) (l : list HighScoreEntry) : list HighScoreEntry :=
  match l with
  | [] => [x]
  | y :: l' =>
      if HighScore.score y <=? HighScore.score x then x :: y :: l'
      else y :: insertByScore x l'
  end.

Definition sortByScore (l : list HighScoreEntry) : list HighScoreEntry :=
  foldr insertByScore [] l.

(** [s.date === entry.date && s.score === entry.score] *)
Definition sameEntry (entry s : HighScoreEntry) : bool :=
  (HighScore.date s =? HighScore.date entry) && (HighScore.score s =? HighScore.score entry).

Definition saveScore (mode : GameMode) (entry : HighScoreEntry) (store : Storage)
  : Storage * bool :=
  let scores := getLeaderboard mode store ++ [entry] in
  let scores := sortByScore scores in
  let topScores := take 10 scores in
  (setItem mode topScores store, existsb (sameEntry entry) topScores).

(** ** Random draws *)

(** The source of [Math.random()]: an infinite sequence of draws and the
    position of the next one. *)
Record Rng : Type := MkRng { draws : nat → Q; cursor : nat }.

Definition random (g : Rng) : Q * Rng :=
  (draws g (cursor g), MkRng (draws g) (S (cursor g))).

(** Every draw lies in [0, 1), as [Math.random()] promises. *)
Definition unitDraws (g : Rng) : Prop := ∀ i, (0 <= draws g i)%Q ∧ (draws g i < 1)%Q.

Definition Qltb (x y : Q) : bool := negb (Qle_bool y x).

(** [LETTER_POOL[Math.floor(Math.random() * LETTER_POOL.length)]]; an
    index outside the pool, which no draw of [0, 1) yields, gives the
    empty string here. *)
Definition getRandomLetter (g : Rng) : string * Rng :=
  let '(x, g) := random g in
  let i := Qfloor (x * inject_Z (Z.of_nat (String.length LETTER_POOL))) in
  let l :=
    if i <? 0 then EmptyString
    else match String.get (Z.to_nat i) LETTER_POOL with
         | Some ch => String ch EmptyString
         | None => EmptyString
         end in
  (l, g).

(** [Math.random().toString(36).substr(2, 9)] *)
Definition generateId (g : Rng) : Q * Rng := random g.

(** ** The tile generator *)

Definition blockedTile (isNew : bool) (g : Rng) : TileData * Rng :=
  let '(i, g) := generateId g in
  let '(k, g) := random g in
  (Tile.Mk i EmptyString IDLE k "GRAY" isNew true false, g).

Definition bombTile (isNew : bool) (g : Rng) : TileData * Rng :=
  let '(i, g) := generateId g in
  let '(l, g) := getRandomLetter g in
  let '(k, g) := random g in
  (Tile.Mk i l IDLE k "RAINBOW" isNew false true, g).

Definition blockedChance (level : Z) (mode : GameMode) : Q :=
  match mode with
  | TIMED => Qmin (25 # 100) (inject_Z level * (3 # 100))
  | CASUAL => Qmin (20 # 100) ((4 # 100) + inject_Z level * (1 # 100))
  end.

Definition generateTile (level : Z) (mode : GameMode) (isNew : bool)
    (forcedType : option ForcedType) (g : Rng) : TileData * Rng :=
  match forcedType with
  | Some BLOCKED => blockedTile isNew g
  | Some BOMB => bombTile isNew g
  | None =>
      let chance := blockedChance level mode in
      let '(roll, g) := random g in
      if Qltb roll chance then blockedTile isNew g
      else if Qltb roll (chance + (8 # 100)) then bombTile isNew g
      else
        let '(w, g) := random g in
        let isWild := Qltb w (8 # 100) in
        let '(color, g) :=
          if isWild then (WILD_COLOR, g)
          else
            let '(x, g) := random g in
            let i := Qfloor (x * inject_Z (Z.of_nat (length TILE_COLORS))) in
            (if i <? 0 then EmptyString else default EmptyString (TILE_COLORS !! Z.to_nat i), g) in
        let '(i, g) := generateId g in
        let '(l, g) := getRandomLetter g in
        let '(k, g) := random g in
        (Tile.Mk i l IDLE k color isNew false false, g)
  end.

(** ** The grid *)

Abbreviation Grid := (list (list TileData)).

(** [grid[r][c]]; [None] where the access would be [undefined]. *)
Definition tileAt (grid : Grid) (r c : Z) : option TileData :=
  if (0 <=? r) && (0 <=? c) then
    row ← grid !! Z.to_nat r; row !! Z.to_nat c
  else None.

(** A 6 x 6 grid. *)
Definition squareGrid (grid : Grid) : Prop :=
  length grid = GRID_SIZE ∧ Forall (fun row => length row = GRID_SIZE) grid.

(** The letter of a tile that can be selected is one character long, as
    the generator makes it. *)
Definition lettered (t : TileData) : Prop :=
  Tile.isBlocked t = false → String.length (Tile.letter t) = 1%nat.

Definition letteredGrid (grid : Grid) : Prop := Forall (Forall lettered) grid.

(** The row-by-row fill of [createInitialGrid]. *)
Fixpoint fillRow (n : nat) (mode : GameMode) (g : Rng) : list TileData * Rng :=
  match n with
  | O => ([], g)
  | S n =>
      let '(t, g) := generateTile 1 mode false None g in
      let '(row, g) := fillRow n mode g in
      (t :: row, g)
  end.

Fixpoint fillRows (n : nat) (mode : GameMode) (g : Rng) : Grid * Rng :=
  match n with
  | O => ([], g)
  | S n =>
      let '(row, g) := fillRow GRID_SIZE mode g in
      let '(rows, g) := fillRows n mode g in
      (row :: rows, g)
  end.

Definition createInitialGrid (level : Z) (mode : GameMode) (g : Rng) : Grid * Rng :=
  fillRows GRID_SIZE mode g.

Definition isAdjacent (c1 c2 : Coordinate) : bool :=
  let dr := Z.abs (Coord.r c1 - Coord.r c2) in
  let dc := Z.abs (Coord.c c1 - Coord.c c2) in
  (dr <=? 1) && (dc <=? 1) && negb ((dr =? 0) && (dc =? 0)).

(** ** The deadlock detector *)

(** The result of a run: it went past the given depth, it threw, or it
    returned. *)
Inductive Outcome (A : Type) : Type :=
  | OutOfFuel
  | TypeError
  | Return (a : A).
Arguments OutOfFuel {A}.
Arguments TypeError {A}.
Arguments Return {A} a.

(** A loop that returns the first result that is not [null]. *)
Fixpoint firstResult {A B : Type} (f : A → Outcome (option B)) (l : list A)
  : Outcome (option B) :=
  match l with
  | [] => Return None
  | x :: l' =>
      match f x with
      | Return None => firstResult f l'
      | o => o
      end
  end.

Definition neighbors (r c : Z) : list Coordinate :=
  [ Coord.Mk (r - 1) (c - 1); Coord.Mk (r - 1) c; Coord.Mk (r - 1) (c + 1);
    Coord.Mk r (c - 1);                          Coord.Mk r (c + 1);
    Coord.Mk (r + 1) (c - 1); Coord.Mk (r + 1) c; Coord.Mk (r + 1) (c + 1) ].

Definition inBounds (rows cols : Z) (n : Coordinate) : bool :=
  (0 <=? Coord.r n) && (Coord.r n <? rows) && (0 <=? Coord.c n) && (Coord.c n <? cols).

(** The inner [search] of [findFirstWord]; [fuel] bounds the depth of the
    recursion. *)
Fixpoint search (fuel : nat) (grid : Grid) (trie : Trie.t) (rows cols : Z)
    (r c : Z) (path : list Coordinate) (currentStr : string)
  : Outcome (option (list Coordinate)) :=
  match fuel with
  | O => OutOfFuel
  | S fuel =>
      match tileAt grid r c with
      | None => TypeError
      | Some tile =>
          if Tile.isBlocked tile then Return None
          else
            let str := String.append currentStr (Tile.letter tile) in
            let lookup := Trie.search str trie in
            if (lookup =? 0)%nat then Return None
            else if (lookup =? 2)%nat && (MIN_WORD_LENGTH <=? String.length str)%nat
            then Return (Some (path ++ [Coord.Mk r c]))
            else if (8 <=? String.length str)%nat then Return None
            else
              firstResult
                (fun n =>
                   if inBounds rows cols n then
                     if negb (existsb (fun p => Coord.same p n) path) then
                       search fuel grid trie rows cols (Coord.r n) (Coord.c n)
                              (path ++ [Coord.Mk r c]) str
                     else Return None
                   else Return None)
                (neighbors r c)
      end
  end.

Definition findFirstWord (fuel : nat) (grid : Grid) (trie : Trie.t)
  : Outcome (option (list Coordinate)) :=
  match grid with
  | [] => TypeError
  | row0 :: _ =>
      let rows := Z.of_nat (length grid) in
      let cols := Z.of_nat (length row0) in
      firstResult
        (fun r =>
           firstResult
             (fun c => search fuel grid trie rows cols r c [] EmptyString)
             (seqZ 0 cols))
        (seqZ 0 rows)
  end.

(** ** The engine state *)

(** The React state of [App] that the puzzle engine reads and writes
    (sounds, feedback texts and flying tiles are presentation only). *)
Record Engine : Type := MkEngine {
  screen : Screen;
  mode : GameMode;
  difficulty : Difficulty;
  grid : Grid;
  selection : list Coordinate;
  gameState : GameState;
  animating : bool;
  dictionary : gset string;
  trie : option Trie.t;
  isLoading : bool;
  specialSpawnQueue : list ForcedType;
  rng : Rng
}.

Definition setScreen (x : Screen) (e : Engine) : Engine :=
  MkEngine x (mode e) (difficulty e) (grid e) (selection e) (gameState e)
           (animating e) (dictionary e) (trie e) (isLoading e) (specialSpawnQueue e) (rng e).
Definition setGrid (x : Grid) (e : Engine) : Engine :=
  MkEngine (screen e) (mode e) (difficulty e) x (selection e) (gameState e)
           (animating e) (dictionary e) (trie e) (isLoading e) (specialSpawnQueue e) (rng e).
Definition setSelection (x : list Coordinate) (e : Engine) : Engine :=
  MkEngine (screen e) (mode e) (difficulty e) (grid e) x (gameState e)
           (animating e) (dictionary e) (trie e) (isLoading e) (specialSpawnQueue e) (rng e).
Definition setGameState (x : GameState) (e : Engine) : Engine :=
  MkEngine (screen e) (mode e) (difficulty e) (grid e) (selection e) x
           (animating e) (dictionary e) (trie e) (isLoading e) (specialSpawnQueue e) (rng e).
Definition setAnimating (x : bool) (e : Engine) : Engine :=
  MkEngine (screen e) (mode e) (difficulty e) (grid e) (selection e) (gameState e)
           x (dictionary e) (trie e) (isLoading e) (specialSpawnQueue e) (rng e).
Definition setSpawnQueue (x : list ForcedType) (e : Engine) : Engine :=
  MkEngine (screen e) (mode e) (difficulty e) (grid e) (selection e) (gameState e)
           (animating e) (dictionary e) (trie e) (isLoading e) x (rng e).
Definition setRng (x : Rng) (e : Engine) : Engine :=
  MkEngine (screen e) (mode e) (difficulty e) (grid e) (selection e) (gameState e)
           (animating e) (dictionary e) (trie e) (isLoading e) (specialSpawnQueue e) x.

(** The state of [App] once the dictionary is loaded, before a game is
    started. *)
Definition initialEngine (words : list string) (g : Rng) : Engine :=
  MkEngine MENU CASUAL NORMAL [] []
           (MkGameState 0 0 EmptyString None 1 60 500 0 0)
           false (list_to_set words) (Some (Trie.ofWords words)) false [] g.

Definition startGame (selectedMode : GameMode) (e : Engine) : Engine :=
  let '(g, rng') := createInitialGrid 1 selectedMode (rng e) in
  MkEngine GAME selectedMode (difficulty e) g []
           (MkGameState 0 0 EmptyString None 1
                        (if decide (selectedMode = TIMED) then 60 else 0) 500 0 0)
           (animating e) (dictionary e) (trie e) (isLoading e) [] rng'.

(** [nextLevel]; [Math.floor(prev.targetScore * 1.5)] is taken over the
    rationals. *)
Definition nextLevel (e : Engine) : Engine :=
  let prev := gameState e in
  setScreen GAME
    (setGameState
       (MkGameState (score prev) (wordCount prev) (bestWord prev) (lastScoreAdded prev)
                    (level prev + 1)
                    (timeLeft prev + 15)
                    (Qfloor (inject_Z (targetScore prev) * (15 # 10)) + 500)
                    (streakShort prev) (streakLong prev))
       e).

(** ** Selection building *)

(** [coords.map(s => grid[s.r][s.c])] *)
Definition tilesAt (grid : Grid) (coords : list Coordinate) : option (list TileData) :=
  mapM (fun s => tileAt grid (Coord.r s) (Coord.c s)) coords.

(** [letters.join('')] *)
Definition joinLetters (letters : list string) : string :=
  foldr String.append EmptyString letters.

(** [coords.map(s => grid[s.r][s.c].letter).join('')] *)
Definition wordOf (grid : Grid) (coords : list Coordinate) : option string :=
  tiles ← tilesAt grid coords; Some (joinLetters (Tile.letter <$> tiles)).

(** A write to the tile at [(r, c)]; the handlers only reach it at
    coordinates they have read before, where it throws exactly when the
    tile is missing. *)
Definition alterTile (f : TileData → TileData) (grid : Grid) (r c : Z) : option Grid :=
  if (0 <=? r) && (0 <=? c) then
    row ← grid !! Z.to_nat r;
    tile ← row !! Z.to_nat c;
    Some (<[Z.to_nat r := <[Z.to_nat c := f tile]> row]> grid)
  else None.

(** [coords.forEach(({r, c}) => ... status ...)] *)
Definition markAll (s : TileStatus) (coords : list Coordinate) (grid : Grid) : option Grid :=
  foldl (fun acc p => g ← acc; alterTile (Tile.withStatus s) g (Coord.r p) (Coord.c p))
        (Some grid) coords.

Definition updateTileStatus (coords : list Coordinate) (s : TileStatus) (prev : Grid)
  : option Grid :=
  let newGrid :=
    map (map (fun tile =>
                Tile.withStatus (if Tile.removed tile then Tile.status tile else IDLE) tile))
        prev in
  markAll s coords newGrid.

(** The status that [evaluateSelection] gives to the tiles of a path
    whose letters spell [word]. *)
Definition selectionStatus (tr : Trie.t) (word : string) : TileStatus :=
  if (0 <? String.length word)%nat then
    let lookup := Trie.search word tr in
    if (lookup =? 2)%nat && (MIN_WORD_LENGTH <=? String.length word)%nat then VALID
    else if negb (lookup =? 0)%nat then SELECTED
    else REJECT
  else REJECT.

Definition evaluateSelection (currentSelection : list Coordinate) (e : Engine)
  : option Engine :=
  match trie e with
  | None => Some e
  | Some tr =>
      word ← wordOf (grid e) currentSelection;
      g ← updateTileStatus currentSelection (selectionStatus tr word) (grid e);
      Some (setGrid g (setSelection currentSelection e))
  end.

Definition handleTouchStart (r c : Z) (e : Engine) : option Engine :=
  if animating e || isLoading e || negb (bool_decide (screen e = GAME)) then Some e
  else
    tile ← tileAt (grid e) r c;
    if Tile.isBlocked tile then Some e
    else evaluateSelection [Coord.Mk r c] e.

(** ** Match resolution *)

(** [a || b] on numbers, where [a] may be [undefined]. *)
Definition orElse (a : option Z) (b : Z) : Z :=
  match a with
  | Some v => if v =? 0 then b else v
  | None => b
  end.

(** [SCORES[word.length] || SCORES[10] || 10] *)
Definition baseWordScore (len : nat) : Z :=
  orElse (SCORES len) (orElse (SCORES 10) 10).

(** One neighbour of a bomb: it joins the exploded tiles unless it is off
    the grid, in the selection, already listed, or already exploded. *)
Definition blast (grid : Grid) (sel exploded : list Coordinate) (n : Coordinate)
  : option (list Coordinate) :=
  if inBounds (Z.of_nat GRID_SIZE) (Z.of_nat GRID_SIZE) n then
    let isSelected := existsb (fun s => Coord.same s n) sel in
    let isAlreadyExploded := existsb (fun x => Coord.same x n) exploded in
    if negb isSelected && negb isAlreadyExploded then
      tile ← tileAt grid (Coord.r n) (Coord.c n);
      if bool_decide (Tile.status tile ≠ EXPLODED) then Some (exploded ++ [n])
      else Some exploded
    else Some exploded
  else Some exploded.

Definition blastAll (grid : Grid) (sel bombTiles : list Coordinate)
  : option (list Coordinate) :=
  foldl (fun acc bomb =>
           foldl (fun acc n => exploded ← acc; blast grid sel exploded n)
                 acc (neighbors (Coord.r bomb) (Coord.c bomb)))
        (Some []) bombTiles.

(** [selection.filter(({r, c}) => grid[r][c].isBomb)] *)
Definition bombsOf (grid : Grid) (sel : list Coordinate) : option (list Coordinate) :=
  tiles ← tilesAt grid sel;
  Some (fst <$> List.filter (fun st => Tile.isBomb (snd st)) (zip sel tiles)).

Definition isShortPenalty (d : Difficulty) (len : nat) : bool :=
  match d with
  | EASY => false
  | NORMAL => (len =? 3)%nat
  | HARD => (len =? 3)%nat || (len =? 4)%nat
  end.

(** The two bonus tests of [handleValidWord] on the tiles of the path. *)
Definition colorsInWord (tiles : list TileData) : list string :=
  List.filter (fun c => negb (bool_decide (c = WILD_COLOR)) && negb (bool_decide (c = "RAINBOW")))
              (Tile.color <$> tiles).

Definition hasWild (tiles : list TileData) : bool :=
  existsb (fun t => bool_decide (Tile.color t = WILD_COLOR)) tiles.

Definition isColorMatch (tiles : list TileData) : bool :=
  let colors := colorsInWord tiles in
  let uniqueColors : gset string := list_to_set colors in
  (0 <? length colors)%nat && (size uniqueColors <=? 1)%nat.

(** [totalScore] of [handleValidWord]. *)
Definition totalScore (len : nat) (tiles : list TileData) (explodedTiles : list Coordinate) : Z :=
  let total := baseWordScore len in
  let total :=
    if hasWild tiles then total * 3
    else if isColorMatch tiles then total * 2
    else total in
  if (0 <? length explodedTiles)%nat then total + Z.of_nat (length explodedTiles) * 50
  else total.

(** The streak counters and the spawn queue after a word of length
    [len]. *)
Definition updateStreaks (d : Difficulty) (len : nat) (short long : Z)
    (queue : list ForcedType) : Z * Z * list ForcedType :=
  if isShortPenalty d len then
    let short := short + 1 in
    (short, 0, if 2 <=? short then queue ++ [BLOCKED] else queue)
  else if (5 <=? len)%nat then
    let long := long + 1 in
    (0, long, if 2 <=? long then queue ++ [BOMB] else queue)
  else (0, 0, queue).

(** [timeAdded] of [handleValidWord]. *)
Definition timeAdded (m : GameMode) (lvl : Z) (len : nat) (tiles : list TileData) : Z :=
  match m with
  | TIMED =>
      let difficultyMultiplier := Qmax (2 # 10) (1 - inject_Z (lvl - 1) * (15 # 100)) in
      Qceiling (inject_Z (Z.of_nat len) * difficultyMultiplier)
      + (if hasWild tiles then 3 else if isColorMatch tiles then 2 else 0)
  | CASUAL => 0
  end.

(** [handleValidWord], up to the [setTimeout] that schedules [settle]. *)
Definition handleValidWord (word : string) (e : Engine) : option Engine :=
  let len := String.length word in
  let sel := selection e in
  bombTiles ← bombsOf (grid e) sel;
  explodedTiles ← blastAll (grid e) sel bombTiles;
  tiles ← tilesAt (grid e) sel;
  let total := totalScore len tiles explodedTiles in
  g ← markAll MATCHED sel (grid e);
  g ← markAll EXPLODED explodedTiles g;
  let prev := gameState e in
  let '(newStreakShort, newStreakLong, queue) :=
    updateStreaks (difficulty e) len (streakShort prev) (streakLong prev)
                  (specialSpawnQueue e) in
  let added := timeAdded (mode e) (level prev) len tiles in
  let next :=
    MkGameState (score prev + total) (wordCount prev + 1)
                (if (String.length (bestWord prev) <? len)%nat then word else bestWord prev)
                (Some total) (level prev) (timeLeft prev + added) (targetScore prev)
                newStreakShort newStreakLong in
  Some (setGameState next (setSpawnQueue queue (setGrid g (setAnimating true e)))).

(** [handleInvalidWord], up to the [setTimeout] that schedules
    [invalidReset]. *)
Definition handleInvalidWord (e : Engine) : option Engine :=
  g ← markAll INVALID (selection e) (grid e);
  Some (setGrid g (setAnimating true e)).

Definition invalidReset (e : Engine) : Engine :=
  let g :=
    map (map (fun tile =>
                Tile.withIsNew false
                  (Tile.withStatus
                     (if bool_decide (Tile.status tile = EXPLODED) then EXPLODED else IDLE)
                     tile)))
        (grid e) in
  setAnimating false (setGrid g (setSelection [] e)).

Definition handleTouchEnd (e : Engine) : option Engine :=
  if animating e || isLoading e || (length (selection e) =? 0)%nat
     || negb (bool_decide (screen e = GAME)) then Some e
  else
    word ← wordOf (grid e) (selection e);
    if (MIN_WORD_LENGTH <=? String.length word)%nat && bool_decide (word ∈ dictionary e)
    then handleValidWord word e
    else handleInvalidWord e.

(** What [handleTouchMove] reads from its event: a touch or a mouse
    event with its button mask, and the coordinate of the tile element
    under the pointer, if there is one. *)
Inductive MoveEvent : Type :=
  | TouchMove (target : option Coordinate)
  | MouseMove (buttons : Z) (target : option Coordinate).

(** The part of [handleTouchMove] that follows the hit test. *)
Definition moveOnto (target : option Coordinate) (e : Engine) : option Engine :=
  match target with
  | None => Some e
  | Some p =>
      tile ← tileAt (grid e) (Coord.r p) (Coord.c p);
      if Tile.isBlocked tile then Some e
      else
        let sel := selection e in
        lastSel ← last sel;
        let backtrack :=
          if (1 <? length sel)%nat then
            match sel !! (length sel - 2)%nat with
            | Some secondLast => Coord.same secondLast p
            | None => false
            end
          else false in
        if backtrack then evaluateSelection (take (length sel - 1) sel) e
        else if negb (existsb (fun s => Coord.same s p) sel) && isAdjacent lastSel p
        then evaluateSelection (sel ++ [p]) e
        else Some e
  end.

Definition handleTouchMove (ev : MoveEvent) (e : Engine) : option Engine :=
  if animating e || isLoading e || (length (selection e) =? 0)%nat
     || negb (bool_decide (screen e = GAME)) then Some e
  else
    match ev with
    | TouchMove target => moveOnto target e
    | MouseMove buttons target =>
        if Z.land buttons 1 =? 0 then handleTouchEnd e else moveOnto target e
    end.

(** ** Gravity and refill *)

(** The [needed] new tiles of one column, each taking the head of the
    spawn queue when there is one. *)
Fixpoint spawnTiles (needed : nat) (lvl : Z) (m : GameMode)
    (queue : list ForcedType) (g : Rng) : list TileData * list ForcedType * Rng :=
  match needed with
  | O => ([], queue, g)
  | S needed =>
      let '(forced, queue) :=
        match queue with
        | [] => (None, [])
        | f :: q => (Some f, q)
        end in
      let '(tile, g) := generateTile lvl m true forced g in
      let '(tiles, queue, g) := spawnTiles needed lvl m queue g in
      (tile :: tiles, queue, g)
  end.

(** [prev[r][c]] for [r] from 0 to 5. *)
Definition column (grid : Grid) (c : nat) : option (list TileData) :=
  mapM (fun r : nat => tileAt grid (Z.of_nat r) (Z.of_nat c)) (seq 0 GRID_SIZE).

(** The survivors of a column, top to bottom, with [isNew] cleared. *)
Definition colTiles (col : list TileData) : list TileData :=
  Tile.withIsNew false <$> List.filter (fun t => negb (Tile.removed t)) col.

(** [newGrid[r][c] = mergedCol[r]] for [r] from 0 to 5. *)
Definition writeColumn (c : nat) (mergedCol : list TileData) (newGrid : Grid) : option Grid :=
  foldl (fun acc r =>
           g ← acc;
           row ← g !! r;
           tile ← mergedCol !! r;
           Some (<[r := <[c := tile]> row]> g))
        (Some newGrid) (seq 0 GRID_SIZE).

(** One round of the column loop of [applyGravity]. *)
Definition gravityColumn (prev : Grid) (lvl : Z) (m : GameMode)
    (acc : option (Grid * list ForcedType * Rng)) (c : nat)
  : option (Grid * list ForcedType * Rng) :=
  '(newGrid, queue, g) ← acc;
  col ← column prev c;
  let survivors := colTiles col in
  let needed := (GRID_SIZE - length survivors)%nat in
  let '(newTiles, queue, g) := spawnTiles needed lvl m queue g in
  let mergedCol := newTiles ++ survivors in
  newGrid ← writeColumn c mergedCol newGrid;
  Some (newGrid, queue, g).

Definition applyGravity (e : Engine) : option Engine :=
  '(newGrid, queue, g) ←
    foldl (gravityColumn (grid e) (level (gameState e)) (mode e))
          (Some (grid e, specialSpawnQueue e, rng e)) (seq 0 GRID_SIZE);
  Some (setAnimating false
          (setSelection [] (setRng g (setSpawnQueue queue (setGrid newGrid e))))).

(** The callback that [handleValidWord] schedules: gravity, then the
    level-up test. *)
Definition settle (e : Engine) : option Engine :=
  e ← applyGravity e;
  if targetScore (gameState e) <=? score (gameState e) then Some (setScreen LEVEL_UP e)
  else Some e.

(** ** The hint and the deadlock check *)

Definition showHint (fuel : nat) (e : Engine) : Outcome Engine :=
  match trie e with
  | None => Return e
  | Some tr =>
      if animating e then Return e
      else
        match findFirstWord fuel (grid e) tr with
        | OutOfFuel => OutOfFuel
        | TypeError => TypeError
        | Return None => Return e
        | Return (Some move) =>
            match markAll SELECTED move (grid e) with
            | Some g => Return (setGrid g (setSelection move e))
            | None => TypeError
            end
        end
  end.

(** The guard of the effect that schedules the casual-mode deadlock
    check. *)
Definition deadlockCheckArmed (e : Engine) : bool :=
  bool_decide (screen e = GAME) && bool_decide (mode e = CASUAL)
  && negb (animating e) && bool_decide (is_Some (trie e)).

(** ** The engine as a transition system *)

(** The two callbacks that the handlers schedule with [setTimeout]:
    [settle] after a valid word, [invalidReset] after an invalid one. *)
Inductive Timer : Type := SettleTimer | ResetTimer.

(** The timer that a release schedules. *)
Definition scheduledByTouchEnd (e : Engine) : list Timer :=
  if animating e || isLoading e || (length (selection e) =? 0)%nat
     || negb (bool_decide (screen e = GAME)) then []
  else
    match wordOf (grid e) (selection e) with
    | None => []
    | Some word =>
        if (MIN_WORD_LENGTH <=? String.length word)%nat && bool_decide (word ∈ dictionary e)
        then [SettleTimer]
        else [ResetTimer]
    end.

Definition scheduledByTouchMove (ev : MoveEvent) (e : Engine) : list Timer :=
  if animating e || isLoading e || (length (selection e) =? 0)%nat
     || negb (bool_decide (screen e = GAME)) then []
  else
    match ev with
    | TouchMove _ => []
    | MouseMove buttons _ => if Z.land buttons 1 =? 0 then scheduledByTouchEnd e else []
    end.

(** The engine state with the callbacks that are scheduled and have not
    run yet. *)
Record Runtime : Type := MkRuntime { engine : Engine; timers : list Timer }.

(** One transition: a command of the player, a scheduled callback that
    runs, or a change that leaves the grid, the selection, the gate and
    the random source alone (screens, difficulty, countdown, feedback,
    dictionary load). *)
Inductive Step : Runtime → Runtime → Prop :=
  | StepStartGame m e ts :
      Step (MkRuntime e ts) (MkRuntime (startGame m e) ts)
  | StepNextLevel e ts :
      Step (MkRuntime e ts) (MkRuntime (nextLevel e) ts)
  | StepTouchStart r c e e' ts :
      handleTouchStart r c e = Some e' →
      Step (MkRuntime e ts) (MkRuntime e' ts)
  | StepTouchMove ev e e' ts :
      handleTouchMove ev e = Some e' →
      Step (MkRuntime e ts) (MkRuntime e' (ts ++ scheduledByTouchMove ev e))
  | StepTouchEnd e e' ts :
      handleTouchEnd e = Some e' →
      Step (MkRuntime e ts) (MkRuntime e' (ts ++ scheduledByTouchEnd e))
  | StepShowHint fuel e e' ts :
      showHint fuel e = Return e' →
      Step (MkRuntime e ts) (MkRuntime e' ts)
  | StepSettle e e' ts1 ts2 :
      settle e = Some e' →
      Step (MkRuntime e (ts1 ++ SettleTimer :: ts2)) (MkRuntime e' (ts1 ++ ts2))
  | StepReset e ts1 ts2 :
      Step (MkRuntime e (ts1 ++ ResetTimer :: ts2)) (MkRuntime (invalidReset e) (ts1 ++ ts2))
  | StepOther e e' ts :
      grid e' = grid e → selection e' = selection e →
      animating e' = animating e → rng e' = rng e →
      Step (MkRuntime e ts) (MkRuntime e' ts).

(** The states the engine can be in: from a state without grid,
    selection or scheduled callback, with the gate open. *)
Inductive Reachable : Runtime → Prop :=
  | ReachInit e :
      grid e = [] → selection e = [] → animating e = false → unitDraws (rng e) →
      Reachable (MkRuntime e [])
  | ReachStep s s' :
      Reachable s → Step s s' → Reachable s'.

(** ** Notions used to state the properties *)

(** No word of [ws] starts like [s]: no non-empty string begins both [s]
    and a word of [ws]. *)
Definition sharesNoPrefix (s : string) (ws : list string) : Prop :=
  ∀ w p, w ∈ ws → p ≠ EmptyString →
         ¬ (String.prefix p s = true ∧ String.prefix p w = true).

(** Descending by score. *)
Definition byScoreDesc (a b : HighScoreEntry) : Prop :=
  HighScore.score b ≤ HighScore.score a.

(** The prior entries that a new entry cannot pass: those whose score is
    at least its own. *)
Definition notBeaten (entry : HighScoreEntry) (prior : list HighScoreEntry)
  : list HighScoreEntry :=
  List.filter (fun s => HighScore.score entry <=? HighScore.score s) prior.

Definition beaten (entry : HighScoreEntry) (prior : list HighScoreEntry)
  : list HighScoreEntry :=
  List.filter (fun s => negb (HighScore.score entry <=? HighScore.score s)) prior.

(** The score table as the design gives it: 3 to 10 letters, longer
    words scoring as ten letters. *)
Definition scoreTable (len : nat) : Z :=
  if (10 <? len)%nat then 1000
  else match len with
       | 3%nat => 10
       | 4%nat => 20
       | 5%nat => 40
       | 6%nat => 80
       | 7%nat => 150
       | 8%nat => 300
       | 9%nat => 500
       | 10%nat => 1000
       | _ => 0
       end.

(** Some tile of the path has the wild colour. *)
Definition someWild (tiles : list TileData) : Prop :=
  ∃ t, t ∈ tiles ∧ Tile.color t = WILD_COLOR.

(** A colour that is neither the wild one nor the bomb marker. *)
Definition plainColor (col : string) : Prop :=
  col ≠ WILD_COLOR ∧ col ≠ "RAINBOW".

(** At least one tile of the path has a plain colour and all such tiles
    share it. *)
Definition oneSharedColor (tiles : list TileData) : Prop :=
  ∃ col, (∃ t, t ∈ tiles ∧ Tile.color t = col ∧ plainColor col)
         ∧ ∀ t, t ∈ tiles → plainColor (Tile.color t) → Tile.color t = col.

(** The multiplier of the design: 3 with a wild tile, else 2 with one
    shared plain colour, else 1. *)
Definition multiplierIs (tiles : list TileData) (m : Z) : Prop :=
  (someWild tiles ∧ m = 3)
  ∨ (¬ someWild tiles ∧ oneSharedColor tiles ∧ m = 2)
  ∨ (¬ someWild tiles ∧ ¬ oneSharedColor tiles ∧ m = 1).

(** The exploded tiles of a commit: the blast of the bombs of the
    selection. *)
Definition explodedTilesOf (e : Engine) : option (list Coordinate) :=
  bombTiles ← bombsOf (grid e) (selection e);
  blastAll (grid e) (selection e) bombTiles.

Definition onGrid (p : Coordinate) : Prop :=
  inBounds (Z.of_nat GRID_SIZE) (Z.of_nat GRID_SIZE) p = true.

(** A 6 x 6 grid with a selection that lies on it. *)
Definition validSelection (e : Engine) : Prop :=
  squareGrid (grid e) ∧ Forall onGrid (selection e).

(** A coordinate whose tile can be put on a path: it is on the grid, not
    blocked, and carries one letter. *)
Definition selectable (grid : Grid) (p : Coordinate) : Prop :=
  ∃ t, tileAt grid (Coord.r p) (Coord.c p) = Some t
       ∧ Tile.isBlocked t = false
       ∧ String.length (Tile.letter t) = 1%nat.

(** What [applyGravity] makes of the column [old]: new tiles, all marked
    new, on top of the tiles of [old] that were not removed, in their
    order and with [isNew] cleared, six tiles in all. *)
Definition refilled (old new : list TileData) : Prop :=
  ∃ newTiles,
    new = newTiles
          ++ (Tile.withIsNew false
                <$> List.filter (fun t => negb (Tile.removed t)) old)
    ∧ length new = GRID_SIZE
    ∧ Forall (fun t => Tile.isNew t = true ∧ Tile.status t = IDLE) newTiles.

(** The tile at a coordinate is on the grid and not blocked. *)
Definition unblockedAt (grid : Grid) (p : Coordinate) : Prop :=
  ∃ t, tileAt grid (Coord.r p) (Coord.c p) = Some t ∧ Tile.isBlocked t = false.

(** All coordinates of a [rows] x [cols] grid, row by row. *)
Definition cells (rows cols : Z) : list Coordinate :=
  (fun rc => Coord.Mk rc.1 rc.2) <$> list_prod (seqZ 0 rows) (seqZ 0 cols).

(** No tile of the grid is pending removal. *)
Definition noneRemoved (grid : Grid) : Prop :=
  Forall (Forall (fun t => Tile.removed t = false)) grid.

(** The draws of [g'] are those of [g]: only the position moved. *)
Definition sameDraws (g g' : Rng) : Prop := draws g' = draws g.

(** What selection and search read of a tile besides its status. *)
Definition face (t : TileData) : string * bool := (Tile.letter t, Tile.isBlocked t).

(** Two grids with the same letters and blocks, cell by cell. *)
Definition sameFaces (g g' : Grid) : Prop :=
  ∀ r c, face <$> tileAt g' r c = face <$> tileAt g r c.

(** What stays true of every reachable state. *)
Definition Steady (s : Runtime) : Prop :=
  let e := engine s in
  (grid e = [] ∨ squareGrid (grid e))
  ∧ letteredGrid (grid e)
  ∧ unitDraws (rng e)
  ∧ Forall (selectable (grid e)) (selection e)
  ∧ ((animating e = false ∧ timers s = [] ∧ noneRemoved (grid e))
     ∨ (animating e = true ∧ timers s = [SettleTimer])
     ∨ (animating e = true ∧ timers s = [ResetTimer] ∧ noneRemoved (grid e))).

(** ** Sample states for the examples *)

Module Demo.

Definition letterTile (col : string) (ch : ascii) : TileData :=
  Tile.Mk 0 (String ch EmptyString) IDLE 0 col false false false.

Definition bombLetter (ch : ascii) : TileData :=
  Tile.Mk 0 (String ch EmptyString) IDLE 0 "RAINBOW" false false true.

Definition row (col : string) (letters : string) : list TileData :=
  letterTile col <$> list_ascii_of_string letters.

Definition words : list string := ["CAT"; "CATS"; "DOG"].

(** C, a bomb A and T in the top row; nothing else spells a word. *)
Definition grid0 : Grid :=
  [ [letterTile "PINK" "C"; bombLetter "A"; letterTile "BLUE" "T";
     letterTile "TEAL" "Q"; letterTile "TEAL" "Q"; letterTile "TEAL" "Q"];
    row "TEAL" "QQQQQQ"; row "TEAL" "QQQQQQ"; row "TEAL" "QQQQQQ";
    row "TEAL" "QQQQQQ"; row "TEAL" "QQQQQQ" ].

Definition halves : Rng := MkRng (fun _ => 1 # 2) 0.

Definition path0 : list Coordinate := [Coord.Mk 0 0; Coord.Mk 0 1; Coord.Mk 0 2].

(** A game in play with C-A-T selected. *)
Definition engine0 : Engine :=
  MkEngine GAME CASUAL NORMAL grid0 path0
           (MkGameState 0 0 EmptyString None 1 0 500 0 0)
           false (list_to_set words) (Some (Trie.ofWords words)) false [] halves.

(** The same grid with the top-row word already matched. *)
Definition matchedGrid : Grid :=
  [ [Tile.withStatus MATCHED (letterTile "PINK" "C");
     Tile.withStatus MATCHED (bombLetter "A");
     Tile.withStatus MATCHED (letterTile "BLUE" "T");
     letterTile "TEAL" "Q"; letterTile "TEAL" "Q"; letterTile "TEAL" "Q"];
    row "TEAL" "QQQQQQ"; row "TEAL" "QQQQQQ"; row "TEAL" "QQQQQQ";
    row "TEAL" "QQQQQQ"; row "TEAL" "QQQQQQ" ].

Definition matchedEngine : Engine :=
  MkEngine GAME CASUAL NORMAL matchedGrid []
           (MkGameState 0 0 EmptyString None 1 0 500 0 0)
           false (list_to_set words) (Some (Trie.ofWords words)) false [] halves.

Definition entry (s d : Z) : HighScoreEntry := HighScore.Mk s EmptyString d None.

Definition store0 : Storage :=
  fun m => match m with
           | CASUAL => Some [entry 300 1; entry 200 2]
           | TIMED => None
           end.

End Demo.

(** ** Loading the dictionary *)

(** The success branch of [loadDictionary], on the trimmed, upper-cased
    lines of the word list: the kept words become the membership set and
    the trie, and loading ends. *)
Definition loadDictionary (lines : list string) (e : Engine) : Engine :=
  let words := loadWords lines in
  MkEngine (screen e) (mode e) (difficulty e) (grid e) (selection e) (gameState e)
           (animating e) (list_to_set words) (Some (Trie.ofWords words)) false
           (specialSpawnQueue e) (rng e).

(** The [catch] branch of [loadDictionary]: loading ends without
    dictionary or trie. *)
Definition loadFailed (e : Engine) : Engine :=
  MkEngine (screen e) (mode e) (difficulty e) (grid e) (selection e) (gameState e)
           (animating e) (dictionary e) (trie e) false (specialSpawnQueue e) (rng e).

(** The state of [App] at its first render: nothing loaded yet. *)
Definition mountedEngine (g : Rng) : Engine :=
  MkEngine MENU CASUAL NORMAL [] []
           (MkGameState 0 0 EmptyString None 1 60 500 0 0)
           false ∅ None true [] g.

(** ** Further notions used to state properties *)

(** Each coordinate of the path is 8-adjacent to the one before. *)
Fixpoint linked (path : list Coordinate) : Prop :=
  match path with
  | p :: (q :: _) as rest => isAdjacent p q = true ∧ linked rest
  | _ => True
  end.

(** A path that can be traced: no coordinate twice, each step to an
    8-adjacent coordinate. *)
Definition chain (path : list Coordinate) : Prop := NoDup path ∧ linked path.

(** A grid whose rows all have the length of the first. *)
Definition rectangular (grid : Grid) : Prop :=
  Forall (fun row => length row = length (hd [] grid)) grid.

(** The three kinds of tile that the generator makes. *)
Definition blockedKind (t : TileData) : Prop :=
  Tile.isBlocked t = true ∧ Tile.isBomb t = false
  ∧ Tile.letter t = EmptyString ∧ Tile.color t = "GRAY".

Definition poolLetter (l : string) : Prop :=
  ∃ (i : nat) ch, String.get i LETTER_POOL = Some ch ∧ l = String ch EmptyString.

Definition bombKind (t : TileData) : Prop :=
  Tile.isBlocked t = false ∧ Tile.isBomb t = true
  ∧ poolLetter (Tile.letter t) ∧ Tile.color t = "RAINBOW".

Definition plainKind (t : TileData) : Prop :=
  Tile.isBlocked t = false ∧ Tile.isBomb t = false
  ∧ poolLetter (Tile.letter t)
  ∧ (Tile.color t = WILD_COLOR ∨ Tile.color t ∈ TILE_COLORS).

(** The kind that a forced type asks for. *)
Definition forcedKind (f : ForcedType) (t : TileData) : Prop :=
  match f with
  | BLOCKED => blockedKind t
  | BOMB => bombKind t
  end.


(** The last branch of [generateTile], from the wild draw on: a regular
    or wild tile. *)
Definition plainTile (isNew : bool) (g : Rng) : TileData * Rng :=
  let '(w, g) := random g in
  let isWild := Qltb w (8 # 100) in
  let '(color, g) :=
    if isWild then (WILD_COLOR, g)
    else
      let '(x, g) := random g in
      let i := Qfloor (x * inject_Z (Z.of_nat (length TILE_COLORS))) in
      (if i <? 0 then EmptyString else default EmptyString (TILE_COLORS !! Z.to_nat i), g) in
  let '(i, g) := generateId g in
  let '(l, g) := getRandomLetter g in
  let '(k, g) := random g in
  (Tile.Mk i l IDLE k color isNew false false, g).

(** The number of tiles of the grid that are MATCHED or EXPLODED. *)
Definition pendingRemoval (grid : Grid) : nat :=
  length (List.filter Tile.removed (concat grid)).

(** The number of new tiles that column [c] needs: six less the tiles
    that stay. *)
Definition neededIn (grid : Grid) (c : nat) : nat :=
  match column grid c with
  | Some col => (GRID_SIZE - length (colTiles col))%nat
  | None => 0%nat
  end.

(** The tile at a coordinate is on the grid and neither MATCHED nor
    EXPLODED. *)
Definition liveAt (grid : Grid) (p : Coordinate) : Prop :=
  ∃ t, tileAt grid (Coord.r p) (Coord.c p) = Some t ∧ Tile.removed t = false.

(** Two grids that differ in the statuses of their tiles at most: cell
    by cell the tiles are equal once the status is set aside. *)
Definition statusOnly (g g' : Grid) : Prop :=
  ∀ r c, Tile.withStatus IDLE <$> tileAt g' r c = Tile.withStatus IDLE <$> tileAt g r c.

(** The margin beyond which the rounding of a spawn threshold cannot
    decide a comparison with it. *)
Definition rollMargin : Q := 1 # 1000000.

(** A casual game over the word list with RRR and with every draw 1/2,
    so that every tile is a TEAL R: the first three tiles of the top row
    are traced and released. [default] takes the state out of the
    handler's result, which is never [None] here. *)
Module Played.
Definition words : list string := ["RRR"].

Definition started : Engine := startGame CASUAL (initialEngine words Demo.halves).

Definition touched1 : Engine := default started (handleTouchStart 0 0 started).

Definition touched2 : Engine :=
  default touched1 (handleTouchMove (TouchMove (Some (Coord.Mk 0 1))) touched1).

Definition touched3 : Engine :=
  default touched2 (handleTouchMove (TouchMove (Some (Coord.Mk 0 2))) touched2).

Definition released : Engine := default touched3 (handleTouchEnd touched3).
End Played.
(** ** Properties of the trie *)

Section TrieFacts.

Import Trie.

Lemma searchAt_newNode (s : string) :
  searchAt s newNode = match s with EmptyString => 1%nat | _ => 0%nat end.
Proof. destruct s; reflexivity. Qed.

Lemma searchAt_le_2 (s : string) : ∀ n, (searchAt s n ≤ 2)%nat.
Proof.
  induction s as [|ch s IH]; intros n; simpl.
  - destruct (isEndOfWord n); lia.
  - destruct (children n !! ch); [apply IH | lia].
Qed.

Lemma searchAt_empty_pos (n : TrieNode) : (1 ≤ searchAt "" n)%nat.
Proof. simpl. destruct (isEndOfWord n); lia. Qed.

Lemma prefix_empty (w : string) : String.prefix "" w = true.
Proof. destruct w; reflexivity. Qed.

(** What one insertion does to every lookup. *)
Lemma searchAt_insertAt (w : string) :
  ∀ s n,
    searchAt s (insertAt w n) =
      if decide (s = w) then 2%nat
      else if String.prefix s w then Nat.max 1 (searchAt s n)
      else searchAt s n.
Proof.
  induction w as [|a w IH]; intros s n.
  - destruct s as [|b s]; [reflexivity|].
    destruct (decide (String b s = "")) as [?|_]; [discriminate|]. reflexivity.
  - destruct s as [|b s].
    + destruct (decide ("" = String a w)) as [?|_]; [discriminate|].
      rewrite prefix_empty. simpl. destruct (isEndOfWord n); reflexivity.
    + cbn [insertAt searchAt children String.prefix].
      destruct (ascii_dec b a) as [->|Hne].
      * rewrite lookup_insert_eq, IH.
        destruct (decide (s = w)) as [->|Hsw].
        { destruct (decide (String a w = String a w)); [reflexivity|congruence]. }
        destruct (decide (String a s = String a w)) as [?|_]; [congruence|].
        destruct (children n !! a) as [child|]; simpl; [reflexivity|].
        rewrite searchAt_newNode.
        destruct s as [|c s]; [by rewrite prefix_empty|].
        destruct (String.prefix _ _); reflexivity.
      * rewrite lookup_insert_ne by congruence.
        destruct (decide (String b s = String a w)) as [?|_]; [congruence|].
        reflexivity.
Qed.

Lemma prefix_refl (s : string) : String.prefix s s = true.
Proof.
  induction s as [|a s IH]; simpl; [reflexivity|].
  destruct (ascii_dec a a); [exact IH | congruence].
Qed.

Lemma search_insert_same w tr : search w (insert w tr) = 2%nat.
Proof.
  unfold search, insert; simpl. rewrite searchAt_insertAt.
  rewrite decide_True by reflexivity. reflexivity.
Qed.

Lemma search_insert_keeps_exact s w tr :
  search s tr = 2%nat → search s (insert w tr) = 2%nat.
Proof.
  unfold search, insert; simpl. intros H. rewrite searchAt_insertAt, H.
  destruct (decide _); [reflexivity|]. destruct (String.prefix _ _); reflexivity.
Qed.

Lemma search_insert_mono s w tr :
  (search s tr ≤ search s (insert w tr))%nat.
Proof.
  unfold search, insert; simpl. rewrite searchAt_insertAt.
  pose proof (searchAt_le_2 s (root tr)).
  destruct (decide _); [lia|]. destruct (String.prefix _ _); lia.
Qed.

Lemma search_insert_prefix s w tr :
  String.prefix s w = true → (1 ≤ search s (insert w tr))%nat.
Proof.
  unfold search, insert; simpl. intros H. rewrite searchAt_insertAt, H.
  destruct (decide _); lia.
Qed.

Lemma search_insert_other s w tr :
  String.prefix s w = false → search s (insert w tr) = search s tr.
Proof.
  unfold search, insert; simpl. intros H. rewrite searchAt_insertAt, H.
  rewrite decide_False; [reflexivity|].
  intros ->. rewrite prefix_refl in H. discriminate.
Qed.

Lemma search_insert_not_exact s w tr :
  s ≠ w → (search s tr ≤ 1)%nat → (search s (insert w tr) ≤ 1)%nat.
Proof.
  unfold search, insert; simpl. intros Hne H. rewrite searchAt_insertAt.
  rewrite decide_False by exact Hne.
  destruct (String.prefix _ _); lia.
Qed.

(** The same facts for a whole word list, inserted in order. *)
Lemma insertAll_mono s ws : ∀ tr, (search s tr ≤ search s (insertAll ws tr))%nat.
Proof.
  induction ws as [|w ws IH]; intros tr; simpl; [lia|].
  etransitivity; [apply (search_insert_mono s w)|apply IH].
Qed.

Lemma insertAll_exact s ws : ∀ tr, s ∈ ws → search s (insertAll ws tr) = 2%nat.
Proof.
  induction ws as [|w ws IH]; intros tr Hin; [by apply elem_of_nil in Hin|].
  apply elem_of_cons in Hin as [->|Hin]; simpl; [|by apply IH].
  pose proof (insertAll_mono w ws (insert w tr)) as Hm.
  rewrite search_insert_same in Hm.
  pose proof (searchAt_le_2 w (root (insertAll ws (insert w tr)))).
  unfold search in *. lia.
Qed.

Lemma insertAll_prefix s ws :
  ∀ tr w, w ∈ ws → String.prefix s w = true → (1 ≤ search s (insertAll ws tr))%nat.
Proof.
  induction ws as [|w0 ws IH]; intros tr w Hin Hp; [by apply elem_of_nil in Hin|].
  apply elem_of_cons in Hin as [->|Hin]; simpl; [|by eapply IH].
  etransitivity; [apply (search_insert_prefix s w0 tr Hp)|apply insertAll_mono].
Qed.

Lemma insertAll_not_exact s ws :
  ∀ tr, s ∉ ws → (search s tr ≤ 1)%nat → (search s (insertAll ws tr) ≤ 1)%nat.
Proof.
  induction ws as [|w ws IH]; intros tr Hnin Hle; simpl; [exact Hle|].
  apply not_elem_of_cons in Hnin as [Hne Hnin].
  apply IH; [exact Hnin|]. by apply search_insert_not_exact.
Qed.

Lemma insertAll_other s ws :
  ∀ tr, (∀ w, w ∈ ws → String.prefix s w = false) →
        search s (insertAll ws tr) = search s tr.
Proof.
  induction ws as [|w ws IH]; intros tr Hno; simpl; [reflexivity|].
  rewrite IH by (intros w' Hw'; apply Hno; by right).
  apply search_insert_other, Hno. by left.
Qed.

Lemma search_new (s : string) :
  search s new = match s with EmptyString => 1%nat | _ => 0%nat end.
Proof. apply searchAt_newNode. Qed.

Lemma loadWords_nonempty raw w : w ∈ loadWords raw → w ≠ "".
Proof.
  unfold loadWords. rewrite list_elem_of_filter. intros [Hk _] ->.
  vm_compute in Hk. discriminate.
Qed.

End TrieFacts.

Section TrieTheorems.

Import Trie.

Lemma search_ofWords_exact ws w : w ∈ ws → search w (ofWords ws) = ExactWord.
Proof. apply insertAll_exact. Qed.

Lemma search_ofWords_prefix ws p w :
  w ∈ ws → String.prefix p w = true → p ∉ ws → search p (ofWords ws) = PrefixOnly.
Proof.
  intros Hw Hp Hnot. unfold PrefixOnly.
  pose proof (insertAll_prefix p ws new w Hw Hp) as Hge.
  assert (search p new ≤ 1)%nat as Hnew.
  { rewrite search_new. destruct p; lia. }
  pose proof (insertAll_not_exact p ws new Hnot Hnew) as Hle.
  unfold ofWords. lia.
Qed.

Lemma search_ofWords_none ws s :
  s ≠ EmptyString → (∀ w, w ∈ ws → String.prefix s w = false) →
  search s (ofWords ws) = NoMatch.
Proof.
  intros Hs Hno. unfold ofWords. rewrite insertAll_other by exact Hno.
  rewrite search_new. destruct s; [congruence | reflexivity].
Qed.

Lemma sharesNoPrefix_not_prefix s ws :
  s ≠ EmptyString → sharesNoPrefix s ws → ∀ w, w ∈ ws → String.prefix s w = false.
Proof.
  intros Hs Hno w Hw. destruct (String.prefix s w) eqn:Hp; [|reflexivity].
  exfalso. apply (Hno w s Hw Hs). split; [apply prefix_refl | exact Hp].
Qed.

Lemma search_empty_ofWords ws :
  EmptyString ∉ ws → search EmptyString (ofWords ws) = PrefixOnly.
Proof.
  intros Hnot. unfold PrefixOnly, ofWords.
  assert (search EmptyString new ≤ 1)%nat as Hnew by (rewrite search_new; lia).
  pose proof (insertAll_not_exact EmptyString ws new Hnot Hnew).
  pose proof (searchAt_empty_pos (root (insertAll ws new))).
  unfold search in *. lia.
Qed.

(** C3, as amended: the trie of any word list answers [ExactWord] on
    every inserted word, [PrefixOnly] on every non-empty strict prefix
    of an inserted word that was not inserted itself, and [NoMatch] on
    every non-empty string that starts like no inserted word. *)
Theorem trie_search_classifies (ws : list string) :
  (∀ w, w ∈ ws → search w (ofWords ws) = ExactWord)
  ∧ (∀ p w, w ∈ ws → p ≠ EmptyString → String.prefix p w = true → p ≠ w →
            p ∉ ws → search p (ofWords ws) = PrefixOnly)
  ∧ (∀ s, s ≠ EmptyString → sharesNoPrefix s ws → search s (ofWords ws) = NoMatch).
Proof.
  split; [|split].
  - intros w Hw. by apply search_ofWords_exact.
  - intros p w Hw _ Hp _ Hnot. by eapply search_ofWords_prefix.
  - intros s Hs Hno. apply search_ofWords_none; [exact Hs|].
    by apply sharesNoPrefix_not_prefix.
Qed.

Lemma trie_search_classifies_witness :
  search "CAT" (ofWords ["CAT"; "CATS"; "DOG"]) = ExactWord
  ∧ search "DO" (ofWords ["CAT"; "CATS"; "DOG"]) = PrefixOnly
  ∧ search "EEL" (ofWords ["CAT"; "CATS"; "DOG"]) = NoMatch.
Proof.
  destruct (trie_search_classifies ["CAT"; "CATS"; "DOG"]) as (H1 & H2 & H3).
  split; [|split].
  - apply H1. by left.
  - apply (H2 "DO" "DOG").
    + right; right; by left.
    + discriminate.
    + reflexivity.
    + discriminate.
    + intros Hin. repeat (apply elem_of_cons in Hin as [Hin|Hin]; [discriminate|]).
      by apply elem_of_nil in Hin.
  - apply H3; [discriminate|].
    intros w p Hin Hp [Hps Hpw].
    destruct p as [|a p]; [congruence|].
    simpl in Hps. destruct (ascii_dec a "E") as [->|]; [|discriminate].
    repeat (apply elem_of_cons in Hin as [->|Hin]; [simpl in Hpw; discriminate|]).
    by apply elem_of_nil in Hin.
Defined.

(** C3, as stated, fails on the empty string: with no word inserted the
    empty string starts like no inserted word, and the lookup answers
    [PrefixOnly]. *)
Lemma trie_search_empty_string_not_NoMatch :
  sharesNoPrefix EmptyString [] ∧ search EmptyString (ofWords []) ≠ NoMatch.
Proof.
  split; [|discriminate].
  intros w p Hin. by apply elem_of_nil in Hin.
Qed.

(** C9, as amended: on every trie the lookup of the empty string is
    never [NoMatch]; it is [PrefixOnly] whenever the empty string was
    not inserted, so on the trie without words and on every trie of the
    loader. *)
Theorem search_empty_string :
  (∀ tr, search EmptyString tr ≠ NoMatch)
  ∧ (∀ ws, EmptyString ∉ ws → search EmptyString (ofWords ws) = PrefixOnly)
  ∧ search EmptyString new = PrefixOnly
  ∧ (∀ raw, search EmptyString (ofWords (loadWords raw)) = PrefixOnly).
Proof.
  split; [|split; [|split]].
  - intros tr. pose proof (searchAt_empty_pos (root tr)). unfold search, NoMatch. lia.
  - apply search_empty_ofWords.
  - reflexivity.
  - intros raw. apply search_empty_ofWords.
    intros Hin. by apply loadWords_nonempty in Hin.
Qed.

Lemma search_empty_string_witness :
  search EmptyString (ofWords ["CAT"; "DOG"]) = PrefixOnly.
Proof.
  apply (proj1 (proj2 search_empty_string)).
  intros Hin. repeat (apply elem_of_cons in Hin as [Hin|Hin]; [discriminate|]).
  by apply elem_of_nil in Hin.
Defined.

(** C9, as stated, fails on a trie into which the empty string was
    inserted: the lookup answers [ExactWord]. *)
Lemma search_empty_string_inserted :
  search EmptyString (insert EmptyString new) = ExactWord ∧ ExactWord ≠ PrefixOnly.
Proof. split; [reflexivity | discriminate]. Qed.

End TrieTheorems.

(** ** The leaderboard *)

Section Leaderboard.

Implicit Types (x e s : HighScoreEntry) (l prior : list HighScoreEntry).

Lemma insertByScore_perm x l : insertByScore x l ≡ₚ x :: l.
Proof.
  induction l as [|y l IH]; simpl; [reflexivity|].
  destruct (HighScore.score y <=? HighScore.score x); [reflexivity|].
  rewrite IH. apply Permutation_swap.
Qed.

Lemma sortByScore_perm l : sortByScore l ≡ₚ l.
Proof.
  induction l as [|x l IH]; simpl; [reflexivity|].
  rewrite insertByScore_perm. by rewrite IH.
Qed.

Lemma insertByScore_sorted x l :
  StronglySorted byScoreDesc l → StronglySorted byScoreDesc (insertByScore x l).
Proof.
  induction 1 as [|y l Hs IH Hy]; simpl.
  - repeat constructor.
  - destruct (Z.leb_spec (HighScore.score y) (HighScore.score x)) as [Hle|Hlt].
    + constructor; [by constructor|].
      constructor; [exact Hle|].
      eapply Forall_impl; [exact Hy|]. unfold byScoreDesc. intros; simpl in *; lia.
    + constructor; [exact IH|].
      rewrite insertByScore_perm. constructor; [unfold byScoreDesc; lia | exact Hy].
Qed.

Lemma sortByScore_sorted l : StronglySorted byScoreDesc (sortByScore l).
Proof.
  induction l as [|x l IH]; simpl; [constructor|]. by apply insertByScore_sorted.
Qed.

Lemma StronglySorted_take {A} (R : A → A → Prop) (n : nat) (l : list A) :
  StronglySorted R l → StronglySorted R (take n l).
Proof.
  intros Hs. revert n. induction Hs as [|y l Hs IH Hy]; intros [|n]; simpl; try constructor.
  - apply IH.
  - by apply Forall_take.
Qed.

(** An entry that does not fall below [e] is placed among those in
    front of [e]. *)
Lemma insertByScore_front x e l1 l2 :
  HighScore.score e ≤ HighScore.score x →
  insertByScore x (l1 ++ e :: l2) = insertByScore x l1 ++ e :: l2.
Proof.
  intros Hle. induction l1 as [|y l1 IH]; simpl.
  - destruct (Z.leb_spec (HighScore.score e) (HighScore.score x)); [reflexivity | lia].
  - destruct (HighScore.score y <=? HighScore.score x); [reflexivity|].
    by rewrite IH.
Qed.

(** An entry below [e] and below everything in front of [e] is placed
    behind [e]. *)
Lemma insertByScore_back x e l1 l2 :
  HighScore.score x < HighScore.score e →
  Forall (fun y => HighScore.score x < HighScore.score y) l1 →
  insertByScore x (l1 ++ e :: l2) = l1 ++ e :: insertByScore x l2.
Proof.
  intros Hlt Hall. induction Hall as [|y l1 Hy Hall IH]; simpl.
  - destruct (Z.leb_spec (HighScore.score e) (HighScore.score x)); [lia | reflexivity].
  - destruct (Z.leb_spec (HighScore.score y) (HighScore.score x)); [lia|].
    by rewrite IH.
Qed.

Lemma elem_of_notBeaten e prior s :
  s ∈ notBeaten e prior ↔ s ∈ prior ∧ HighScore.score e ≤ HighScore.score s.
Proof.
  unfold notBeaten. rewrite !list_elem_of_In, filter_In, Z.leb_le. reflexivity.
Qed.

Lemma elem_of_beaten e prior s :
  s ∈ beaten e prior ↔ s ∈ prior ∧ HighScore.score s < HighScore.score e.
Proof.
  unfold beaten. rewrite !list_elem_of_In, filter_In, negb_true_iff, Z.leb_gt. reflexivity.
Qed.

(** Where the stable sort puts the entry pushed last: behind the prior
    entries it does not beat, in front of those it beats. *)
Lemma sortByScore_snoc e prior :
  sortByScore (prior ++ [e]) =
    sortByScore (notBeaten e prior) ++ e :: sortByScore (beaten e prior).
Proof.
  induction prior as [|x prior IH]; [reflexivity|].
  change (sortByScore ((x :: prior) ++ [e]))
    with (insertByScore x (sortByScore (prior ++ [e]))).
  rewrite IH. unfold notBeaten, beaten. simpl.
  destruct (Z.leb_spec (HighScore.score e) (HighScore.score x)) as [Hle|Hlt]; simpl.
  - by apply insertByScore_front.
  - apply insertByScore_back; [exact Hlt|].
    apply Forall_forall. intros y Hy.
    rewrite sortByScore_perm in Hy. apply elem_of_notBeaten in Hy. lia.
Qed.

Lemma sameEntry_spec e s :
  sameEntry e s = true ↔
    HighScore.date s = HighScore.date e ∧ HighScore.score s = HighScore.score e.
Proof. unfold sameEntry. rewrite andb_true_iff, !Z.eqb_eq. reflexivity. Qed.

Lemma getLeaderboard_setItem mode v store : getLeaderboard mode (setItem mode v store) = v.
Proof. unfold getLeaderboard, setItem. by rewrite decide_True. Qed.

Lemma getLeaderboard_setItem_ne mode mode' v store :
  mode' ≠ mode → getLeaderboard mode' (setItem mode v store) = getLeaderboard mode' store.
Proof. intros Hne. unfold getLeaderboard, setItem. by rewrite decide_False. Qed.

(** C8: [saveScore] answers true exactly when an entry with the new
    entry's (date, score) pair is in the stored list, which is the first
    ten entries of the stable descending arrangement; so it answers true
    when fewer than ten prior entries hold their rank against the new
    score, and only then if no prior entry has the same pair. The stored
    list has at most ten entries, is descending by score, and is made of
    prior entries and the new one; the other mode's list is untouched. *)
Theorem saveScore_top_ten (mode : GameMode) (entry : HighScoreEntry) (store : Storage) :
  let prior := getLeaderboard mode store in
  let stored := getLeaderboard mode (saveScore mode entry store).1 in
  let qualified := (saveScore mode entry store).2 in
  (qualified = true ↔
     ∃ i s, (i < 10)%nat ∧ stored !! i = Some s
            ∧ HighScore.date s = HighScore.date entry
            ∧ HighScore.score s = HighScore.score entry)
  ∧ stored = take 10 (sortByScore (notBeaten entry prior)
                        ++ entry :: sortByScore (beaten entry prior))
  ∧ ((length (notBeaten entry prior) < 10)%nat → qualified = true)
  ∧ ((∀ s, s ∈ prior → ¬ (HighScore.date s = HighScore.date entry
                           ∧ HighScore.score s = HighScore.score entry)) →
     (qualified = true ↔ (length (notBeaten entry prior) < 10)%nat))
  ∧ (length stored ≤ 10)%nat
  ∧ StronglySorted byScoreDesc stored
  ∧ (∃ dropped, stored ++ dropped ≡ₚ prior ++ [entry])
  ∧ (∀ mode', mode' ≠ mode →
       getLeaderboard mode' (saveScore mode entry store).1 = getLeaderboard mode' store).
Proof.
  intros prior stored qualified.
  assert (stored = take 10 (sortByScore (prior ++ [entry]))) as Hstored.
  { unfold stored, saveScore. simpl. by rewrite getLeaderboard_setItem. }
  assert (qualified = existsb (sameEntry entry) stored) as Hq.
  { rewrite Hstored. reflexivity. }
  assert (qualified = true ↔
            ∃ s, s ∈ stored ∧ HighScore.date s = HighScore.date entry
                 ∧ HighScore.score s = HighScore.score entry) as Hiff.
  { rewrite Hq, existsb_exists. split.
    - intros (s & Hin & Hs). exists s. split; [by apply list_elem_of_In|].
      by apply sameEntry_spec.
    - intros (s & Hin & Hs). exists s. split; [by apply list_elem_of_In|].
      by apply sameEntry_spec. }
  assert (length stored ≤ 10)%nat as Hlen.
  { rewrite Hstored, length_take. lia. }
  assert (stored = take 10 (sortByScore (notBeaten entry prior)
                              ++ entry :: sortByScore (beaten entry prior))) as Hshape.
  { by rewrite Hstored, sortByScore_snoc. }
  assert ((length (notBeaten entry prior) < 10)%nat → entry ∈ stored) as Hlands.
  { intros Hrank. rewrite Hshape. apply list_elem_of_lookup.
    exists (length (sortByScore (notBeaten entry prior))).
    assert (length (sortByScore (notBeaten entry prior)) = length (notBeaten entry prior))
      as Hl by (by rewrite sortByScore_perm).
    rewrite lookup_take_lt by lia.
    by rewrite list_lookup_middle. }
  split; [|split; [|split; [|split; [|split; [|split; [|split]]]]]].
  - rewrite Hiff. split.
    + intros (s & Hin & Hs). apply list_elem_of_lookup in Hin as [i Hi].
      exists i, s. split; [|by split].
      apply lookup_lt_Some in Hi. lia.
    + intros (i & s & _ & Hi & Hs). exists s. split; [|exact Hs].
      apply list_elem_of_lookup. by exists i.
  - exact Hshape.
  - intros Hrank. apply Hiff. exists entry. split; [by apply Hlands | by split].
  - intros Hfresh. split; [|intros Hrank; apply Hiff; exists entry; split;
                             [by apply Hlands | by split]].
    intros Hok. apply Hiff in Hok as (s & Hin & Hs).
    destruct (decide (length (notBeaten entry prior) < 10)%nat) as [?|Hge]; [done|].
    exfalso. rewrite Hshape in Hin.
    assert (length (sortByScore (notBeaten entry prior)) = length (notBeaten entry prior))
      as Hl by (by rewrite sortByScore_perm).
    rewrite take_app_le in Hin by lia.
    apply subseteq_take in Hin. rewrite sortByScore_perm in Hin.
    apply elem_of_notBeaten in Hin as [Hin _]. by apply (Hfresh s).
  - exact Hlen.
  - rewrite Hstored. apply StronglySorted_take, sortByScore_sorted.
  - exists (drop 10 (sortByScore (prior ++ [entry]))).
    rewrite Hstored, take_drop. apply sortByScore_perm.
  - intros mode' Hne. unfold saveScore. simpl. by apply getLeaderboard_setItem_ne.
Qed.

End Leaderboard.

(** ** Reading and writing the grid *)

Section GridFacts.

Implicit Types (g : Grid) (p : Coordinate) (t : TileData).

Lemma onGrid_spec p :
  onGrid p ↔ 0 ≤ Coord.r p < 6 ∧ 0 ≤ Coord.c p < 6.
Proof.
  unfold onGrid, inBounds, GRID_SIZE.
  rewrite !andb_true_iff, !Z.leb_le, !Z.ltb_lt. lia.
Qed.

Lemma tileAt_spec g r c t :
  tileAt g r c = Some t ↔
    0 ≤ r ∧ 0 ≤ c ∧ ∃ row, g !! Z.to_nat r = Some row ∧ row !! Z.to_nat c = Some t.
Proof.
  unfold tileAt.
  destruct (Z.leb_spec 0 r), (Z.leb_spec 0 c); simpl;
    try (split; [discriminate | intros (? & ? & _); lia]).
  destruct (g !! Z.to_nat r) as [row|]; simpl.
  - split; [intros H'; repeat split; eauto | intros (_ & _ & row' & [= <-] & ?); done].
  - split; [discriminate | intros (_ & _ & row' & ? & _); discriminate].
Qed.

Lemma squareGrid_row g i row :
  squareGrid g → g !! i = Some row → length row = GRID_SIZE.
Proof.
  intros [_ Hrows] Hi. eapply Forall_forall in Hrows; [exact Hrows|].
  apply list_elem_of_lookup. by exists i.
Qed.

Lemma tileAt_square g p :
  squareGrid g → onGrid p → is_Some (tileAt g (Coord.r p) (Coord.c p)).
Proof.
  intros Hsq Hp. apply onGrid_spec in Hp.
  destruct (lookup_lt_is_Some_2 g (Z.to_nat (Coord.r p))) as [row Hrow].
  { destruct Hsq as [-> _]. unfold GRID_SIZE. lia. }
  destruct (lookup_lt_is_Some_2 row (Z.to_nat (Coord.c p))) as [t Ht].
  { rewrite (squareGrid_row g _ row Hsq Hrow). unfold GRID_SIZE. lia. }
  exists t. apply tileAt_spec. repeat split; try lia. eauto.
Qed.

Lemma tileAt_square_inv g r c t :
  squareGrid g → tileAt g r c = Some t → onGrid (Coord.Mk r c).
Proof.
  intros Hsq (Hr & Hc & row & Hrow & Ht)%tileAt_spec.
  apply onGrid_spec. simpl.
  pose proof (squareGrid_row g _ row Hsq Hrow) as Hlen.
  apply lookup_lt_Some in Hrow, Ht. destruct Hsq as [Hg _].
  rewrite Hg in Hrow. rewrite Hlen in Ht. unfold GRID_SIZE in *. lia.
Qed.

Lemma tilesAt_square g coords :
  squareGrid g → Forall onGrid coords → is_Some (tilesAt g coords).
Proof.
  intros Hsq Hall. unfold tilesAt. apply mapM_is_Some.
  eapply Forall_impl; [exact Hall|]. intros p Hp. by apply tileAt_square.
Qed.

Lemma tilesAt_length g coords tiles :
  tilesAt g coords = Some tiles → length tiles = length coords.
Proof. intros H. symmetry. by eapply length_mapM. Qed.

Lemma alterTile_Some f g r c t :
  tileAt g r c = Some t → is_Some (alterTile f g r c).
Proof.
  intros (Hr & Hc & row & Hrow & Ht)%tileAt_spec. unfold alterTile.
  destruct (Z.leb_spec 0 r), (Z.leb_spec 0 c); try lia. simpl.
  rewrite Hrow. simpl. rewrite Ht. simpl. eauto.
Qed.

Lemma alterTile_inv f g r c g' :
  alterTile f g r c = Some g' →
  0 ≤ r ∧ 0 ≤ c ∧ ∃ row t, g !! Z.to_nat r = Some row ∧ row !! Z.to_nat c = Some t
                           ∧ g' = <[Z.to_nat r := <[Z.to_nat c := f t]> row]> g.
Proof.
  unfold alterTile.
  destruct (Z.leb_spec 0 r), (Z.leb_spec 0 c); simpl; try discriminate.
  destruct (g !! Z.to_nat r) as [row|] eqn:Hrow; simpl; [|discriminate].
  destruct (row !! Z.to_nat c) as [t|] eqn:Ht; simpl; [|discriminate].
  intros [= <-]. repeat split; try lia. eauto.
Qed.

Lemma alterTile_square f g r c g' :
  squareGrid g → alterTile f g r c = Some g' → squareGrid g'.
Proof.
  intros Hsq (_ & _ & row & t & Hrow & _ & ->)%alterTile_inv.
  pose proof (squareGrid_row g _ row Hsq Hrow) as Hlen.
  destruct Hsq as [Hg Hrows]. split; [by rewrite length_insert|].
  apply Forall_insert; [exact Hrows|]. by rewrite length_insert.
Qed.

(** A write at one cell changes the tile there and no other. *)
Lemma tileAt_alterTile f g r c g' r' c' :
  alterTile f g r c = Some g' →
  tileAt g' r' c' =
    if decide (r' = r ∧ c' = c) then f <$> tileAt g r c else tileAt g r' c'.
Proof.
  intros (Hr & Hc & row & t & Hrow & Ht & ->)%alterTile_inv.
  assert (tileAt g r c = Some t) as Hrc.
  { apply tileAt_spec. repeat split; try lia. eauto. }
  destruct (decide (r' = r ∧ c' = c)) as [[-> ->]|Hne].
  - rewrite Hrc. simpl. apply tileAt_spec. repeat split; try lia.
    exists (<[Z.to_nat c := f t]> row). split.
    + apply list_lookup_insert_eq. by eapply lookup_lt_Some.
    + apply list_lookup_insert_eq. by eapply lookup_lt_Some.
  - unfold tileAt.
    destruct (Z.leb_spec 0 r'), (Z.leb_spec 0 c'); simpl; try reflexivity.
    destruct (decide (Z.to_nat r' = Z.to_nat r)) as [Heq|Hr'].
    + assert (r' = r) as -> by lia.
      rewrite list_lookup_insert_eq by (by eapply lookup_lt_Some).
      rewrite Hrow. simpl.
      apply list_lookup_insert_ne. intros Hcc. apply Hne. split; [done | lia].
    + by rewrite list_lookup_insert_ne.
Qed.

Lemma markAll_snoc s coords p g :
  markAll s (coords ++ [p]) g =
    g' ← markAll s coords g; alterTile (Tile.withStatus s) g' (Coord.r p) (Coord.c p).
Proof. unfold markAll. by rewrite foldl_snoc. Qed.

Lemma markAll_square s coords g :
  squareGrid g → Forall onGrid coords →
  ∃ g', markAll s coords g = Some g' ∧ squareGrid g'.
Proof.
  intros Hsq. induction coords as [|p coords IH] using rev_ind; intros Hall.
  - exists g. by split.
  - apply Forall_app in Hall as [Hall Hp]. rewrite Forall_singleton in Hp.
    destruct (IH Hall) as (g1 & Hg1 & Hsq1).
    rewrite markAll_snoc, Hg1. simpl.
    destruct (tileAt_square g1 p Hsq1 Hp) as [t Ht].
    destruct (alterTile_Some (Tile.withStatus s) g1 _ _ t Ht) as [g2 Hg2].
    exists g2. split; [exact Hg2|]. by eapply alterTile_square.
Qed.

(** After [markAll] every listed tile has the status. *)
Lemma markAll_status s coords g g' :
  markAll s coords g = Some g' →
  ∀ p, p ∈ coords →
       ∃ t, tileAt g' (Coord.r p) (Coord.c p) = Some t ∧ Tile.status t = s.
Proof.
  revert g'. induction coords as [|q coords IH] using rev_ind; intros g' Hm p Hp.
  - by apply elem_of_nil in Hp.
  - rewrite markAll_snoc in Hm.
    destruct (markAll s coords g) as [g1|] eqn:Hg1; simpl in Hm; [|discriminate].
    rewrite (tileAt_alterTile _ _ _ _ _ (Coord.r p) (Coord.c p) Hm).
    pose proof (alterTile_inv _ _ _ _ _ Hm) as (Hr & Hc & row & t & Hrow & Ht & _).
    assert (tileAt g1 (Coord.r q) (Coord.c q) = Some t) as Hq.
    { apply tileAt_spec. repeat split; try lia. eauto. }
    destruct (decide _) as [[Hrr Hcc]|Hne].
    + rewrite Hq. simpl. eauto.
    + apply elem_of_app in Hp as [Hp|Hp]; [by apply (IH g1)|].
      apply list_elem_of_singleton in Hp as ->. exfalso. by apply Hne.
Qed.

(** Tiles outside the list keep what they had. *)
Lemma markAll_other s coords g g' r c :
  markAll s coords g = Some g' →
  (∀ p, p ∈ coords → ¬ (Coord.r p = r ∧ Coord.c p = c)) →
  tileAt g' r c = tileAt g r c.
Proof.
  revert g'. induction coords as [|q coords IH] using rev_ind; intros g' Hm Hno.
  - by injection Hm as <-.
  - rewrite markAll_snoc in Hm.
    destruct (markAll s coords g) as [g1|] eqn:Hg1; simpl in Hm; [|discriminate].
    rewrite (tileAt_alterTile _ _ _ _ _ r c Hm).
    rewrite decide_False.
    + apply IH; [reflexivity|]. intros p Hp. apply Hno, elem_of_app. by left.
    + intros [-> ->]. apply (Hno q); [|done]. apply elem_of_app. right. by left.
Qed.

End GridFacts.

(** ** Level advance *)

Lemma floor_three_halves (t : Z) : Qfloor (inject_Z t * (15 # 10)) = t + t / 2.
Proof.
  unfold Qfloor, Qmult, inject_Z. simpl.
  change (Z.pos (1 * 10)) with 10.
  replace (t * 15) with ((t + t / 2) * 10 + (5 * (t mod 2))).
  - rewrite Z.div_add_l by lia.
    pose proof (Z.mod_pos_bound t 2 ltac:(lia)).
    rewrite (Z.div_small (5 * (t mod 2)) 10) by lia. lia.
  - pose proof (Z.div_mod t 2 ltac:(lia)). lia.
Qed.

(** C10: [nextLevel] adds one to the level, sets the target to
    floor(target * 1.5) + 500, adds 15 to the time left, and keeps the
    score, the word count, the best word, the last score added and both
    streak counters. *)
Theorem nextLevel_gameState (e : Engine) :
  let prev := gameState e in
  let next := gameState (nextLevel e) in
  level next = level prev + 1
  ∧ targetScore next = Qfloor (inject_Z (targetScore prev) * (15 # 10)) + 500
  ∧ targetScore next = targetScore prev + targetScore prev / 2 + 500
  ∧ timeLeft next = timeLeft prev + 15
  ∧ score next = score prev
  ∧ wordCount next = wordCount prev
  ∧ bestWord next = bestWord prev
  ∧ lastScoreAdded next = lastScoreAdded prev
  ∧ streakShort next = streakShort prev
  ∧ streakLong next = streakLong prev.
Proof.
  intros prev next. repeat split.
  unfold next, nextLevel. cbn [gameState setScreen setGameState targetScore].
  by rewrite floor_three_halves.
Qed.

(** ** Match resolution *)

Section MatchFacts.

Implicit Types (g : Grid) (p n : Coordinate) (e : Engine) (tiles : list TileData).

Lemma blast_square g sel exploded n :
  squareGrid g → Forall onGrid exploded →
  ∃ exploded', blast g sel exploded n = Some exploded' ∧ Forall onGrid exploded'.
Proof.
  intros Hsq Hall. unfold blast.
  destruct (inBounds _ _ n) eqn:Hb; [|eauto].
  destruct (negb _ && negb _); [|eauto].
  destruct (tileAt_square g n Hsq Hb) as [t ->]. simpl.
  destruct (bool_decide _); [|eauto].
  eexists. split; [reflexivity|]. apply Forall_app. split; [exact Hall|].
  by apply Forall_singleton.
Qed.

Lemma blast_fold_square g sel ns :
  squareGrid g → ∀ acc,
    (∃ x, acc = Some x ∧ Forall onGrid x) →
    ∃ x, foldl (fun acc n => exploded ← acc; blast g sel exploded n) acc ns = Some x
         ∧ Forall onGrid x.
Proof.
  intros Hsq. induction ns as [|n ns IH]; intros acc Hacc; [exact Hacc|].
  simpl. apply IH. destruct Hacc as (x & -> & Hx). simpl. by apply blast_square.
Qed.

Lemma blastAll_square g sel bombs :
  squareGrid g →
  ∃ exploded, blastAll g sel bombs = Some exploded ∧ Forall onGrid exploded.
Proof.
  intros Hsq. unfold blastAll.
  assert (∃ x : list Coordinate, Some [] = Some x ∧ Forall onGrid x) as Hacc
      by (exists []; by split).
  revert Hacc. generalize (Some (@nil Coordinate)).
  induction bombs as [|b bombs IH]; intros acc Hacc; [exact Hacc|].
  apply (IH (foldl (fun acc n => exploded ← acc; blast g sel exploded n)
                   acc (neighbors (Coord.r b) (Coord.c b)))).
  by apply blast_fold_square.
Qed.

Lemma baseWordScore_table (len : nat) :
  (MIN_WORD_LENGTH ≤ len)%nat → baseWordScore len = scoreTable len.
Proof.
  unfold MIN_WORD_LENGTH. intros Hlen.
  do 11 (destruct len as [|len]; [first [lia | reflexivity]|]).
  reflexivity.
Qed.

Lemma hasWild_spec tiles : hasWild tiles = true ↔ someWild tiles.
Proof.
  unfold hasWild, someWild. rewrite existsb_exists. split.
  - intros (t & Hin & Ht). exists t. split; [by apply list_elem_of_In|].
    by apply bool_decide_eq_true in Ht.
  - intros (t & Hin & Ht). exists t. split; [by apply list_elem_of_In|].
    by apply bool_decide_eq_true.
Qed.

Lemma elem_of_colorsInWord tiles col :
  col ∈ colorsInWord tiles ↔ ∃ t, t ∈ tiles ∧ Tile.color t = col ∧ plainColor col.
Proof.
  unfold colorsInWord, plainColor.
  rewrite list_elem_of_In, filter_In, <- list_elem_of_In, list_elem_of_fmap.
  rewrite andb_true_iff, !negb_true_iff, !bool_decide_eq_false.
  split.
  - intros [(t & -> & Hin) Hplain]. eauto.
  - intros (t & Hin & <- & Hplain). eauto.
Qed.

Lemma isColorMatch_spec tiles : isColorMatch tiles = true ↔ oneSharedColor tiles.
Proof.
  unfold isColorMatch, oneSharedColor.
  rewrite andb_true_iff, Nat.ltb_lt, Nat.leb_le.
  pose proof (elem_of_colorsInWord tiles) as Hmem.
  destruct (colorsInWord tiles) as [|col rest]. 
  - split; [simpl; lia|].
    intros (col & Hex & _). apply Hmem in Hex. by apply elem_of_nil in Hex.
  - assert (col ∈ (list_to_set (col :: rest) : gset string)) as Hcol.
    { apply elem_of_list_to_set. by left. }
    split.
    + intros [_ Hsize].
      exists col. split; [apply Hmem; by left|].
      intros t Hin Hplain.
      assert (Tile.color t ∈ (list_to_set (col :: rest) : gset string)) as Ht.
      { apply elem_of_list_to_set, Hmem. eauto. }
      assert (size (list_to_set (col :: rest) : gset string) ≠ 0%nat) as Hne.
      { apply size_non_empty_iff. intros Hempty. rewrite Hempty in Hcol.
        by apply not_elem_of_empty in Hcol. }
      assert (size (list_to_set (col :: rest) : gset string) = 1%nat) as Hone by lia.
      exact (size_singleton_inv _ _ _ Hone Ht Hcol).
    + intros (col' & Hex & Hall).
      split; [simpl; lia|].
      rewrite <- (size_singleton (C:=gset string) col'). apply subseteq_size.
      intros c Hc. apply elem_of_list_to_set in Hc.
      apply Hmem in Hc as (t & Hin & <- & Hplain).
      apply elem_of_singleton. by apply Hall.
Qed.

(** The total of a commit is the table value times the multiplier plus
    50 per exploded tile. *)
Lemma totalScore_spec (len : nat) tiles (exploded : list Coordinate) :
  (MIN_WORD_LENGTH ≤ len)%nat →
  ∃ m, multiplierIs tiles m
       ∧ totalScore len tiles exploded
         = scoreTable len * m + 50 * Z.of_nat (length exploded).
Proof.
  intros Hlen. unfold totalScore. rewrite (baseWordScore_table len Hlen).
  assert (∀ x : Z,
            (if (0 <? length exploded)%nat then x + Z.of_nat (length exploded) * 50 else x)
            = x + 50 * Z.of_nat (length exploded)) as Hboom.
  { intros x. destruct (Nat.ltb_spec 0 (length exploded)); lia. }
  rewrite Hboom.
  destruct (hasWild tiles) eqn:Hw.
  - exists 3. split; [left; split; [by apply hasWild_spec | done] | reflexivity].
  - assert (¬ someWild tiles) as Hnw.
    { intros Hs%hasWild_spec. congruence. }
    destruct (isColorMatch tiles) eqn:Hc.
    + exists 2. split; [|reflexivity].
      right; left. repeat split; [exact Hnw | by apply isColorMatch_spec].
    + exists 1. split; [|lia].
      right; right. repeat split; [exact Hnw|].
      intros Hs%isColorMatch_spec. congruence.
Qed.

(** What a commit leaves behind, step by step. *)
Lemma handleValidWord_inv word e e' :
  handleValidWord word e = Some e' →
  ∃ exploded tiles g,
    explodedTilesOf e = Some exploded
    ∧ tilesAt (grid e) (selection e) = Some tiles
    ∧ (g1 ← markAll MATCHED (selection e) (grid e); markAll EXPLODED exploded g1) = Some g
    ∧ grid e' = g
    ∧ animating e' = true
    ∧ score (gameState e') =
        score (gameState e) + totalScore (String.length word) tiles exploded
    ∧ lastScoreAdded (gameState e') =
        Some (totalScore (String.length word) tiles exploded)
    ∧ (streakShort (gameState e'), streakLong (gameState e'), specialSpawnQueue e')
      = updateStreaks (difficulty e) (String.length word)
                      (streakShort (gameState e)) (streakLong (gameState e))
                      (specialSpawnQueue e)
    ∧ difficulty e' = difficulty e
    ∧ selection e' = selection e
    ∧ rng e' = rng e.
Proof.
  unfold handleValidWord, explodedTilesOf. intros H.
  destruct (bombsOf (grid e) (selection e)) as [bombs|]; simpl in *; [|discriminate].
  destruct (blastAll (grid e) (selection e) bombs) as [exploded|]; simpl in *;
    [|discriminate].
  destruct (tilesAt (grid e) (selection e)) as [tiles|]; simpl in *; [|discriminate].
  destruct (markAll MATCHED (selection e) (grid e)) as [g1|]; simpl in *; [|discriminate].
  destruct (markAll EXPLODED exploded g1) as [g2|] eqn:Hg2; simpl in *; [|discriminate].
  destruct (updateStreaks _ _ _ _ _) as [[short long] queue] eqn:Hst.
  injection H as <-. exists exploded, tiles, g2. simpl. rewrite Hg2.
  repeat split; reflexivity.
Qed.

(** A commit on a selection that lies on a 6 x 6 grid goes through. *)
Lemma handleValidWord_total word e :
  validSelection e → is_Some (handleValidWord word e).
Proof.
  intros [Hsq Hsel]. unfold handleValidWord.
  destruct (tilesAt_square (grid e) (selection e) Hsq Hsel) as [tiles Htiles].
  unfold bombsOf. rewrite Htiles. simpl.
  destruct (blastAll_square (grid e) (selection e)
              (List.filter (λ st, Tile.isBomb st.2) (zip (selection e) tiles)).*1 Hsq)
    as (exploded & -> & Hex).
  simpl.
  destruct (markAll_square MATCHED (selection e) (grid e) Hsq Hsel) as (g1 & -> & Hsq1).
  simpl.
  destruct (markAll_square EXPLODED exploded g1 Hsq1 Hex) as (g2 & -> & Hsq2).
  simpl. destruct (updateStreaks _ _ _ _ _) as [[short long] queue]. eauto.
Qed.

(** C1: on a valid word the score grows by the table value of the
    length times the multiplier (3 with a wild tile, else 2 with one
    shared plain colour, else 1) plus 50 per exploded tile. *)
Theorem handleValidWord_score (word : string) (e : Engine) :
  validSelection e →
  (MIN_WORD_LENGTH ≤ String.length word)%nat →
  ∃ e' tiles exploded m,
    handleValidWord word e = Some e'
    ∧ tilesAt (grid e) (selection e) = Some tiles
    ∧ explodedTilesOf e = Some exploded
    ∧ multiplierIs tiles m
    ∧ score (gameState e') =
        score (gameState e)
        + (scoreTable (String.length word) * m + 50 * Z.of_nat (length exploded))
    ∧ lastScoreAdded (gameState e') =
        Some (scoreTable (String.length word) * m + 50 * Z.of_nat (length exploded)).
Proof.
  intros Hvalid Hlen.
  destruct (handleValidWord_total word e Hvalid) as [e' He'].
  destruct (handleValidWord_inv word e e' He')
    as (exploded & tiles & g & Hex & Htiles & _ & _ & _ & Hscore & Hlast & _).
  destruct (totalScore_spec (String.length word) tiles exploded Hlen) as (m & Hm & Htot).
  exists e', tiles, exploded, m. rewrite Hscore, Hlast, Htot. done.
Qed.

Lemma isShortPenalty_spec (d : Difficulty) (len : nat) :
  isShortPenalty d len = true ↔
    (d = NORMAL ∧ len = 3%nat) ∨ (d = HARD ∧ (len = 3%nat ∨ len = 4%nat)).
Proof.
  destruct d; simpl.
  - split; [discriminate | intros [[? _]|[? _]]; discriminate].
  - rewrite Nat.eqb_eq. split; [by left | intros [[_ ?]|[? _]]; [done | discriminate]].
  - rewrite orb_true_iff, !Nat.eqb_eq.
    split; [by right | intros [[? _]|[_ ?]]; [discriminate | done]].
Qed.

(** C6: the streak counters and the spawn queue after a commit. *)
Theorem handleValidWord_streaks (word : string) (e e' : Engine) :
  handleValidWord word e = Some e' →
  let len := String.length word in
  let prev := gameState e in
  let next := gameState e' in
  let short := isShortPenalty (difficulty e) len in
  (short = true ↔
     (difficulty e = NORMAL ∧ len = 3%nat)
     ∨ (difficulty e = HARD ∧ (len = 3%nat ∨ len = 4%nat)))
  ∧ (short = true →
     streakShort next = streakShort prev + 1 ∧ streakLong next = 0
     ∧ specialSpawnQueue e' =
         specialSpawnQueue e
         ++ (if decide (2 ≤ streakShort prev + 1) then [BLOCKED] else []))
  ∧ (short = false → (5 ≤ len)%nat →
     streakLong next = streakLong prev + 1 ∧ streakShort next = 0
     ∧ specialSpawnQueue e' =
         specialSpawnQueue e
         ++ (if decide (2 ≤ streakLong prev + 1) then [BOMB] else []))
  ∧ (short = false → (len < 5)%nat →
     streakShort next = 0 ∧ streakLong next = 0
     ∧ specialSpawnQueue e' = specialSpawnQueue e)
  ∧ (difficulty e = NORMAL → len = 3%nat → streakShort prev = 0 →
     specialSpawnQueue e' = specialSpawnQueue e
     ∧ ∀ word2 e2 e3,
         difficulty e2 = NORMAL →
         streakShort (gameState e2) = streakShort next →
         String.length word2 = 3%nat →
         handleValidWord word2 e2 = Some e3 →
         specialSpawnQueue e3 = specialSpawnQueue e2 ++ [BLOCKED]).
Proof.
  intros H. cbv zeta.
  pose proof (handleValidWord_inv word e e' H)
    as (ex & ts & g & _ & _ & _ & _ & _ & _ & _ & Hst & _).
  unfold updateStreaks in Hst.
  split; [apply isShortPenalty_spec|].
  split; [|split; [|split]].
  - intros Hs. rewrite Hs in Hst. injection Hst as H1 H2 H3.
    rewrite H1, H2, H3. repeat split.
    destruct (Z.leb_spec 2 (streakShort (gameState e) + 1)).
    + by rewrite decide_True.
    + rewrite decide_False by lia. by rewrite app_nil_r.
  - intros Hs Hlong. rewrite Hs in Hst.
    destruct (Nat.leb_spec 5 (String.length word)); [|lia].
    injection Hst as H1 H2 H3. rewrite H1, H2, H3. repeat split.
    destruct (Z.leb_spec 2 (streakLong (gameState e) + 1)).
    + by rewrite decide_True.
    + rewrite decide_False by lia. by rewrite app_nil_r.
  - intros Hs Hlong. rewrite Hs in Hst.
    destruct (Nat.leb_spec 5 (String.length word)); [lia|].
    injection Hst as H1 H2 H3. by rewrite H1, H2, H3.
  - intros Hd Hlen Hzero.
    rewrite Hd, Hlen, Hzero in Hst. simpl in Hst. injection Hst as Hshort _ Hq.
    split; [exact Hq|].
    intros word2 e2 e3 Hd2 Hs2 Hlen2 H2.
    pose proof (handleValidWord_inv word2 e2 e3 H2)
      as (ex2 & ts2 & g2 & _ & _ & _ & _ & _ & _ & _ & Hst2 & _).
    unfold updateStreaks in Hst2. rewrite Hd2, Hlen2, Hs2, Hshort in Hst2.
    simpl in Hst2. by injection Hst2 as _ _ ->.
Qed.

End MatchFacts.

(** ** Selection building *)

Section SelectionFacts.

Implicit Types (g : Grid) (p : Coordinate) (e : Engine) (path : list Coordinate).

Lemma length_append (s1 s2 : string) :
  String.length (String.append s1 s2) = (String.length s1 + String.length s2)%nat.
Proof. induction s1 as [|ch s1 IH]; simpl; [reflexivity | by rewrite IH]. Qed.

Lemma joinLetters_length (letters : list string) :
  Forall (fun l => String.length l = 1%nat) letters →
  String.length (joinLetters letters) = length letters.
Proof.
  induction 1 as [|l letters Hl _ IH]; simpl; [reflexivity|].
  by rewrite length_append, Hl, IH.
Qed.

Lemma tilesAt_cons g p path :
  tilesAt g (p :: path) =
    t ← tileAt g (Coord.r p) (Coord.c p); ts ← tilesAt g path; Some (t :: ts).
Proof. reflexivity. Qed.

(** The word of a path over selectable tiles has one letter per tile. *)
Lemma wordOf_selectable g path :
  Forall (selectable g) path →
  ∃ word, wordOf g path = Some word ∧ String.length word = length path.
Proof.
  intros Hall. unfold wordOf.
  assert (∃ tiles, tilesAt g path = Some tiles
                   ∧ Forall (fun t => String.length (Tile.letter t) = 1%nat) tiles
                   ∧ length tiles = length path) as (tiles & -> & Hl & Hlen).
  { induction Hall as [|p path (t & Ht & _ & Hone) _ (tiles & IH & Hl & Hlen)].
    - exists []. by repeat split.
    - exists (t :: tiles). rewrite tilesAt_cons, Ht, IH. simpl.
      repeat split; [by constructor | by rewrite Hlen]. }
  simpl. eexists. split; [reflexivity|].
  rewrite joinLetters_length, length_fmap; [exact Hlen|].
  by apply Forall_fmap.
Qed.

Lemma squareGrid_map (f : TileData → TileData) g :
  squareGrid g → squareGrid (map (map f) g).
Proof.
  intros [Hg Hrows]. split; [by rewrite length_map|].
  apply Forall_fmap. eapply Forall_impl; [exact Hrows|].
  intros row Hrow. simpl. by rewrite length_map.
Qed.

Lemma selectable_onGrid g p : squareGrid g → selectable g p → onGrid p.
Proof.
  intros Hsq (t & Ht & _). apply (tileAt_square_inv g _ _ t Hsq) in Ht.
  by destruct p.
Qed.

(** The three outcomes of [selectionStatus] on a non-empty word. *)
Lemma selectionStatus_spec (tr : Trie.t) (word : string) :
  (0 < String.length word)%nat →
  let st := selectionStatus tr word in
  let lookup := Trie.search word tr in
  (st = VALID ↔ lookup = ExactWord ∧ (MIN_WORD_LENGTH ≤ String.length word)%nat)
  ∧ (st = SELECTED ↔
       lookup ≠ NoMatch
       ∧ ¬ (lookup = ExactWord ∧ (MIN_WORD_LENGTH ≤ String.length word)%nat))
  ∧ (st = REJECT ↔ lookup = NoMatch).
Proof.
  intros Hpos. cbv zeta. unfold selectionStatus, ExactWord, NoMatch.
  destruct (Nat.ltb_spec 0 (String.length word)) as [_|?]; [|lia].
  destruct (Nat.eqb_spec (Trie.search word tr) 2) as [H2|H2];
    destruct (Nat.leb_spec MIN_WORD_LENGTH (String.length word)) as [Hl|Hl];
    destruct (Nat.eqb_spec (Trie.search word tr) 0) as [H0|H0];
    simpl; repeat split; intros; try discriminate; try lia; try tauto;
    try (destruct_and?; lia).
Qed.

(** C5: once the trie is loaded, [evaluateSelection] on a non-empty
    path of selectable tiles stores the path and gives all its tiles one
    status: VALID exactly for an exact word of at least three letters,
    SELECTED exactly when the lookup is not NoMatch and the word is not
    such an exact word, REJECT exactly when the lookup is NoMatch. *)
Theorem evaluateSelection_status (path : list Coordinate) (e : Engine) (tr : Trie.t) :
  trie e = Some tr →
  squareGrid (grid e) →
  Forall (selectable (grid e)) path →
  path ≠ [] →
  ∃ e' word st,
    evaluateSelection path e = Some e'
    ∧ wordOf (grid e) path = Some word
    ∧ selection e' = path
    ∧ (∀ p, p ∈ path →
            ∃ t, tileAt (grid e') (Coord.r p) (Coord.c p) = Some t ∧ Tile.status t = st)
    ∧ (st = VALID ↔
         Trie.search word tr = ExactWord ∧ (MIN_WORD_LENGTH ≤ String.length word)%nat)
    ∧ (st = SELECTED ↔
         Trie.search word tr ≠ NoMatch
         ∧ ¬ (Trie.search word tr = ExactWord
              ∧ (MIN_WORD_LENGTH ≤ String.length word)%nat))
    ∧ (st = REJECT ↔ Trie.search word tr = NoMatch).
Proof.
  intros Htrie Hsq Hsel Hne.
  destruct (wordOf_selectable (grid e) path Hsel) as (word & Hword & Hlen).
  assert (0 < String.length word)%nat as Hpos.
  { rewrite Hlen. destruct path; [congruence | simpl; lia]. }
  assert (Forall onGrid path) as Hon.
  { eapply Forall_impl; [exact Hsel|]. intros p. by apply selectable_onGrid. }
  unfold evaluateSelection. rewrite Htrie, Hword. simpl.
  unfold updateTileStatus.
  edestruct (markAll_square (selectionStatus tr word) path) as (g' & Hg' & _);
    [apply squareGrid_map, Hsq | exact Hon |].
  rewrite Hg'. simpl.
  exists (setGrid g' (setSelection path e)), word, (selectionStatus tr word).
  split; [reflexivity|]. split; [reflexivity|]. split; [reflexivity|].
  split; [by apply (markAll_status _ _ _ _ Hg')|].
  by apply selectionStatus_spec.
Qed.

(** The handlers that build the selection do nothing while the grid
    animates, and never take a blocked tile. *)
Lemma handleTouchStart_gated r c e :
  animating e = true → handleTouchStart r c e = Some e.
Proof. intros H. unfold handleTouchStart. by rewrite H. Qed.

Lemma handleTouchMove_gated ev e :
  animating e = true → handleTouchMove ev e = Some e.
Proof. intros H. unfold handleTouchMove. by rewrite H. Qed.

Lemma handleTouchEnd_gated e :
  animating e = true → handleTouchEnd e = Some e.
Proof. intros H. unfold handleTouchEnd. by rewrite H. Qed.

Lemma handleTouchStart_blocked r c e t :
  tileAt (grid e) r c = Some t → Tile.isBlocked t = true →
  handleTouchStart r c e = Some e.
Proof.
  intros Ht Hb. unfold handleTouchStart.
  destruct (_ || _); [reflexivity|]. rewrite Ht. simpl. by rewrite Hb.
Qed.

Lemma moveOnto_blocked p e t :
  tileAt (grid e) (Coord.r p) (Coord.c p) = Some t → Tile.isBlocked t = true →
  moveOnto (Some p) e = Some e.
Proof. intros Ht Hb. unfold moveOnto. rewrite Ht. simpl. by rewrite Hb. Qed.

(** The accepted mutations of the selection: a start on a tile that is
    not blocked, an extension by an adjacent new tile, a step back onto
    the tile before the last. Each hands the new path to
    [evaluateSelection]. *)
Lemma handleTouchStart_accepts r c e t :
  animating e = false → isLoading e = false → screen e = GAME →
  tileAt (grid e) r c = Some t → Tile.isBlocked t = false →
  handleTouchStart r c e = evaluateSelection [Coord.Mk r c] e.
Proof.
  intros Ha Hl Hs Ht Hb. unfold handleTouchStart.
  rewrite Ha, Hl, Hs, bool_decide_eq_true_2 by done. simpl.
  rewrite Ht. simpl. by rewrite Hb.
Qed.

Lemma moveOnto_backtracks p e t secondLast lastSel rest :
  selection e = rest ++ [secondLast; lastSel] →
  tileAt (grid e) (Coord.r p) (Coord.c p) = Some t → Tile.isBlocked t = false →
  Coord.same secondLast p = true →
  moveOnto (Some p) e = evaluateSelection (rest ++ [secondLast]) e.
Proof.
  intros Hsel Ht Hb Hsame. unfold moveOnto. rewrite Ht. simpl. rewrite Hb, Hsel.
  rewrite last_app. simpl.
  rewrite length_app. simpl.
  destruct (Nat.ltb_spec 1 (length rest + 2)) as [_|?]; [|lia].
  replace (length rest + 2 - 2)%nat with (length rest + 0)%nat by lia.
  rewrite lookup_app_r by lia.
  replace (length rest + 0 - length rest)%nat with 0%nat by lia. simpl.
  rewrite Hsame.
  replace (length rest + 2 - 1)%nat with (length (rest ++ [secondLast])) 
    by (rewrite length_app; simpl; lia).
  replace (rest ++ [secondLast; lastSel]) with ((rest ++ [secondLast]) ++ [lastSel])
    by (by rewrite <- app_assoc).
  by rewrite take_app_length.
Qed.

Lemma moveOnto_extends p e t lastSel :
  last (selection e) = Some lastSel →
  tileAt (grid e) (Coord.r p) (Coord.c p) = Some t → Tile.isBlocked t = false →
  existsb (fun s => Coord.same s p) (selection e) = false →
  isAdjacent lastSel p = true →
  moveOnto (Some p) e = evaluateSelection (selection e ++ [p]) e.
Proof.
  intros Hlast Ht Hb Hnew Hadj. unfold moveOnto. rewrite Ht. simpl.
  rewrite Hb, Hlast. simpl. rewrite Hnew, Hadj. simpl.
  assert (match selection e !! (length (selection e) - 2)%nat with
          | Some secondLast => Coord.same secondLast p
          | None => false
          end = false) as Hback.
  { destruct (selection e !! _) as [q|] eqn:Hq; [|done].
    destruct (Coord.same q p) eqn:Hsame; [|done].
    apply not_true_iff_false in Hnew. exfalso. apply Hnew, existsb_exists.
    exists q. split; [|done]. apply list_elem_of_In, list_elem_of_lookup. eauto. }
  rewrite Hback. by destruct (_ <? _)%nat.
Qed.

(** A release commits the word of the selection when it has three
    letters or more and is in the dictionary, and flags it otherwise. *)
Lemma handleTouchEnd_commits e word :
  animating e = false → isLoading e = false → screen e = GAME → selection e ≠ [] →
  wordOf (grid e) (selection e) = Some word →
  handleTouchEnd e =
    if (MIN_WORD_LENGTH <=? String.length word)%nat && bool_decide (word ∈ dictionary e)
    then handleValidWord word e
    else handleInvalidWord e.
Proof.
  intros Ha Hl Hs Hsel Hw. unfold handleTouchEnd.
  assert ((length (selection e) =? 0)%nat = false) as Hlen
      by (by destruct (selection e)).
  rewrite Ha, Hl, Hs, Hlen, bool_decide_eq_true_2 by done. simpl.
  by rewrite Hw.
Qed.

End SelectionFacts.

(** ** Gravity and refill *)

Section GravityFacts.

Implicit Types (g prev : Grid) (e : Engine) (col : list TileData).

Lemma generateTile_fresh lvl m b forced rng :
  Tile.isNew (generateTile lvl m b forced rng).1 = b
  ∧ Tile.status (generateTile lvl m b forced rng).1 = IDLE.
Proof.
  unfold generateTile, blockedTile, bombTile, generateId, getRandomLetter, random.
  destruct forced as [[]|]; simpl; [done | done |].
  repeat (destruct (Qltb _ _); simpl); done.
Qed.

Lemma spawnTiles_spec needed lvl m :
  ∀ queue rng,
    length (spawnTiles needed lvl m queue rng).1.1 = needed
    ∧ Forall (fun t => Tile.isNew t = true ∧ Tile.status t = IDLE)
             (spawnTiles needed lvl m queue rng).1.1.
Proof.
  induction needed as [|needed IH]; intros queue rng; simpl; [by split|].
  set (forced := match queue with [] => (None, []) | f :: q => (Some f, q) end).
  destruct forced as [forced queue'].
  pose proof (generateTile_fresh lvl m true forced rng) as Hfresh.
  destruct (generateTile lvl m true forced rng) as [tile rng'].
  specialize (IH queue' rng').
  destruct (spawnTiles needed lvl m queue' rng') as [[tiles queue''] rng''].
  simpl in *. destruct IH as [IHlen IHall].
  split; [by rewrite IHlen | by constructor].
Qed.

Lemma tileAt_nat g (r c : nat) :
  tileAt g (Z.of_nat r) (Z.of_nat c) = row ← g !! r; row !! c.
Proof.
  unfold tileAt.
  destruct (Z.leb_spec 0 (Z.of_nat r)); [|lia].
  destruct (Z.leb_spec 0 (Z.of_nat c)); [|lia].
  simpl. by rewrite !Nat2Z.id.
Qed.

Lemma mapM_ext_option {A B} (f h : A → option B) (l : list A) :
  (∀ x, f x = h x) → mapM f l = mapM h l.
Proof.
  intros Hfh. induction l as [|x l IH]; [reflexivity|].
  simpl. by rewrite Hfh, IH.
Qed.

Lemma column_rows g (c : nat) :
  column g c = mapM (fun r : nat => row ← g !! r; row !! c) [0; 1; 2; 3; 4; 5]%nat.
Proof. unfold column. apply mapM_ext_option. intros r. apply tileAt_nat. Qed.

Lemma squareGrid_inv g :
  squareGrid g →
  ∃ r0 r1 r2 r3 r4 r5,
    g = [r0; r1; r2; r3; r4; r5]
    ∧ length r0 = 6%nat ∧ length r1 = 6%nat ∧ length r2 = 6%nat
    ∧ length r3 = 6%nat ∧ length r4 = 6%nat ∧ length r5 = 6%nat.
Proof.
  intros [Hlen Hrows]. unfold GRID_SIZE in *.
  do 6 (destruct g as [|? g]; [discriminate|]).
  destruct g; [|discriminate].
  repeat (apply Forall_cons in Hrows as [? Hrows]).
  do 6 eexists. by repeat split.
Qed.

Lemma column_square g (c : nat) :
  squareGrid g → (c < 6)%nat → ∃ col, column g c = Some col ∧ length col = 6%nat.
Proof.
  intros (r0 & r1 & r2 & r3 & r4 & r5 & -> & H0 & H1 & H2 & H3 & H4 & H5)%squareGrid_inv Hc.
  rewrite column_rows. simpl.
  destruct (lookup_lt_is_Some_2 r0 c) as [t0 ->]; [lia|].
  destruct (lookup_lt_is_Some_2 r1 c) as [t1 ->]; [lia|].
  destruct (lookup_lt_is_Some_2 r2 c) as [t2 ->]; [lia|].
  destruct (lookup_lt_is_Some_2 r3 c) as [t3 ->]; [lia|].
  destruct (lookup_lt_is_Some_2 r4 c) as [t4 ->]; [lia|].
  destruct (lookup_lt_is_Some_2 r5 c) as [t5 ->]; [lia|].
  simpl. eauto.
Qed.

(** Writing a column of six tiles changes that column and no other. *)
Lemma writeColumn_spec (c : nat) col g :
  squareGrid g → length col = 6%nat → (c < 6)%nat →
  ∃ g', writeColumn c col g = Some g'
        ∧ squareGrid g'
        ∧ column g' c = Some col
        ∧ ∀ c' : nat, c' ≠ c → column g' c' = column g c'.
Proof.
  intros (r0 & r1 & r2 & r3 & r4 & r5 & -> & H0 & H1 & H2 & H3 & H4 & H5)%squareGrid_inv
         Hcol Hc.
  do 6 (destruct col as [|? col]; [discriminate|]).
  destruct col; [|discriminate].
  eexists. split; [reflexivity|]. split; [|split].
  - split; [reflexivity|]. unfold GRID_SIZE.
    repeat constructor; by rewrite length_insert.
  - rewrite column_rows. simpl.
    rewrite !list_lookup_insert_eq by lia. reflexivity.
  - intros c' Hne. rewrite !column_rows. simpl.
    by rewrite !list_lookup_insert_ne.
Qed.

Lemma colTiles_length col : (length (colTiles col) ≤ length col)%nat.
Proof.
  unfold colTiles. rewrite length_fmap. apply List.filter_length_le.
Qed.

(** One round of the column loop: the column is refilled, the others
    stay. *)
Lemma gravityColumn_spec prev lvl m ng queue rng (c : nat) :
  squareGrid prev → squareGrid ng → (c < 6)%nat →
  ∃ ng' queue' rng' old new,
    gravityColumn prev lvl m (Some (ng, queue, rng)) c = Some (ng', queue', rng')
    ∧ squareGrid ng'
    ∧ column prev c = Some old
    ∧ column ng' c = Some new
    ∧ refilled old new
    ∧ ∀ c' : nat, c' ≠ c → column ng' c' = column ng c'.
Proof.
  intros Hprev Hng Hc. unfold gravityColumn. simpl.
  destruct (column_square prev c Hprev Hc) as (old & Hold & Holdlen).
  rewrite Hold. simpl.
  pose proof (colTiles_length old) as Hsurv.
  pose proof (spawnTiles_spec (GRID_SIZE - length (colTiles old)) lvl m queue rng)
    as [Hlen Hall].
  destruct (spawnTiles _ lvl m queue rng) as [[newTiles queue'] rng'].
  simpl in Hlen, Hall.
  assert (length (newTiles ++ colTiles old) = 6%nat) as Hmerged.
  { rewrite length_app, Hlen. unfold GRID_SIZE. lia. }
  destruct (writeColumn_spec c (newTiles ++ colTiles old) ng Hng Hmerged Hc)
    as (ng' & -> & Hsq' & Hcol' & Hother).
  simpl. exists ng', queue', rng', old, (newTiles ++ colTiles old).
  split_and!; try done.
  exists newTiles. split_and!; [done | exact Hmerged | exact Hall].
Qed.

Lemma gravityColumns_spec prev lvl m (cols : list nat) :
  squareGrid prev → Forall (fun c => (c < 6)%nat) cols →
  ∀ ng queue rng,
    squareGrid ng →
    ∃ ng' queue' rng',
      foldl (gravityColumn prev lvl m) (Some (ng, queue, rng)) cols
      = Some (ng', queue', rng')
      ∧ squareGrid ng'
      ∧ (∀ c, c ∈ cols →
              ∃ old new, column prev c = Some old ∧ column ng' c = Some new
                         ∧ refilled old new)
      ∧ (∀ c : nat, c ∉ cols → column ng' c = column ng c).
Proof.
  intros Hprev Hcols. induction cols as [|c cols IH] using rev_ind;
    intros ng queue rng Hng.
  - exists ng, queue, rng. split_and!; [done | done | | done].
    intros c Hc. by apply elem_of_nil in Hc.
  - apply Forall_app in Hcols as [Hcols Hc]. rewrite Forall_singleton in Hc.
    destruct (IH Hcols ng queue rng Hng) as (ng1 & q1 & rng1 & Hfold & Hsq1 & Hdone & Hrest).
    rewrite foldl_snoc, Hfold.
    destruct (gravityColumn_spec prev lvl m ng1 q1 rng1 c Hprev Hsq1 Hc)
      as (ng2 & q2 & rng2 & old & new & -> & Hsq2 & Hold & Hnew & Hre & Hother).
    exists ng2, q2, rng2. split_and!; [done | done | |].
    + intros c' Hc'. destruct (decide (c' = c)) as [->|Hne]; [eauto|].
      apply elem_of_app in Hc' as [Hc'|Hc'];
        [|apply list_elem_of_singleton in Hc'; congruence].
      destruct (Hdone c' Hc') as (old' & new' & ? & ? & ?).
      exists old', new'. rewrite Hother by done. done.
    + intros c' Hc'. apply not_elem_of_app in Hc' as [Hc1 Hc2].
      rewrite Hother, Hrest; [done | done |].
      intros ->. apply Hc2. by left.
Qed.

Lemma applyGravity_refilled e :
  squareGrid (grid e) →
  ∃ e',
    applyGravity e = Some e'
    ∧ squareGrid (grid e')
    ∧ animating e' = false
    ∧ selection e' = []
    ∧ gameState e' = gameState e
    ∧ ∀ c : nat, (c < 6)%nat →
        ∃ old new, column (grid e) c = Some old ∧ column (grid e') c = Some new
                   ∧ refilled old new.
Proof.
  intros Hsq. unfold applyGravity.
  assert (Forall (fun c => (c < 6)%nat) (seq 0 GRID_SIZE)) as Hcols.
  { apply Forall_forall. intros c Hc%elem_of_seq. unfold GRID_SIZE in Hc. lia. }
  destruct (gravityColumns_spec (grid e) (level (gameState e)) (mode e) (seq 0 GRID_SIZE)
              Hsq Hcols (grid e) (specialSpawnQueue e) (rng e) Hsq)
    as (ng & q & rng' & -> & Hsq' & Hdone & _).
  simpl. eexists. split; [reflexivity|]. simpl. split_and!; try done.
  intros c Hc. apply Hdone, elem_of_seq. unfold GRID_SIZE. lia.
Qed.

(** C2: on a 6 x 6 grid [applyGravity] goes through and leaves a 6 x 6
    grid in which every column holds exactly six tiles: new tiles, each
    marked new, on top of the tiles of the old column that were neither
    MATCHED nor EXPLODED, in their old order and with [isNew] cleared. *)
Theorem applyGravity_columns (e : Engine) :
  squareGrid (grid e) →
  ∃ e',
    applyGravity e = Some e'
    ∧ squareGrid (grid e')
    ∧ ∀ c : nat, (c < GRID_SIZE)%nat →
        ∃ old new newTiles,
          column (grid e) c = Some old
          ∧ column (grid e') c = Some new
          ∧ length new = GRID_SIZE
          ∧ new = newTiles
                  ++ (Tile.withIsNew false
                        <$> List.filter
                              (fun t => negb (bool_decide (Tile.status t = MATCHED)
                                              || bool_decide (Tile.status t = EXPLODED)))
                              old)
          ∧ Forall (fun t => Tile.isNew t = true) newTiles
          ∧ Forall (fun t => Tile.isNew t = false) (drop (length newTiles) new).
Proof.
  intros Hsq.
  destruct (applyGravity_refilled e Hsq) as (e' & He' & Hsq' & _ & _ & _ & Hcols).
  exists e'. split; [exact He'|]. split; [exact Hsq'|].
  intros c Hc.
  destruct (Hcols c Hc) as (old & new & Hold & Hnew & newTiles & Heq & Hlen & Hall).
  exists old, new, newTiles. split_and!; try done.
  - eapply Forall_impl; [exact Hall|]. by intros t [? _].
  - rewrite Heq, drop_app_length. apply Forall_fmap, Forall_forall. by intros t _.
Qed.

Lemma column_lookup g (c : nat) col :
  squareGrid g → column g c = Some col →
  ∀ r : nat, (r < 6)%nat → tileAt g (Z.of_nat r) (Z.of_nat c) = col !! r.
Proof.
  intros (r0 & r1 & r2 & r3 & r4 & r5 & -> & _)%squareGrid_inv Hcol r Hr.
  rewrite column_rows in Hcol. simpl in Hcol.
  destruct (r0 !! c) as [t0|] eqn:E0; simpl in Hcol; [|discriminate].
  destruct (r1 !! c) as [t1|] eqn:E1; simpl in Hcol; [|discriminate].
  destruct (r2 !! c) as [t2|] eqn:E2; simpl in Hcol; [|discriminate].
  destruct (r3 !! c) as [t3|] eqn:E3; simpl in Hcol; [|discriminate].
  destruct (r4 !! c) as [t4|] eqn:E4; simpl in Hcol; [|discriminate].
  destruct (r5 !! c) as [t5|] eqn:E5; simpl in Hcol; [|discriminate].
  injection Hcol as <-. rewrite tileAt_nat.
  do 6 (destruct r as [|r]; [done|]). lia.
Qed.

Lemma noneRemoved_tileAt g :
  noneRemoved g ↔ ∀ r c t, tileAt g r c = Some t → Tile.removed t = false.
Proof.
  unfold noneRemoved. split.
  - intros Hall r c t (_ & _ & row & Hrow & Ht)%tileAt_spec.
    rewrite Forall_forall in Hall.
    assert (Forall (fun t => Tile.removed t = false) row) as Hr.
    { apply Hall, list_elem_of_lookup. eauto. }
    rewrite Forall_forall in Hr. apply Hr, list_elem_of_lookup. eauto.
  - intros Hall. apply Forall_forall. intros row [i Hi]%list_elem_of_lookup.
    apply Forall_forall. intros t [j Hj]%list_elem_of_lookup.
    apply (Hall (Z.of_nat i) (Z.of_nat j)). rewrite tileAt_nat, Hi. exact Hj.
Qed.

(** After gravity no tile is pending removal and the gate is open
    again. *)
Lemma applyGravity_settled e e' :
  squareGrid (grid e) → applyGravity e = Some e' →
  squareGrid (grid e') ∧ noneRemoved (grid e') ∧ animating e' = false
  ∧ selection e' = [].
Proof.
  intros Hsq He'.
  destruct (applyGravity_refilled e Hsq) as (e'' & He'' & Hsq' & Han & Hsel & _ & Hcols).
  rewrite He' in He''. injection He'' as <-.
  split_and!; try done.
  apply noneRemoved_tileAt. intros r c t Ht.
  pose proof (tileAt_square_inv _ _ _ _ Hsq' Ht) as Hon.
  apply onGrid_spec in Hon. simpl in Hon.
  destruct (Hcols (Z.to_nat c)) as (old & new & _ & Hnew & newTiles & Heq & _ & Hall);
    [lia|].
  pose proof (column_lookup _ _ _ Hsq' Hnew (Z.to_nat r) ltac:(lia)) as Hlook.
  rewrite !Z2Nat.id, Ht in Hlook by lia.
  symmetry in Hlook. apply list_elem_of_lookup_2 in Hlook.
  rewrite Heq in Hlook. apply elem_of_app in Hlook as [Hin|Hin].
  - rewrite Forall_forall in Hall. destruct (Hall t Hin) as [_ Hidle].
    unfold Tile.removed. by rewrite Hidle.
  - apply list_elem_of_fmap in Hin as (t0 & -> & Hin).
    apply list_elem_of_In, filter_In in Hin as [_ Hkeep].
    apply negb_true_iff in Hkeep. exact Hkeep.
Qed.

End GravityFacts.

(** ** What the generator guarantees *)

Section GeneratorFacts.

Implicit Types (g : Rng) (t : TileData).

Lemma get_in_range (s : string) : ∀ n : nat, (n < String.length s)%nat → is_Some (String.get n s).
Proof.
  induction s as [|ch s IH]; intros n Hn; simpl in Hn; [lia|].
  destruct n as [|n]; simpl; [eauto|]. apply IH. lia.
Qed.

Lemma floor_scaled (x : Q) (n : Z) :
  (0 <= x)%Q → (x < 1)%Q → 0 < n → 0 ≤ Qfloor (x * inject_Z n) < n.
Proof.
  intros H0 H1 Hn. split.
  - rewrite <- (Qfloor_Z 0). apply Qfloor_resp_le.
    change (inject_Z 0) with 0%Q.
    apply Qmult_le_0_compat; [exact H0|].
    change (inject_Z 0 <= inject_Z n)%Q. rewrite <- Zle_Qle. lia.
  - rewrite Zlt_Qlt. eapply Qle_lt_trans; [apply Qfloor_le|].
    assert (x * inject_Z n < 1 * inject_Z n)%Q as Hlt.
    { apply Qmult_lt_compat_r; [|exact H1].
      change (inject_Z 0 < inject_Z n)%Q. rewrite <- Zlt_Qlt. lia. }
    by rewrite Qmult_1_l in Hlt.
Qed.

Lemma getRandomLetter_spec g :
  unitDraws g →
  String.length (getRandomLetter g).1 = 1%nat ∧ sameDraws g (getRandomLetter g).2.
Proof.
  intros Hunit. unfold getRandomLetter, random. cbv beta iota zeta.
  cbn [fst snd]. split; [|reflexivity].
  destruct (Hunit (cursor g)) as [H0 H1].
  pose proof (floor_scaled _ (Z.of_nat (String.length LETTER_POOL)) H0 H1 ltac:(simpl; lia))
    as [Hlo Hhi].
  destruct (Z.ltb_spec (Qfloor (draws g (cursor g)
                                * inject_Z (Z.of_nat (String.length LETTER_POOL)))) 0);
    [lia|].
  destruct (get_in_range LETTER_POOL
              (Z.to_nat (Qfloor (draws g (cursor g)
                                 * inject_Z (Z.of_nat (String.length LETTER_POOL))))))
    as [ch ->]; [lia | reflexivity].
Qed.

Lemma unitDraws_same g g' : sameDraws g g' → unitDraws g → unitDraws g'.
Proof. unfold sameDraws, unitDraws. intros -> H. exact H. Qed.

(** A generated tile is idle, new as asked, and carries one letter unless
    it is blocked. *)
Lemma generateTile_spec lvl m b forced g :
  unitDraws g →
  lettered (generateTile lvl m b forced g).1
  ∧ sameDraws g (generateTile lvl m b forced g).2.
Proof.
  intros Hunit.
  assert (∀ g1, sameDraws g g1 →
                lettered (blockedTile b g1).1 ∧ sameDraws g (blockedTile b g1).2) as Hblocked.
  { intros g1 Hg1. unfold blockedTile, generateId, random. simpl. split; [|exact Hg1].
    intros Hb. discriminate. }
  assert (∀ g1, sameDraws g g1 →
                lettered (bombTile b g1).1 ∧ sameDraws g (bombTile b g1).2) as Hbomb.
  { intros g1 Hg1. unfold bombTile, generateId.
    destruct (random g1) as [i g2] eqn:E1.
    assert (sameDraws g g2) as Hg2.
    { unfold random in E1. injection E1 as _ <-. exact Hg1. }
    pose proof (getRandomLetter_spec g2 (unitDraws_same _ _ Hg2 Hunit)) as [Hlen Hd].
    destruct (getRandomLetter g2) as [l g3]. simpl in *.
    split; [by intros _|].
    unfold sameDraws in *. simpl. congruence. }
  unfold generateTile. destruct forced as [[]|].
  - by apply Hblocked.
  - by apply Hbomb.
  - destruct (random g) as [roll g1] eqn:E1.
    assert (sameDraws g g1) as Hg1 by (unfold random in E1; by injection E1 as _ <-).
    destruct (Qltb roll _); [by apply Hblocked|].
    destruct (Qltb roll _); [by apply Hbomb|].
    destruct (random g1) as [w g2] eqn:E2.
    assert (sameDraws g g2) as Hg2.
    { unfold random in E2. injection E2 as _ <-. exact Hg1. }
    set (pick := if Qltb w (8 # 100) then _ else _).
    assert (sameDraws g pick.2) as Hg3.
    { unfold pick. destruct (Qltb w _); [exact Hg2|]. simpl. exact Hg2. }
    destruct pick as [col g3]. simpl in Hg3. unfold generateId.
    destruct (random g3) as [i g4] eqn:E4.
    assert (sameDraws g g4) as Hg4.
    { unfold random in E4. injection E4 as _ <-. exact Hg3. }
    pose proof (getRandomLetter_spec g4 (unitDraws_same _ _ Hg4 Hunit)) as [Hlen Hd].
    destruct (getRandomLetter g4) as [l g5]. simpl in *.
    split; [by intros _|]. unfold sameDraws in *. simpl. congruence.
Qed.

Lemma spawnTiles_lettered needed lvl m :
  ∀ queue g,
    unitDraws g →
    Forall lettered (spawnTiles needed lvl m queue g).1.1
    ∧ sameDraws g (spawnTiles needed lvl m queue g).2.
Proof.
  induction needed as [|needed IH]; intros queue g Hunit; simpl; [by split|].
  set (forced := match queue with [] => (None, []) | f :: q => (Some f, q) end).
  destruct forced as [forced queue'].
  pose proof (generateTile_spec lvl m true forced g Hunit) as [Hl Hd].
  destruct (generateTile lvl m true forced g) as [tile g1]. simpl in Hl, Hd.
  specialize (IH queue' g1 (unitDraws_same _ _ Hd Hunit)).
  destruct (spawnTiles needed lvl m queue' g1) as [[tiles queue''] g2].
  simpl in *. destruct IH as [IHl IHd].
  split; [by constructor|]. unfold sameDraws in *. congruence.
Qed.

Lemma fillRow_spec (n : nat) m :
  ∀ g, unitDraws g →
       length (fillRow n m g).1 = n
       ∧ Forall (fun t => lettered t ∧ Tile.removed t = false) (fillRow n m g).1
       ∧ sameDraws g (fillRow n m g).2.
Proof.
  induction n as [|n IH]; intros g Hunit; [by split_and!|].
  cbn [fillRow].
  pose proof (generateTile_spec 1 m false None g Hunit) as [Hl Hd].
  pose proof (generateTile_fresh 1 m false None g) as [_ Hidle].
  destruct (generateTile 1 m false None g) as [tile g1]. simpl in Hl, Hd, Hidle.
  specialize (IH g1 (unitDraws_same _ _ Hd Hunit)).
  destruct (fillRow n m g1) as [row g2]. simpl in *.
  destruct IH as (IHlen & IHall & IHd). split_and!.
  - by rewrite IHlen.
  - constructor; [|exact IHall]. split; [exact Hl|].
    unfold Tile.removed. by rewrite Hidle.
  - unfold sameDraws in *. congruence.
Qed.

Lemma fillRows_spec (n : nat) m :
  ∀ g, unitDraws g →
       length (fillRows n m g).1 = n
       ∧ Forall (fun row => length row = GRID_SIZE
                            ∧ Forall (fun t => lettered t ∧ Tile.removed t = false) row)
                (fillRows n m g).1
       ∧ sameDraws g (fillRows n m g).2.
Proof.
  induction n as [|n IH]; intros g Hunit; [by split_and!|].
  cbn [fillRows].
  pose proof (fillRow_spec GRID_SIZE m g Hunit) as (Hlen & Hall & Hd).
  destruct (fillRow GRID_SIZE m g) as [row g1]. simpl in Hlen, Hall, Hd.
  specialize (IH g1 (unitDraws_same _ _ Hd Hunit)).
  destruct (fillRows n m g1) as [rows g2]. simpl in *.
  destruct IH as (IHlen & IHall & IHd). split_and!.
  - by rewrite IHlen.
  - by constructor.
  - unfold sameDraws in *. congruence.
Qed.

(** The first grid of a game is 6 x 6, lettered, and has no tile pending
    removal. *)
Lemma createInitialGrid_spec lvl m g :
  unitDraws g →
  squareGrid (createInitialGrid lvl m g).1
  ∧ letteredGrid (createInitialGrid lvl m g).1
  ∧ noneRemoved (createInitialGrid lvl m g).1
  ∧ sameDraws g (createInitialGrid lvl m g).2.
Proof.
  intros Hunit. unfold createInitialGrid.
  pose proof (fillRows_spec GRID_SIZE m g Hunit) as (Hlen & Hall & Hd).
  split_and!; [split; [exact Hlen|] | | | exact Hd].
  - eapply Forall_impl; [exact Hall|]. by intros row [? _].
  - eapply Forall_impl; [exact Hall|]. intros row [_ Hrow].
    eapply Forall_impl; [exact Hrow|]. by intros t [? _].
  - eapply Forall_impl; [exact Hall|]. intros row [_ Hrow].
    eapply Forall_impl; [exact Hrow|]. by intros t [_ ?].
Qed.

End GeneratorFacts.

(** ** The deadlock detector *)

Section SearchFacts.

Variables (grid : Grid) (trie : Trie.t) (rows cols : Z).

Implicit Types (p n : Coordinate) (path : list Coordinate) (fuel : nat).

Local Abbreviation searchFrom fuel := (search fuel grid trie rows cols).

(** The body of the neighbour loop, at depth [fuel]. *)
Local Abbreviation visit fuel r c path str :=
  (fun n : Coordinate =>
     if inBounds rows cols n then
       if negb (existsb (fun p => Coord.same p n) path) then
         search fuel grid trie rows cols (Coord.r n) (Coord.c n)
                (path ++ [Coord.Mk r c]) str
       else Return None
     else Return None).

Lemma search_step fuel r c path cur :
  searchFrom (S fuel) r c path cur =
    match tileAt grid r c with
    | None => TypeError
    | Some tile =>
        if Tile.isBlocked tile then Return None
        else
          let str := String.append cur (Tile.letter tile) in
          let lookup := Trie.search str trie in
          if (lookup =? 0)%nat then Return None
          else if (lookup =? 2)%nat && (MIN_WORD_LENGTH <=? String.length str)%nat
          then Return (Some (path ++ [Coord.Mk r c]))
          else if (8 <=? String.length str)%nat then Return None
          else firstResult (visit fuel r c path str) (neighbors r c)
    end.
Proof. reflexivity. Qed.

Lemma firstResult_agree {A B} (f h : A → Outcome (option B)) (l : list A) :
  (∀ x, x ∈ l → f x ≠ OutOfFuel → h x = f x) →
  firstResult f l ≠ OutOfFuel → firstResult h l = firstResult f l.
Proof.
  induction l as [|x l IH]; intros Hfh Hfuel; [reflexivity|].
  simpl in *.
  assert (f x ≠ OutOfFuel) as Hx.
  { intros Hx. rewrite Hx in Hfuel. by apply Hfuel. }
  rewrite (Hfh x (list_elem_of_here _ _) Hx).
  destruct (f x) as [| |[q|]]; try reflexivity.
  apply IH; [|exact Hfuel]. intros y Hy. apply Hfh. by right.
Qed.

Lemma firstResult_fuelled {A B} (f : A → Outcome (option B)) (l : list A) :
  (∀ x, x ∈ l → f x ≠ OutOfFuel) → firstResult f l ≠ OutOfFuel.
Proof.
  induction l as [|x l IH]; intros Hf; [discriminate|].
  simpl. pose proof (Hf x (list_elem_of_here _ _)) as Hx.
  destruct (f x) as [| |[q|]]; try done.
  apply IH. intros y Hy. apply Hf. by right.
Qed.

Lemma firstResult_found {A B} (f : A → Outcome (option B)) (l : list A) (q : B) :
  firstResult f l = Return (Some q) → ∃ x, x ∈ l ∧ f x = Return (Some q).
Proof.
  induction l as [|x l IH]; intros H; [discriminate|].
  simpl in H. destruct (f x) as [| |[q'|]] eqn:Hx; try discriminate.
  - exists x. split; [by left | congruence].
  - destruct (IH H) as (y & Hy & Hfy). exists y. split; [by right | exact Hfy].
Qed.

(** More fuel does not change a finished run. *)
Lemma search_more_fuel fuel :
  ∀ r c path cur,
    searchFrom fuel r c path cur ≠ OutOfFuel →
    searchFrom (S fuel) r c path cur = searchFrom fuel r c path cur.
Proof.
  induction fuel as [|fuel IH]; intros r c path cur Hrun; [by destruct Hrun|].
  rewrite (search_step (S fuel)). rewrite search_step in Hrun |- *.
  destruct (tileAt grid r c) as [tile|]; [|reflexivity].
  destruct (Tile.isBlocked tile); [reflexivity|]. cbv zeta in *.
  destruct (_ =? 0)%nat; [reflexivity|].
  destruct (_ && _); [reflexivity|].
  destruct (8 <=? _)%nat; [reflexivity|].
  apply firstResult_agree; [|exact Hrun].
  intros n _ Hn. destruct (inBounds rows cols n); [|reflexivity].
  destruct (negb _); [|reflexivity]. by apply IH.
Qed.

Lemma search_fuel_le fuel fuel' r c path cur :
  (fuel ≤ fuel')%nat →
  searchFrom fuel r c path cur ≠ OutOfFuel →
  searchFrom fuel' r c path cur = searchFrom fuel r c path cur.
Proof.
  intros Hle Hrun. induction Hle as [|fuel' Hle IH]; [reflexivity|].
  rewrite search_more_fuel; [exact IH|]. by rewrite IH.
Qed.

(** Once the string has eight characters the neighbours are not
    visited: one unit of fuel gives the result. *)
Lemma search_cap fuel r c path cur tile :
  tileAt grid r c = Some tile →
  (8 ≤ String.length (String.append cur (Tile.letter tile)))%nat →
  searchFrom (S fuel) r c path cur = searchFrom 1 r c path cur
  ∧ searchFrom 1 r c path cur ≠ OutOfFuel.
Proof.
  intros Ht Hlen. rewrite !search_step, Ht. cbv zeta.
  destruct (Tile.isBlocked tile); [done|].
  destruct (_ =? 0)%nat; [done|].
  destruct (_ && _); [done|].
  destruct (Nat.leb_spec 8 (String.length (String.append cur (Tile.letter tile))));
    [done | lia].
Qed.

Lemma elem_of_cells p :
  p ∈ cells rows cols ↔ inBounds rows cols p = true.
Proof.
  unfold cells, inBounds.
  rewrite list_elem_of_fmap, !andb_true_iff, !Z.leb_le, !Z.ltb_lt. split.
  - intros ([r c] & -> & Hin). apply list_elem_of_In, in_prod_iff in Hin.
    rewrite <- !list_elem_of_In, !elem_of_seqZ in Hin. simpl. lia.
  - intros Hb. exists (Coord.r p, Coord.c p). split; [by destruct p|].
    apply list_elem_of_In, in_prod_iff.
    rewrite <- !list_elem_of_In, !elem_of_seqZ. lia.
Qed.

Lemma length_cells : length (cells rows cols) = (Z.to_nat rows * Z.to_nat cols)%nat.
Proof. unfold cells. by rewrite length_fmap, length_prod, !length_seqZ. Qed.

(** A path without repetition fits on the grid. *)
Lemma path_fits path :
  NoDup path → Forall (fun p => inBounds rows cols p = true) path →
  (length path ≤ Z.to_nat rows * Z.to_nat cols)%nat.
Proof.
  intros Hnd Hall. rewrite <- length_cells. apply submseteq_length.
  apply NoDup_submseteq; [exact Hnd|].
  intros p Hp. apply elem_of_cells. by eapply Forall_forall in Hall.
Qed.

Lemma neighbors_not_self r c n : n ∈ neighbors r c → n ≠ Coord.Mk r c.
Proof.
  unfold neighbors. intros Hn Heq. subst n.
  repeat (apply elem_of_cons in Hn as [Hn|Hn]; [injection Hn; lia|]).
  by apply elem_of_nil in Hn.
Qed.

Lemma same_spec p n : Coord.same p n = true ↔ p = n.
Proof.
  unfold Coord.same. rewrite andb_true_iff, !Z.eqb_eq.
  destruct p, n; simpl. split; [intros [-> ->]; done | intros [= -> ->]; done].
Qed.

Lemma not_visited_spec path n :
  negb (existsb (fun p => Coord.same p n) path) = true ↔ n ∉ path.
Proof.
  rewrite negb_true_iff, <- not_true_iff_false, existsb_exists. split.
  - intros Hno Hin. apply Hno. exists n. split; [by apply list_elem_of_In|].
    by apply same_spec.
  - intros Hno (p & Hin & ->%same_spec). by apply Hno, list_elem_of_In.
Qed.

(** The no-revisit rule bounds the depth: a run whose fuel covers the
    cells not yet on the path never runs out. *)
Lemma search_fuelled fuel :
  ∀ r c path cur,
    NoDup (path ++ [Coord.Mk r c]) →
    Forall (fun p => inBounds rows cols p = true) (path ++ [Coord.Mk r c]) →
    (Z.to_nat rows * Z.to_nat cols ≤ length path + fuel)%nat →
    searchFrom fuel r c path cur ≠ OutOfFuel.
Proof.
  induction fuel as [|fuel IH]; intros r c path cur Hnd Hall Hfuel.
  - pose proof (path_fits _ Hnd Hall) as Hfit. rewrite length_app in Hfit.
    simpl in Hfit. lia.
  - rewrite search_step.
    destruct (tileAt grid r c) as [tile|]; [|discriminate].
    destruct (Tile.isBlocked tile); [discriminate|]. cbv zeta.
    destruct (_ =? 0)%nat; [discriminate|].
    destruct (_ && _); [discriminate|].
    destruct (8 <=? _)%nat; [discriminate|].
    apply firstResult_fuelled. intros n Hn.
    destruct (inBounds rows cols n) eqn:Hb; [|discriminate].
    destruct (negb _) eqn:Hv; [|discriminate].
    apply not_visited_spec in Hv.
    apply IH.
    + apply NoDup_app. split; [exact Hnd|]. split; [|apply NoDup_singleton].
      intros q Hq ->%list_elem_of_singleton.
      apply elem_of_app in Hq as [Hq|Hq]; [by destruct n|].
      apply list_elem_of_singleton in Hq.
      apply (neighbors_not_self r c n Hn). by destruct n.
    + apply Forall_app. split; [exact Hall|]. apply Forall_singleton. by destruct n.
    + rewrite length_app. simpl. lia.
Qed.

(** A returned path extends the path of the call by tiles that are not
    blocked. *)
Lemma search_returns_unblocked fuel :
  ∀ r c path cur q,
    searchFrom fuel r c path cur = Return (Some q) →
    ∃ tail, q = path ++ tail ∧ Forall (unblockedAt grid) tail.
Proof.
  induction fuel as [|fuel IH]; intros r c path cur q Hq; [discriminate|].
  rewrite search_step in Hq.
  destruct (tileAt grid r c) as [tile|] eqn:Ht; [|discriminate].
  destruct (Tile.isBlocked tile) eqn:Hb; [discriminate|]. cbv zeta in Hq.
  assert (unblockedAt grid (Coord.Mk r c)) as Hrc by (exists tile; by split).
  destruct (_ =? 0)%nat; [discriminate|].
  destruct (_ && _).
  - injection Hq as <-. exists [Coord.Mk r c]. split; [done|]. by apply Forall_singleton.
  - destruct (8 <=? _)%nat; [discriminate|].
    apply firstResult_found in Hq as (n & _ & Hn).
    destruct (inBounds rows cols n); [|discriminate].
    destruct (negb _); [|discriminate].
    apply IH in Hn as (tail & -> & Htail).
    exists (Coord.Mk r c :: tail). split; [by rewrite <- app_assoc|].
    by constructor.
Qed.

Lemma letteredGrid_tileAt r c tile :
  letteredGrid grid → tileAt grid r c = Some tile → lettered tile.
Proof.
  intros Hlet (_ & _ & row & Hrow & Ht)%tileAt_spec.
  unfold letteredGrid in Hlet. rewrite Forall_forall in Hlet.
  assert (Forall lettered row) as Hr.
  { apply Hlet, list_elem_of_lookup. by exists (Z.to_nat r). }
  rewrite Forall_forall in Hr. apply Hr, list_elem_of_lookup. by exists (Z.to_nat c).
Qed.

(** With one letter per tile the path is as long as the string, so at
    most eight tiles. *)
Lemma search_returns_short fuel :
  letteredGrid grid →
  ∀ r c path cur q,
    String.length cur = length path →
    (length path < 8)%nat →
    searchFrom fuel r c path cur = Return (Some q) →
    (length q ≤ 8)%nat.
Proof.
  intros Hlet. induction fuel as [|fuel IH]; intros r c path cur q Hcur Hlen Hq;
    [discriminate|].
  rewrite search_step in Hq.
  destruct (tileAt grid r c) as [tile|] eqn:Ht; [|discriminate].
  destruct (Tile.isBlocked tile) eqn:Hb; [discriminate|]. cbv zeta in Hq.
  assert (String.length (Tile.letter tile) = 1%nat) as Hone
      by (by apply (letteredGrid_tileAt r c tile Hlet Ht)).
  destruct (_ =? 0)%nat; [discriminate|].
  destruct (_ && _).
  - injection Hq as <-. rewrite length_app. simpl. lia.
  - destruct (Nat.leb_spec 8 (String.length (String.append cur (Tile.letter tile))))
      as [|Hstr]; [discriminate|].
    rewrite length_append, Hone in Hstr.
    apply firstResult_found in Hq as (n & _ & Hn).
    destruct (inBounds rows cols n); [|discriminate].
    destruct (negb _); [|discriminate].
    eapply IH; [| |exact Hn].
    + rewrite length_append, Hone, length_app. simpl. lia.
    + rewrite length_app. simpl. lia.
Qed.

End SearchFacts.

(** ** Invariants of the engine *)

Section RuntimeFacts.

Implicit Types (g : Grid) (e : Engine) (t : TileData) (p : Coordinate).

Lemma tileAt_Forall (P : TileData → Prop) g :
  Forall (Forall P) g ↔ ∀ r c t, tileAt g r c = Some t → P t.
Proof.
  split.
  - intros Hall r c t (_ & _ & row & Hrow & Ht)%tileAt_spec.
    rewrite Forall_forall in Hall.
    assert (Forall P row) as Hr by (apply Hall, list_elem_of_lookup; eauto).
    rewrite Forall_forall in Hr. apply Hr, list_elem_of_lookup. eauto.
  - intros Hall. apply Forall_forall. intros row [i Hi]%list_elem_of_lookup.
    apply Forall_forall. intros t [j Hj]%list_elem_of_lookup.
    apply (Hall (Z.of_nat i) (Z.of_nat j)). rewrite tileAt_nat, Hi. exact Hj.
Qed.

Lemma tileAt_map (f : TileData → TileData) g r c :
  tileAt (map (map f) g) r c = f <$> tileAt g r c.
Proof.
  unfold tileAt. destruct (_ && _); [|reflexivity].
  change (map (map f) g) with (map f <$> g). rewrite list_lookup_fmap.
  destruct (g !! Z.to_nat r) as [row|]; [|reflexivity]. simpl.
  change (map f row) with (f <$> row). by rewrite list_lookup_fmap.
Qed.

Lemma sameFaces_refl g : sameFaces g g.
Proof. by intros r c. Qed.

Lemma sameFaces_trans g1 g2 g3 : sameFaces g1 g2 → sameFaces g2 g3 → sameFaces g1 g3.
Proof. intros H12 H23 r c. by rewrite H23, H12. Qed.

Lemma sameFaces_tile g g' r c t' :
  sameFaces g g' → tileAt g' r c = Some t' →
  ∃ t, tileAt g r c = Some t ∧ face t = face t'.
Proof.
  intros Hf Ht'. specialize (Hf r c). rewrite Ht' in Hf. simpl in Hf.
  destruct (tileAt g r c) as [t|]; [|discriminate].
  exists t. split; [reflexivity|]. simpl in Hf. congruence.
Qed.

Lemma sameFaces_sym g g' : sameFaces g g' → sameFaces g' g.
Proof. intros H r c. by rewrite H. Qed.

Lemma sameFaces_lettered g g' : sameFaces g g' → letteredGrid g → letteredGrid g'.
Proof.
  unfold letteredGrid. rewrite !tileAt_Forall. intros Hf Hl r c t' Ht'.
  destruct (sameFaces_tile g g' r c t' Hf Ht') as (t & Ht & Hface).
  specialize (Hl r c t Ht). unfold lettered, face in *.
  injection Hface as Hletter Hblocked. by rewrite <- Hletter, <- Hblocked.
Qed.

Lemma sameFaces_selectable g g' p : sameFaces g g' → selectable g p → selectable g' p.
Proof.
  intros Hf (t & Ht & Hb & Hl).
  destruct (sameFaces_tile g' g _ _ t (sameFaces_sym _ _ Hf) Ht) as (t' & Ht' & Hface).
  exists t'. unfold face in Hface. injection Hface as Hletter Hblocked.
  split; [exact Ht'|]. by rewrite Hletter, Hblocked.
Qed.

Lemma sameFaces_map (f : TileData → TileData) g :
  (∀ t, face (f t) = face t) → sameFaces g (map (map f) g).
Proof.
  intros Hf r c. rewrite tileAt_map. destruct (tileAt g r c); simpl; [|reflexivity].
  by rewrite Hf.
Qed.

Lemma markAll_faces s coords g g' : markAll s coords g = Some g' → sameFaces g g'.
Proof.
  revert g'. induction coords as [|q coords IH] using rev_ind; intros g' Hm.
  - injection Hm as <-. apply sameFaces_refl.
  - rewrite markAll_snoc in Hm.
    destruct (markAll s coords g) as [g1|]; simpl in Hm; [|discriminate].
    eapply sameFaces_trans; [by apply IH|].
    intros r c. rewrite (tileAt_alterTile _ _ _ _ _ r c Hm).
    destruct (decide _) as [[-> ->]|]; [|reflexivity].
    by destruct (tileAt g1 (Coord.r q) (Coord.c q)).
Qed.

Lemma alterTile_nil (f : TileData → TileData) r c : alterTile f [] r c = None.
Proof. unfold alterTile. by destruct (_ && _). Qed.

Lemma markAll_shape s coords g g' :
  markAll s coords g = Some g' →
  (g = [] ∨ squareGrid g) → (g' = [] ∨ squareGrid g').
Proof.
  revert g'. induction coords as [|q coords IH] using rev_ind; intros g' Hm Hg.
  - by injection Hm as <-.
  - rewrite markAll_snoc in Hm.
    destruct (markAll s coords g) as [g1|]; simpl in Hm; [|discriminate].
    destruct (IH g1 eq_refl Hg) as [->|Hsq].
    + by rewrite alterTile_nil in Hm.
    + right. by eapply alterTile_square.
Qed.

Lemma markAll_noneRemoved s coords g g' :
  s ≠ MATCHED → s ≠ EXPLODED →
  markAll s coords g = Some g' → noneRemoved g → noneRemoved g'.
Proof.
  intros Hm He. unfold noneRemoved. rewrite !tileAt_Forall.
  revert g'. induction coords as [|q coords IH] using rev_ind; intros g' Hmark Hnone.
  - by injection Hmark as <-.
  - rewrite markAll_snoc in Hmark.
    destruct (markAll s coords g) as [g1|]; simpl in Hmark; [|discriminate].
    intros r c t. rewrite (tileAt_alterTile _ _ _ _ _ r c Hmark).
    destruct (decide _) as [[-> ->]|]; [|by apply (IH g1)].
    destruct (tileAt g1 (Coord.r q) (Coord.c q)) as [t1|]; simpl; [|discriminate].
    intros [= <-]. unfold Tile.removed. simpl.
    rewrite !bool_decide_eq_false_2; done.
Qed.

Lemma shape_map (f : TileData → TileData) g :
  (g = [] ∨ squareGrid g) → (map (map f) g = [] ∨ squareGrid (map (map f) g)).
Proof. intros [->|Hsq]; [by left | right; by apply squareGrid_map]. Qed.

Lemma noneRemoved_map (f : TileData → TileData) g :
  (∀ t, Tile.removed t = false → Tile.removed (f t) = false) →
  noneRemoved g → noneRemoved (map (map f) g).
Proof.
  intros Hf. unfold noneRemoved. rewrite !tileAt_Forall. intros Hnone r c t.
  rewrite tileAt_map. destruct (tileAt g r c) as [t0|] eqn:Ht0; simpl; [|discriminate].
  intros [= <-]. by eapply Hf, Hnone.
Qed.

Lemma selectionStatus_live (tr : Trie.t) (word : string) :
  selectionStatus tr word ≠ MATCHED ∧ selectionStatus tr word ≠ EXPLODED.
Proof.
  unfold selectionStatus.
  destruct (_ <? _)%nat; [|done]. cbv zeta.
  destruct (_ && _); [done|]. by destruct (negb _).
Qed.

(** What [updateTileStatus] keeps. *)
Lemma updateTileStatus_keeps coords s g g' :
  s ≠ MATCHED → s ≠ EXPLODED →
  updateTileStatus coords s g = Some g' →
  sameFaces g g'
  ∧ ((g = [] ∨ squareGrid g) → (g' = [] ∨ squareGrid g'))
  ∧ (noneRemoved g → noneRemoved g').
Proof.
  intros Hm He Hup. unfold updateTileStatus in Hup. split_and!.
  - eapply sameFaces_trans; [|by eapply markAll_faces]. by apply sameFaces_map.
  - intros Hg. eapply markAll_shape; [exact Hup|]. by apply shape_map.
  - intros Hnone. eapply markAll_noneRemoved; [exact Hm | exact He | exact Hup |].
    apply noneRemoved_map; [|exact Hnone]. intros t Ht. by rewrite Ht.
Qed.

Lemma evaluateSelection_inv sel e e' :
  evaluateSelection sel e = Some e' →
  e' = e
  ∨ ∃ tr word g', updateTileStatus sel (selectionStatus tr word) (grid e) = Some g'
                  ∧ e' = setGrid g' (setSelection sel e).
Proof.
  unfold evaluateSelection. destruct (trie e) as [tr|]; [|intros [= <-]; by left].
  destruct (wordOf (grid e) sel) as [word|]; simpl; [|discriminate].
  destruct (updateTileStatus _ _ _) as [g'|] eqn:Hup; simpl; [|discriminate].
  intros [= <-]. right. eauto.
Qed.

(** A change of the grid that keeps letters, blocks and shape, with a
    selection of selectable tiles, keeps the engine steady as long as the
    gate and the scheduled callbacks stay. *)
Lemma steady_update e e' ts :
  Steady (MkRuntime e ts) →
  sameFaces (grid e) (grid e') →
  ((grid e = [] ∨ squareGrid (grid e)) → (grid e' = [] ∨ squareGrid (grid e'))) →
  (noneRemoved (grid e) → noneRemoved (grid e')) →
  Forall (selectable (grid e)) (selection e') →
  animating e' = animating e → rng e' = rng e →
  Steady (MkRuntime e' ts).
Proof.
  intros (Hshape & Hlet & Hunit & Hsel & Hgate) Hf Hsh Hnone Hsel' Ha Hr.
  unfold Steady in *. simpl in *. split_and!.
  - by apply Hsh.
  - by eapply sameFaces_lettered.
  - by rewrite Hr.
  - eapply Forall_impl; [exact Hsel'|]. intros p. by apply sameFaces_selectable.
  - rewrite Ha. destruct Hgate as [(? & ? & ?)|[?|(? & ? & ?)]].
    + left. split_and!; [done | done | by apply Hnone].
    + right; left. done.
    + right; right. split_and!; [done | done | by apply Hnone].
Qed.

Lemma steady_evaluateSelection sel e e' ts :
  Steady (MkRuntime e ts) →
  Forall (selectable (grid e)) sel →
  evaluateSelection sel e = Some e' →
  Steady (MkRuntime e' ts).
Proof.
  intros Hsteady Hsel [->|(tr & word & g' & Hup & ->)]%evaluateSelection_inv;
    [exact Hsteady|].
  destruct (selectionStatus_live tr word) as [Hm He].
  destruct (updateTileStatus_keeps _ _ _ _ Hm He Hup) as (Hf & Hsh & Hnone).
  by apply (steady_update e).
Qed.

Lemma unblocked_selectable g p : letteredGrid g → unblockedAt g p → selectable g p.
Proof.
  intros Hlet (t & Ht & Hb). exists t. split_and!; [done | done |].
  unfold letteredGrid in Hlet. rewrite tileAt_Forall in Hlet. by apply (Hlet _ _ t Ht).
Qed.

Lemma steady_handleTouchStart r c e e' ts :
  Steady (MkRuntime e ts) → handleTouchStart r c e = Some e' → Steady (MkRuntime e' ts).
Proof.
  intros Hsteady. unfold handleTouchStart.
  destruct (_ || _); [by intros [= <-]|].
  destruct (tileAt (grid e) r c) as [tile|] eqn:Ht; simpl; [|discriminate].
  destruct (Tile.isBlocked tile) eqn:Hb; [by intros [= <-]|].
  apply steady_evaluateSelection; [exact Hsteady|].
  apply Forall_singleton, unblocked_selectable; [apply Hsteady|]. by exists tile.
Qed.

Lemma steady_moveOnto target e e' ts :
  Steady (MkRuntime e ts) → moveOnto target e = Some e' → Steady (MkRuntime e' ts).
Proof.
  intros Hsteady. unfold moveOnto. destruct target as [p|]; [|by intros [= <-]].
  destruct (tileAt (grid e) (Coord.r p) (Coord.c p)) as [tile|] eqn:Ht; simpl;
    [|discriminate].
  destruct (Tile.isBlocked tile) eqn:Hb; [by intros [= <-]|].
  destruct (last (selection e)) as [lastSel|]; simpl; [|discriminate].
  assert (Forall (selectable (grid e)) (selection e)) as Hsel by apply Hsteady.
  match goal with |- (if ?b then _ else _) = _ → _ => destruct b end.
  - apply steady_evaluateSelection; [exact Hsteady|]. by apply Forall_take.
  - destruct (_ && _); [|by intros [= <-]].
    apply steady_evaluateSelection; [exact Hsteady|].
    apply Forall_app. split; [exact Hsel|].
    apply Forall_singleton, unblocked_selectable; [apply Hsteady|]. by exists tile.
Qed.

End RuntimeFacts.

Section DeadlockFacts.

Implicit Types (grid : Grid) (trie : Trie.t) (q : list Coordinate).

Lemma findFirstWord_fuelled grid trie (fuel : nat) :
  (length grid * length (hd [] grid) ≤ fuel)%nat →
  findFirstWord fuel grid trie ≠ OutOfFuel.
Proof.
  intros Hfuel. destruct grid as [|row0 rest]; [discriminate|].
  unfold findFirstWord. simpl hd in Hfuel.
  apply firstResult_fuelled. intros r Hr%elem_of_seqZ.
  apply firstResult_fuelled. intros c Hc%elem_of_seqZ.
  apply search_fuelled.
  - apply NoDup_singleton.
  - apply Forall_singleton. unfold inBounds. cbn [Coord.r Coord.c].
    rewrite !andb_true_iff, !Z.leb_le, !Z.ltb_lt. lia.
  - rewrite !Nat2Z.id. cbn [length] in *. lia.
Qed.

Lemma findFirstWord_fuel_le grid trie (fuel fuel' : nat) :
  (fuel ≤ fuel')%nat →
  findFirstWord fuel grid trie ≠ OutOfFuel →
  findFirstWord fuel' grid trie = findFirstWord fuel grid trie.
Proof.
  intros Hle. destruct grid as [|row0 rest]; [reflexivity|].
  unfold findFirstWord. apply firstResult_agree. intros r _.
  apply firstResult_agree. intros c _. by apply search_fuel_le.
Qed.

Lemma findFirstWord_found grid trie (fuel : nat) q :
  findFirstWord fuel grid trie = Return (Some q) →
  ∃ r c, search fuel grid trie (Z.of_nat (length grid))
                (Z.of_nat (length (hd [] grid))) r c [] EmptyString
         = Return (Some q).
Proof.
  destruct grid as [|row0 rest]; [discriminate|]. unfold findFirstWord.
  intros (r & _ & (c & _ & Hq)%firstResult_found)%firstResult_found. eauto.
Qed.

Lemma findFirstWord_unblocked grid trie (fuel : nat) q :
  findFirstWord fuel grid trie = Return (Some q) → Forall (unblockedAt grid) q.
Proof.
  intros (r & c & Hq)%findFirstWord_found.
  by apply search_returns_unblocked in Hq as (tail & -> & Htail).
Qed.


End DeadlockFacts.

Section RuntimeSteps.

Implicit Types (g : Grid) (e : Engine) (t : TileData) (s : Runtime).

Lemma foldl_None {A B} (f : option A → B → option A) (l : list B) :
  (∀ b, f None b = None) → foldl f None l = None.
Proof. intros Hf. induction l as [|b l IH]; simpl; [done|]. by rewrite Hf. Qed.

Lemma writeColumn_Forall (P : TileData → Prop) (c : nat) col g g' :
  writeColumn c col g = Some g' → Forall P col → Forall (Forall P) g →
  Forall (Forall P) g'.
Proof.
  intros Hw Hcol. unfold writeColumn in Hw. revert g Hw.
  generalize (seq 0 GRID_SIZE) as rs.
  induction rs as [|r rs IH]; intros g Hw Hg; simpl in Hw; [by injection Hw as <-|].
  destruct (g !! r) as [row|] eqn:Hrow; simpl in Hw; [|by rewrite foldl_None in Hw].
  destruct (col !! r) as [tile|] eqn:Htile; simpl in Hw; [|by rewrite foldl_None in Hw].
  apply (IH _ Hw). apply Forall_insert; [exact Hg|].
  apply Forall_insert.
  - rewrite Forall_forall in Hg. apply Hg, list_elem_of_lookup. eauto.
  - rewrite Forall_forall in Hcol. apply Hcol, list_elem_of_lookup. eauto.
Qed.

Lemma column_Forall (P : TileData → Prop) g (c : nat) col :
  column g c = Some col → Forall (Forall P) g → Forall P col.
Proof.
  intros Hcol Hg. rewrite tileAt_Forall in Hg.
  unfold column in Hcol. apply mapM_Some in Hcol.
  induction Hcol as [|r t rs col Ht _ IH]; constructor; [|exact IH].
  by apply (Hg _ _ t Ht).
Qed.

Lemma colTiles_lettered col : Forall lettered col → Forall lettered (colTiles col).
Proof.
  intros Hall. unfold colTiles. apply Forall_fmap, Forall_forall.
  intros t Ht%list_elem_of_In%filter_In. destruct Ht as [Ht _].
  rewrite Forall_forall in Hall. apply (Hall t). by apply list_elem_of_In.
Qed.

Lemma gravityColumn_lettered prev lvl m ng queue rng (c : nat) ng' queue' rng' :
  unitDraws rng → letteredGrid prev → letteredGrid ng →
  gravityColumn prev lvl m (Some (ng, queue, rng)) c = Some (ng', queue', rng') →
  letteredGrid ng' ∧ unitDraws rng'.
Proof.
  intros Hunit Hprev Hng. unfold gravityColumn. simpl.
  destruct (column prev c) as [old|] eqn:Hold; simpl; [|discriminate].
  pose proof (spawnTiles_lettered (GRID_SIZE - length (colTiles old)) lvl m queue rng Hunit)
    as [Hnew Hd].
  destruct (spawnTiles _ lvl m queue rng) as [[newTiles q1] rng1]. simpl in Hnew, Hd.
  destruct (writeColumn c (newTiles ++ colTiles old) ng) as [ng1|] eqn:Hw; simpl;
    [|discriminate].
  intros [= <- <- <-]. split; [|by eapply unitDraws_same].
  eapply writeColumn_Forall; [exact Hw | | exact Hng].
  apply Forall_app. split; [exact Hnew|].
  apply colTiles_lettered. by eapply column_Forall.
Qed.

Lemma applyGravity_lettered e e' :
  unitDraws (rng e) → letteredGrid (grid e) → applyGravity e = Some e' →
  letteredGrid (grid e') ∧ unitDraws (rng e').
Proof.
  intros Hunit Hlet. unfold applyGravity.
  assert (∀ cols ng queue rng,
            unitDraws rng → letteredGrid ng →
            ∀ ng' queue' rng',
              foldl (gravityColumn (grid e) (level (gameState e)) (mode e))
                    (Some (ng, queue, rng)) cols = Some (ng', queue', rng') →
              letteredGrid ng' ∧ unitDraws rng') as Hfold.
  { induction cols as [|c cols IH]; intros ng queue rng Hu Hl ng' queue' rng' Hf.
    - by injection Hf as <- <- <-.
    - change (foldl (gravityColumn (grid e) (level (gameState e)) (mode e))
                (gravityColumn (grid e) (level (gameState e)) (mode e)
                   (Some (ng, queue, rng)) c) cols = Some (ng', queue', rng')) in Hf.
      destruct (gravityColumn (grid e) (level (gameState e)) (mode e)
                  (Some (ng, queue, rng)) c) as [[[ng1 q1] rng1]|] eqn:Hstep.
      + destruct (gravityColumn_lettered _ _ _ _ _ _ _ _ _ _ Hu Hlet Hl Hstep)
          as [Hl1 Hu1].
        exact (IH ng1 q1 rng1 Hu1 Hl1 ng' queue' rng' Hf).
      + by rewrite foldl_None in Hf. }
  destruct (foldl _ _ _) as [[[ng q] rng']|] eqn:Hf; simpl; [|discriminate].
  intros [= <-]. simpl. by eapply Hfold.
Qed.

Lemma single_timer (ts1 ts2 : list Timer) (t t' : Timer) :
  ts1 ++ t :: ts2 = [t'] → ts1 = [] ∧ ts2 = [] ∧ t = t'.
Proof.
  destruct ts1 as [|x ts1]; simpl; intros H; injection H as -> H.
  - by subst.
  - by destruct ts1.
Qed.

Lemma applyGravity_nil e : grid e = [] → applyGravity e = None.
Proof. intros Hg. unfold applyGravity. by rewrite Hg. Qed.

Lemma steady_settle e e' ts1 ts2 :
  Steady (MkRuntime e (ts1 ++ SettleTimer :: ts2)) → settle e = Some e' →
  Steady (MkRuntime e' (ts1 ++ ts2)).
Proof.
  intros (Hshape & Hlet & Hunit & Hsel & Hgate). simpl in *.
  unfold settle. destruct (applyGravity e) as [e1|] eqn:He1; simpl; [|discriminate].
  assert (squareGrid (grid e)) as Hsq.
  { destruct Hshape as [Hnil|?]; [|done]. by rewrite (applyGravity_nil e Hnil) in He1. }
  destruct (applyGravity_settled e e1 Hsq He1) as (Hsq1 & Hnone1 & Ha1 & Hsel1).
  destruct (applyGravity_lettered e e1 Hunit Hlet He1) as [Hlet1 Hunit1].
  assert (ts1 ++ ts2 = []) as ->.
  { destruct Hgate as [(_ & Hts & _)|[(_ & Hts)|(_ & Hts & _)]].
    - by destruct ts1.
    - by apply single_timer in Hts as (-> & -> & _).
    - by apply single_timer in Hts as (_ & _ & ?). }
  assert (Steady (MkRuntime e1 [])) as Hsteady1.
  { unfold Steady. simpl. rewrite Hsel1. split_and!; eauto. }
  destruct (_ <=? _); intros [= <-]; [|exact Hsteady1].
  by apply (steady_update e1); try apply sameFaces_refl; try apply Hsteady1.
Qed.

Lemma steady_invalidReset e ts1 ts2 :
  Steady (MkRuntime e (ts1 ++ ResetTimer :: ts2)) →
  Steady (MkRuntime (invalidReset e) (ts1 ++ ts2)).
Proof.
  intros (Hshape & Hlet & Hunit & Hsel & Hgate). simpl in *.
  assert (ts1 ++ ts2 = [] ∧ noneRemoved (grid e)) as [-> Hnone].
  { destruct Hgate as [(_ & Hts & _)|[(_ & Hts)|(_ & Hts & Hnone)]].
    - by destruct ts1.
    - by apply single_timer in Hts as (_ & _ & ?).
    - by apply single_timer in Hts as (-> & -> & _). }
  unfold Steady, invalidReset. simpl. split_and!.
  - by apply shape_map.
  - eapply sameFaces_lettered; [|exact Hlet]. by apply sameFaces_map.
  - exact Hunit.
  - constructor.
  - left. split_and!; [done | done |].
    apply noneRemoved_map; [|exact Hnone]. intros t Ht.
    unfold Tile.removed in *. simpl.
    apply orb_false_iff in Ht as [_ Hex]. apply bool_decide_eq_false in Hex.
    by rewrite (bool_decide_eq_false_2 _ Hex).
Qed.

Lemma steady_handleValidWord word e e' :
  Steady (MkRuntime e []) → animating e = false →
  handleValidWord word e = Some e' →
  Steady (MkRuntime e' [SettleTimer]).
Proof.
  intros (Hshape & Hlet & Hunit & Hsel & _) _ Hv. simpl in *.
  destruct (handleValidWord_inv word e e' Hv)
    as (ex & ts & g & _ & _ & Hg & Hgrid & Ha & _ & _ & _ & _ & Hsel' & Hrng).
  destruct (markAll MATCHED (selection e) (grid e)) as [g1|] eqn:Hg1; simpl in Hg;
    [|discriminate].
  assert (sameFaces (grid e) g) as Hf.
  { eapply sameFaces_trans; by eapply markAll_faces. }
  unfold Steady. simpl. rewrite Hgrid, Hsel', Hrng. split_and!.
  - eapply markAll_shape; [exact Hg|]. by eapply markAll_shape.
  - by eapply sameFaces_lettered.
  - exact Hunit.
  - eapply Forall_impl; [exact Hsel|]. intros p. by apply sameFaces_selectable.
  - right; left. by split.
Qed.

Lemma steady_handleInvalidWord e e' :
  Steady (MkRuntime e []) → animating e = false →
  handleInvalidWord e = Some e' →
  Steady (MkRuntime e' [ResetTimer]).
Proof.
  intros (Hshape & Hlet & Hunit & Hsel & Hgate) Ha. simpl in *.
  assert (noneRemoved (grid e)) as Hnone.
  { destruct Hgate as [(_ & _ & ?)|[(Ha' & _)|(Ha' & _)]]; [done|congruence..]. }
  unfold handleInvalidWord.
  destruct (markAll INVALID (selection e) (grid e)) as [g|] eqn:Hg; simpl; [|discriminate].
  intros [= <-]. unfold Steady. simpl. split_and!.
  - by eapply markAll_shape.
  - eapply sameFaces_lettered; [|exact Hlet]. by eapply markAll_faces.
  - exact Hunit.
  - eapply Forall_impl; [exact Hsel|]. intros p.
    apply sameFaces_selectable. by eapply markAll_faces.
  - right; right. split_and!; [done | done |].
    by eapply (markAll_noneRemoved INVALID).
Qed.

Lemma steady_handleTouchEnd e e' ts :
  Steady (MkRuntime e ts) → handleTouchEnd e = Some e' →
  Steady (MkRuntime e' (ts ++ scheduledByTouchEnd e)).
Proof.
  intros Hsteady. unfold handleTouchEnd, scheduledByTouchEnd.
  destruct (animating e) eqn:Ha; simpl; [intros [= <-]; by rewrite app_nil_r|].
  assert (ts = []) as ->.
  { destruct Hsteady as (_ & _ & _ & _ & [(_ & ? & _)|[(Ha' & _)|(Ha' & _)]]); simpl in *;
      [done|congruence..]. }
  destruct (_ || _); [intros [= <-]; exact Hsteady|].
  destruct (wordOf (grid e) (selection e)) as [word|]; simpl; [|discriminate].
  destruct (_ && _); simpl.
  - by apply steady_handleValidWord.
  - by apply steady_handleInvalidWord.
Qed.

Lemma steady_handleTouchMove ev e e' ts :
  Steady (MkRuntime e ts) → handleTouchMove ev e = Some e' →
  Steady (MkRuntime e' (ts ++ scheduledByTouchMove ev e)).
Proof.
  intros Hsteady. unfold handleTouchMove, scheduledByTouchMove.
  destruct (_ || _); [intros [= <-]; by rewrite app_nil_r|].
  destruct ev as [target|buttons target].
  - rewrite app_nil_r. by apply steady_moveOnto.
  - destruct (Z.land buttons 1 =? 0).
    + by apply steady_handleTouchEnd.
    + rewrite app_nil_r. by apply steady_moveOnto.
Qed.

Lemma steady_showHint (fuel : nat) e e' ts :
  Steady (MkRuntime e ts) → showHint fuel e = Return e' → Steady (MkRuntime e' ts).
Proof.
  intros Hsteady. unfold showHint.
  destruct (trie e) as [tr|]; [|by intros [= <-]].
  destruct (animating e); [by intros [= <-]|].
  destruct (findFirstWord fuel (grid e) tr) as [| |[move|]] eqn:Hfind;
    [discriminate | discriminate | | by intros [= <-]].
  destruct (markAll SELECTED move (grid e)) as [g|] eqn:Hg; [|discriminate].
  intros [= <-]. apply (steady_update e); simpl; try done.
  - by eapply markAll_faces.
  - by eapply markAll_shape.
  - by eapply (markAll_noneRemoved SELECTED).
  - apply findFirstWord_unblocked in Hfind.
    eapply Forall_impl; [exact Hfind|]. intros p.
    apply unblocked_selectable, Hsteady.
Qed.

Lemma steady_startGame m e ts :
  Steady (MkRuntime e ts) → Steady (MkRuntime (startGame m e) ts).
Proof.
  intros (Hshape & Hlet & Hunit & Hsel & Hgate). simpl in *.
  unfold startGame.
  pose proof (createInitialGrid_spec 1 m (rng e) Hunit) as (Hsq & Hl & Hnone & Hd).
  destruct (createInitialGrid 1 m (rng e)) as [g rng']. simpl in *.
  unfold Steady. simpl. split_and!; [by right | done | by eapply unitDraws_same | done |].
  destruct Hgate as [(? & ? & _)|[?|(? & ? & _)]].
  - left. by split_and!.
  - right; left. done.
  - right; right. by split_and!.
Qed.

(** Every reachable state is steady. *)
Lemma reachable_steady s : Reachable s → Steady s.
Proof.
  induction 1 as [e Hg Hsel Ha Hunit|s s' _ IH Hstep].
  - unfold Steady. simpl. rewrite Hg, Hsel. split_and!; eauto.
    + constructor.
    + left. split_and!; [done | done | constructor].
  - destruct Hstep.
    + by apply steady_startGame.
    + by apply (steady_update e); try apply sameFaces_refl; try apply IH.
    + by eapply steady_handleTouchStart.
    + by apply steady_handleTouchMove.
    + by apply steady_handleTouchEnd.
    + by eapply steady_showHint.
    + by apply (steady_settle e).
    + by apply steady_invalidReset.
    + destruct IH as (Hshape & Hlet & Hunit & Hsel & Hgate). simpl in *.
      unfold Steady. simpl.
      match goal with
      | Hg : grid _ = grid _, Hs : selection _ = selection _,
        Ha : animating _ = animating _, Hr : rng _ = rng _ |- _ =>
          rewrite Hg, Hs, Ha, Hr
      end. done.
Qed.

End RuntimeSteps.

Section DeadlockTheorems.

Implicit Types (grid : Grid) (trie : Trie.t) (q : list Coordinate).

(** C7: a branch whose string has reached eight characters is not
    extended; the search returns on every grid, with the same result
    for every depth bound from the number of cells on; and on a grid
    whose selectable tiles carry one letter each a returned path has at
    most eight coordinates. *)
Theorem findFirstWord_bounded grid trie :
  (∀ (fuel : nat) rows cols r c path cur tile,
      tileAt grid r c = Some tile →
      (8 ≤ String.length (String.append cur (Tile.letter tile)))%nat →
      search (S fuel) grid trie rows cols r c path cur
      = search 1 grid trie rows cols r c path cur
      ∧ search 1 grid trie rows cols r c path cur ≠ OutOfFuel)
  ∧ (∃ fuel0 : nat, ∀ fuel : nat, (fuel0 ≤ fuel)%nat →
       findFirstWord fuel grid trie ≠ OutOfFuel
       ∧ findFirstWord fuel grid trie = findFirstWord fuel0 grid trie)
  ∧ (letteredGrid grid → ∀ (fuel : nat) q,
       findFirstWord fuel grid trie = Return (Some q) → (length q ≤ 8)%nat).
Proof.
  split; [|split].
  - intros fuel rows cols r c path cur tile Ht Hlen. by eapply search_cap.
  - exists (length grid * length (hd [] grid))%nat. intros fuel Hfuel.
    split; [by apply findFirstWord_fuelled|].
    apply findFirstWord_fuel_le; [exact Hfuel|]. by apply findFirstWord_fuelled.
  - intros Hlet fuel q (r & c & Hq)%findFirstWord_found.
    eapply search_returns_short; [exact Hlet | | | exact Hq]; simpl; [done | lia].
Qed.

Lemma squareGrid_grid0 : squareGrid Demo.grid0.
Proof. split; [reflexivity|]. repeat constructor. Qed.

Lemma letteredGrid_grid0 : letteredGrid Demo.grid0.
Proof. repeat (constructor; try (intros _; reflexivity)). Qed.

Lemma findFirstWord_bounded_witness :
  findFirstWord 36 Demo.grid0 (Trie.ofWords Demo.words) = Return (Some Demo.path0)
  ∧ (length Demo.path0 ≤ 8)%nat.
Proof.
  assert (findFirstWord 36 Demo.grid0 (Trie.ofWords Demo.words)
          = Return (Some Demo.path0)) as Hrun by (vm_compute; reflexivity).
  split; [exact Hrun|].
  exact (proj2 (proj2 (findFirstWord_bounded Demo.grid0 (Trie.ofWords Demo.words)))
           letteredGrid_grid0 36%nat Demo.path0 Hrun).
Defined.

(** How the exclusion works: the deadlock search and the selection
    handlers leave out blocked tiles, and they do not read the status.
    Tiles pending removal are kept away by the gate: while [animating] is
    set the handlers and the hint change nothing and the deadlock check
    is not armed, a commit sets the gate, gravity opens it with no tile
    pending removal left, and so in every reachable state with the gate
    open no tile is MATCHED or EXPLODED. *)
Lemma gate_excludes_removed :
  (∀ grid trie (fuel : nat) rows cols r c path cur tile,
      tileAt grid r c = Some tile → Tile.isBlocked tile = true →
      search (S fuel) grid trie rows cols r c path cur = Return None)
  ∧ (∀ grid trie (fuel : nat) q,
       findFirstWord fuel grid trie = Return (Some q) → Forall (unblockedAt grid) q)
  ∧ (∀ e r c tile,
       tileAt (grid e) r c = Some tile → Tile.isBlocked tile = true →
       handleTouchStart r c e = Some e
       ∧ handleTouchMove (TouchMove (Some (Coord.Mk r c))) e = Some e
       ∧ moveOnto (Some (Coord.Mk r c)) e = Some e)
  ∧ (∀ e, animating e = true →
          (∀ r c, handleTouchStart r c e = Some e)
          ∧ (∀ ev, handleTouchMove ev e = Some e)
          ∧ handleTouchEnd e = Some e
          ∧ (∀ fuel : nat, showHint fuel e = Return e)
          ∧ deadlockCheckArmed e = false)
  ∧ (∀ word e e', handleValidWord word e = Some e' → animating e' = true)
  ∧ (∀ e e', squareGrid (grid e) → applyGravity e = Some e' →
             noneRemoved (grid e') ∧ animating e' = false)
  ∧ (∀ s, Reachable s → animating (engine s) = false → noneRemoved (grid (engine s))).
Proof.
  split_and!.
  - intros grid trie fuel rows cols r c path cur tile Ht Hb.
    by rewrite search_step, Ht, Hb.
  - intros grid trie fuel q. apply findFirstWord_unblocked.
  - intros e r c tile Ht Hb. split_and!.
    + by eapply handleTouchStart_blocked.
    + unfold handleTouchMove. destruct (_ || _); [done|].
      by eapply (moveOnto_blocked (Coord.Mk r c)).
    + by eapply (moveOnto_blocked (Coord.Mk r c)).
  - intros e Ha. split_and!.
    + intros r c. by apply handleTouchStart_gated.
    + intros ev. by apply handleTouchMove_gated.
    + by apply handleTouchEnd_gated.
    + intros fuel. unfold showHint. rewrite Ha. by destruct (trie e).
    + unfold deadlockCheckArmed. rewrite Ha. simpl. by rewrite andb_false_r.
  - intros word e e' (ex & ts & g & _ & _ & _ & _ & Ha & _)%handleValidWord_inv.
    exact Ha.
  - intros e e' Hsq He'.
    by destruct (applyGravity_settled e e' Hsq He') as (_ & ? & ? & _).
  - intros s (_ & _ & _ & _ & Hgate)%reachable_steady Ha.
    destruct Hgate as [(_ & _ & ?)|[(Ha' & _)|(Ha' & _)]]; [done|congruence..].
Qed.

Lemma squareGrid_matchedGrid : squareGrid Demo.matchedGrid.
Proof. split; [reflexivity|]. repeat constructor. Qed.

(** A state with the gate open has no scheduled callback and no tile
    pending removal, and its selected tiles are live. *)
Lemma steady_open e ts :
  Steady (MkRuntime e ts) → animating e = false →
  ts = [] ∧ noneRemoved (grid e) ∧ Forall (liveAt (grid e)) (selection e).
Proof.
  intros (_ & _ & _ & Hsel & Hgate) Ha. cbn [engine timers] in *.
  destruct Hgate as [(_ & Hts & Hnone)|[(Ha' & _)|(Ha' & _)]]; [|congruence..].
  split_and!; [done | done |].
  eapply Forall_impl; [exact Hsel|]. intros p (t & Ht & _).
  exists t. split; [exact Ht|].
  by apply (proj1 (noneRemoved_tileAt _) Hnone _ _ _ Ht).
Qed.

(** A state that holds a tile pending removal has the gate closed. *)
Lemma steady_removed e ts r c t :
  Steady (MkRuntime e ts) → tileAt (grid e) r c = Some t → Tile.removed t = true →
  animating e = true.
Proof.
  intros Hsteady Ht Hrem. destruct (animating e) eqn:Ha; [reflexivity|].
  destruct (steady_open e ts Hsteady Ha) as (_ & Hnone & _).
  rewrite (proj1 (noneRemoved_tileAt _) Hnone _ _ _ Ht) in Hrem. discriminate.
Qed.

(** C4: in every state that the engine can reach, tiles that are
    MATCHED or EXPLODED are out of the deadlock search and out of
    selection building. The search runs from the hint and from the
    deadlock check only; with the gate closed neither runs, and with the
    gate open the grid holds no such tile, so the search goes through none
    and returns none. A touch start or a move onto such a tile changes
    nothing, and whenever a touch start or a touch move changes the
    state, no tile of the selection it leaves is MATCHED or EXPLODED. *)
Theorem removed_tiles_excluded (s : Runtime) :
  Reachable s →
  let e := engine s in
  (animating e = true →
     (∀ fuel : nat, showHint fuel e = Return e) ∧ deadlockCheckArmed e = false)
  ∧ (animating e = false →
     (∀ r c t, tileAt (grid e) r c = Some t → Tile.removed t = false)
     ∧ ∀ (fuel : nat) tr q,
         findFirstWord fuel (grid e) tr = Return (Some q) → Forall (liveAt (grid e)) q)
  ∧ (∀ r c t, tileAt (grid e) r c = Some t → Tile.removed t = true →
       handleTouchStart r c e = Some e
       ∧ ∀ ev, handleTouchMove ev e = Some e)
  ∧ (∀ r c e', handleTouchStart r c e = Some e' →
       e' = e ∨ Forall (liveAt (grid e')) (selection e'))
  ∧ (∀ target e', handleTouchMove (TouchMove target) e = Some e' →
       e' = e ∨ Forall (liveAt (grid e')) (selection e')).
Proof.
  intros Hreach. pose proof (reachable_steady s Hreach) as Hsteady.
  destruct s as [e ts]. cbn [engine]. split_and!.
  - intros Ha. split.
    + intros fuel. unfold showHint. rewrite Ha. by destruct (trie e).
    + unfold deadlockCheckArmed. rewrite Ha. simpl. by rewrite andb_false_r.
  - intros Ha. destruct (steady_open e ts Hsteady Ha) as (_ & Hnone & _).
    split; [by apply noneRemoved_tileAt|].
    intros fuel tr q Hq%findFirstWord_unblocked.
    eapply Forall_impl; [exact Hq|]. intros p (t & Ht & _).
    exists t. split; [exact Ht|].
    by apply (proj1 (noneRemoved_tileAt _) Hnone _ _ _ Ht).
  - intros r c t Ht Hrem.
    pose proof (steady_removed e ts r c t Hsteady Ht Hrem) as Ha.
    split; [by apply handleTouchStart_gated|].
    intros ev. by apply handleTouchMove_gated.
  - intros r c e' He'. destruct (animating e) eqn:Ha.
    + left. rewrite handleTouchStart_gated in He' by done. by injection He' as <-.
    + right. destruct (steady_open e ts Hsteady Ha) as (-> & _ & _).
      pose proof (steady_handleTouchStart r c e e' [] Hsteady He') as Hsteady'.
      assert (animating e' = false) as Ha'.
      { destruct Hsteady' as (_ & _ & _ & _ & [(? & _)|[(_ & ?)|(_ & ? & _)]]);
          [done | discriminate | discriminate]. }
      by destruct (steady_open e' [] Hsteady' Ha') as (_ & _ & ?).
  - intros target e' He'. destruct (animating e) eqn:Ha.
    + left. rewrite handleTouchMove_gated in He' by done. by injection He' as <-.
    + right. destruct (steady_open e ts Hsteady Ha) as (-> & _ & _).
      pose proof (steady_handleTouchMove (TouchMove target) e e' [] Hsteady He')
        as Hsteady'.
      assert (scheduledByTouchMove (TouchMove target) e = []) as Hnone
        by (unfold scheduledByTouchMove; by destruct (_ || _)).
      rewrite Hnone in Hsteady'. cbn [app] in Hsteady'.
      assert (animating e' = false) as Ha'.
      { destruct Hsteady' as (_ & _ & _ & _ & [(? & _)|[(_ & ?)|(_ & ? & _)]]);
          [done | discriminate | discriminate]. }
      by destruct (steady_open e' [] Hsteady' Ha') as (_ & _ & ?).
Qed.

Lemma played_steps :
  handleTouchStart 0 0 Played.started = Some Played.touched1
  ∧ handleTouchMove (TouchMove (Some (Coord.Mk 0 1))) Played.touched1
    = Some Played.touched2
  ∧ handleTouchMove (TouchMove (Some (Coord.Mk 0 2))) Played.touched2
    = Some Played.touched3
  ∧ handleTouchEnd Played.touched3 = Some Played.released
  ∧ scheduledByTouchEnd Played.touched3 = [SettleTimer].
Proof. split_and!; vm_compute; reflexivity. Qed.

Lemma reachable_touched2 : Reachable (MkRuntime Played.touched2 []).
Proof.
  destruct played_steps as (H1 & H2 & _).
  change (@nil Timer)
    with ([] ++ scheduledByTouchMove (TouchMove (Some (Coord.Mk 0 1))) Played.touched1).
  eapply ReachStep; [|exact (StepTouchMove _ _ _ _ H2)].
  eapply ReachStep; [|exact (StepTouchStart 0 0 _ _ _ H1)].
  eapply ReachStep;
    [|exact (StepStartGame CASUAL (initialEngine Played.words Demo.halves) [])].
  apply ReachInit; try reflexivity.
  intros i. vm_compute. split; [discriminate | reflexivity].
Qed.

Lemma reachable_released : Reachable (MkRuntime Played.released [SettleTimer]).
Proof.
  destruct played_steps as (_ & _ & H3 & H4 & Htimer).
  change [SettleTimer] with ([] ++ [SettleTimer]). rewrite <- Htimer.
  eapply ReachStep; [|exact (StepTouchEnd _ _ _ H4)].
  change (@nil Timer)
    with ([] ++ scheduledByTouchMove (TouchMove (Some (Coord.Mk 0 2))) Played.touched2).
  eapply ReachStep; [|exact (StepTouchMove _ _ _ _ H3)].
  apply reachable_touched2.
Qed.

(** After the release of R-R-R the three tiles are MATCHED and gravity
    is scheduled: a touch on one of them changes nothing and the
    deadlock check is not armed. *)
Lemma removed_tiles_excluded_witness :
  Reachable (MkRuntime Played.released [SettleTimer])
  ∧ ∃ t,
    animating Played.released = true
    ∧ tileAt (grid Played.released) 0 0 = Some t
    ∧ Tile.removed t = true
    ∧ handleTouchStart 0 0 Played.released = Some Played.released
    ∧ deadlockCheckArmed Played.released = false.
Proof.
  assert (animating Played.released = true
          ∧ ∃ t, tileAt (grid Played.released) 0 0 = Some t ∧ Tile.removed t = true)
    as (Ha & t & Ht & Hrem).
  { split; [by vm_compute|]. eexists. split; vm_compute; reflexivity. }
  pose proof (removed_tiles_excluded _ reachable_released) as H.
  cbv zeta in H. cbn [engine] in H.
  destruct H as (Hclosed & _ & Htouch & _).
  split; [exact reachable_released|].
  exists t. split_and!; [exact Ha | exact Ht | exact Hrem | | ].
  - by destruct (Htouch 0 0 t Ht Hrem).
  - by destruct (Hclosed Ha).
Defined.

(** The exclusion rests on the gate and not on a test of the status: on
    a grid with matched tiles and the gate open, a state that the engine
    does not reach, the search goes through the matched tiles and a touch
    starts a selection on one. *)
Lemma status_is_not_read :
  findFirstWord 36 Demo.matchedGrid (Trie.ofWords Demo.words)
  = Return (Some [Coord.Mk 0 0; Coord.Mk 0 1; Coord.Mk 0 2])
  ∧ Tile.status <$> tileAt Demo.matchedGrid 0 0 = Some MATCHED
  ∧ selection <$> handleTouchStart 0 0 Demo.matchedEngine = Some [Coord.Mk 0 0]
  ∧ ∀ ts, ¬ Reachable (MkRuntime Demo.matchedEngine ts).
Proof.
  split_and!; [by vm_compute | by vm_compute | by vm_compute |].
  intros ts Hreach%reachable_steady.
  pose proof (steady_removed Demo.matchedEngine ts 0 0
                (Tile.withStatus MATCHED (Demo.letterTile "PINK" "C"))
                Hreach eq_refl eq_refl) as Ha.
  discriminate Ha.
Qed.

End DeadlockTheorems.

(** ** Worked examples *)

Section Examples.

Lemma saveScore_top_ten_witness :
  (saveScore CASUAL (Demo.entry 250 3) Demo.store0).2 = true.
Proof.
  pose proof (saveScore_top_ten CASUAL (Demo.entry 250 3) Demo.store0) as H.
  cbv zeta in H. destruct H as (_ & _ & _ & H & _).
  apply H.
  - intros s Hs [Hd _]. vm_compute in Hs.
    repeat (apply elem_of_cons in Hs as [->|Hs]; [discriminate|]).
    by apply elem_of_nil in Hs.
  - vm_compute. lia.
Defined.

Lemma validSelection_engine0 : validSelection Demo.engine0.
Proof. split; [apply squareGrid_grid0|]. repeat constructor. Qed.

Lemma handleValidWord_score_witness :
  ∃ e', handleValidWord "CAT" Demo.engine0 = Some e'
        ∧ score (gameState e') = 160.
Proof.
  destruct (handleValidWord_score "CAT" Demo.engine0 validSelection_engine0)
    as (e' & tiles & exploded & m & He' & _ & _ & _ & _ & _).
  { vm_compute. lia. }
  exists e'. split; [exact He'|].
  vm_compute in He'. injection He' as <-. reflexivity.
Defined.

Lemma handleValidWord_streaks_witness :
  ∃ e', handleValidWord "CAT" Demo.engine0 = Some e'
        ∧ streakShort (gameState e') = 1
        ∧ specialSpawnQueue e' = [].
Proof.
  destruct (handleValidWord "CAT" Demo.engine0) as [e'|] eqn:He';
    [|vm_compute in He'; discriminate].
  exists e'. split; [reflexivity|].
  pose proof (handleValidWord_streaks "CAT" Demo.engine0 e' He') as H.
  cbv zeta in H. destruct H as (_ & H & _).
  destruct (H eq_refl) as (Hs & _ & Hq). split; [exact Hs | exact Hq].
Defined.

Lemma selectable_path0 : Forall (selectable Demo.grid0) Demo.path0.
Proof.
  repeat constructor; (eexists; split; [reflexivity|]; split; reflexivity).
Qed.

Lemma evaluateSelection_status_witness :
  ∃ e', evaluateSelection Demo.path0 Demo.engine0 = Some e'
        ∧ Tile.status <$> tileAt (grid e') 0 0 = Some VALID.
Proof.
  destruct (evaluateSelection_status Demo.path0 Demo.engine0 (Trie.ofWords Demo.words)
              eq_refl squareGrid_grid0 selectable_path0)
    as (e' & word & st & He' & _).
  { discriminate. }
  exists e'. split; [exact He'|].
  vm_compute in He'. injection He' as <-. reflexivity.
Defined.

Lemma applyGravity_columns_witness :
  ∃ e', applyGravity Demo.matchedEngine = Some e' ∧ squareGrid (grid e').
Proof.
  destruct (applyGravity_columns Demo.matchedEngine squareGrid_matchedGrid)
    as (e' & He' & Hsq & _).
  exists e'. by split.
Defined.

End Examples.

(** * Further properties of the engine *)

(** ** The trie as a set of words *)

Section TrieSets.

Import Trie.

Lemma searchAt_prefix_closed (p s : string) :
  ∀ n, searchAt (String.append p s) n ≠ 0%nat → searchAt p n ≠ 0%nat.
Proof.
  induction p as [|a p IH]; intros n; simpl.
  - intros _. destruct (isEndOfWord n); discriminate.
  - destruct (children n !! a) as [child|]; [apply IH | done].
Qed.

Lemma prefix_append (p s : string) : String.prefix p (String.append p s) = true.
Proof.
  induction p as [|a p IH]; simpl; [by destruct s|].
  destruct (ascii_dec a a); [exact IH | congruence].
Qed.

Lemma prefix_split (p w : string) :
  String.prefix p w = true → ∃ s, w = String.append p s.
Proof.
  revert w. induction p as [|a p IH]; intros w Hp; [by exists w|].
  destruct w as [|b w]; simpl in Hp; [discriminate|].
  destruct (ascii_dec a b) as [->|]; [|discriminate].
  destruct (IH w Hp) as [s ->]. by exists s.
Qed.

Lemma search_ofWords_exact_iff (ws : list string) (s : string) :
  search s (ofWords ws) = ExactWord ↔ s ∈ ws.
Proof.
  split; [|apply search_ofWords_exact].
  intros H2. destruct (decide (s ∈ ws)) as [|Hnot]; [done|].
  assert (search s new ≤ 1)%nat as Hnew by (rewrite search_new; destruct s; lia).
  pose proof (insertAll_not_exact s ws new Hnot Hnew) as Hle.
  unfold ofWords, ExactWord in H2. lia.
Qed.

(** X1: the lookup of a word list is decided by membership and prefixes, in
    both directions: it classifies every string. *)
Theorem trie_search_iff (ws : list string) (s : string) :
  (search s (ofWords ws) = ExactWord ↔ s ∈ ws)
  ∧ (search s (ofWords ws) = PrefixOnly ↔
       (s ∉ ws) ∧ (s = EmptyString ∨ ∃ w, w ∈ ws ∧ String.prefix s w = true))
  ∧ (search s (ofWords ws) = NoMatch ↔
       s ≠ EmptyString ∧ ∀ w, w ∈ ws → String.prefix s w = false).
Proof.
  pose proof (search_ofWords_exact_iff ws s) as Hexact.
  assert (search s (ofWords ws) = NoMatch ↔
            s ≠ EmptyString ∧ ∀ w, w ∈ ws → String.prefix s w = false) as Hnone.
  { split; [|intros [Hs Hno]; by apply search_ofWords_none].
    intros H0. split.
    - intros ->. pose proof (searchAt_empty_pos (root (ofWords ws))).
      unfold search, NoMatch in H0. lia.
    - intros w Hw. destruct (String.prefix s w) eqn:Hp; [|done].
      pose proof (insertAll_prefix s ws new w Hw Hp). unfold ofWords, NoMatch in H0. lia. }
  split; [exact Hexact|]. split; [|exact Hnone].
  pose proof (searchAt_le_2 s (root (ofWords ws))) as Hle. fold (search s (ofWords ws)) in Hle.
  split.
  - intros H1. split.
    + intros Hin%Hexact. unfold PrefixOnly, ExactWord in *. lia.
    + destruct s as [|a s]; [by left|]. right.
      destruct (decide (Exists (fun w => String.prefix (String a s) w = true) ws))
        as [Hex|Hnex].
      * apply Exists_exists in Hex as (w & Hw & Hp). eauto.
      * exfalso. assert (search (String a s) (ofWords ws) = NoMatch) as H0.
        { apply Hnone. split; [done|]. intros w Hw.
          destruct (String.prefix (String a s) w) eqn:Hp; [|done].
          exfalso. apply Hnex, Exists_exists. eauto. }
        unfold PrefixOnly, NoMatch in *. lia.
  - intros [Hnot Hpre].
    assert (search s (ofWords ws) ≠ ExactWord) as H2 by (by rewrite Hexact).
    assert (search s (ofWords ws) ≠ NoMatch) as H0.
    { rewrite Hnone. intros [Hs Hno]. destruct Hpre as [->|(w & Hw & Hp)]; [done|].
      rewrite (Hno w Hw) in Hp. discriminate. }
    unfold PrefixOnly, ExactWord, NoMatch in *. lia.
Qed.

(** X2: a string that the trie does not reject has no rejected prefix. *)
Theorem search_prefix_closed (tr : t) (p s : string) :
  search (String.append p s) tr ≠ NoMatch → search p tr ≠ NoMatch.
Proof. apply searchAt_prefix_closed. Qed.

Lemma search_prefix_closed_witness :
  search "CA" (ofWords Demo.words) ≠ NoMatch.
Proof.
  apply (search_prefix_closed (ofWords Demo.words) "CA" "T"). vm_compute. discriminate.
Defined.

Lemma insertAt_idem (w : string) : ∀ n, insertAt w (insertAt w n) = insertAt w n.
Proof.
  induction w as [|a w IH]; intros n; [reflexivity|].
  cbn [insertAt children isEndOfWord]. rewrite lookup_insert_eq. simpl default.
  by rewrite IH, insert_insert_eq.
Qed.

Lemma insertAt_comm (a : string) : ∀ b n, insertAt a (insertAt b n) = insertAt b (insertAt a n).
Proof.
  induction a as [|x a IH]; intros b n.
  - destruct b as [|y b]; reflexivity.
  - destruct b as [|y b]; [reflexivity|].
    cbn [insertAt children isEndOfWord].
    destruct (decide (x = y)) as [->|Hne].
    + rewrite !lookup_insert_eq. simpl default. by rewrite !insert_insert_eq, IH.
    + rewrite !lookup_insert_ne by done. by rewrite insert_insert_ne.
Qed.

Lemma insertAll_cons w ws tr : insertAll (w :: ws) tr = insertAll ws (insert w tr).
Proof. reflexivity. Qed.

Lemma insert_comm a b tr : insert a (insert b tr) = insert b (insert a tr).
Proof. unfold insert. simpl. by rewrite insertAt_comm. Qed.

Lemma insert_idem w tr : insert w (insert w tr) = insert w tr.
Proof. unfold insert. simpl. by rewrite insertAt_idem. Qed.

Lemma insertAll_insert w ws : ∀ tr, insertAll ws (insert w tr) = insert w (insertAll ws tr).
Proof.
  induction ws as [|x ws IH]; intros tr; [reflexivity|].
  by rewrite !insertAll_cons, insert_comm, IH.
Qed.

Lemma insertAll_absorb w ws tr : w ∈ ws → insertAll ws (insert w tr) = insertAll ws tr.
Proof.
  revert tr. induction ws as [|x ws IH]; intros tr Hin; [by apply elem_of_nil in Hin|].
  rewrite !insertAll_cons.
  apply elem_of_cons in Hin as [->|Hin]; [by rewrite insert_idem|].
  rewrite insert_comm. by apply IH.
Qed.

Lemma insertAll_perm ws ws' tr : ws ≡ₚ ws' → insertAll ws tr = insertAll ws' tr.
Proof.
  intros Hp. revert tr. induction Hp as [|x l l' _ IH|x y l|l1 l2 l3 _ IH1 _ IH2]; intros tr.
  - reflexivity.
  - rewrite !insertAll_cons. apply IH.
  - rewrite !insertAll_cons. by rewrite insert_comm.
  - by rewrite IH1.
Qed.

Lemma insertAll_remove_dups ws : ∀ tr, insertAll (remove_dups ws) tr = insertAll ws tr.
Proof.
  induction ws as [|x ws IH]; intros tr; [reflexivity|].
  simpl remove_dups. destruct (decide_rel elem_of x ws) as [Hin|Hnot].
  - rewrite IH, insertAll_cons. by rewrite insertAll_absorb.
  - by rewrite !insertAll_cons, IH.
Qed.

(** X3: inserting is idempotent and the order of insertion does not matter:
    two word lists with the same words build the same trie. *)
Theorem trie_of_word_set (ws ws' : list string) :
  (∀ w, w ∈ ws ↔ w ∈ ws') → ofWords ws = ofWords ws'.
Proof.
  intros Hsame. unfold ofWords.
  rewrite <- (insertAll_remove_dups ws), <- (insertAll_remove_dups ws').
  apply insertAll_perm, NoDup_Permutation; try apply NoDup_remove_dups.
  intros w. by rewrite !elem_of_remove_dups.
Qed.

Lemma trie_of_word_set_witness :
  ofWords ["CAT"; "DOG"; "CAT"] = ofWords ["DOG"; "CAT"].
Proof.
  apply trie_of_word_set. intros w. rewrite !elem_of_cons, !elem_of_nil. tauto.
Defined.

End TrieSets.

(** ** The dictionary and the trie of a loaded engine *)

Section LoaderFacts.

Lemma elem_of_loadWords lines w :
  w ∈ loadWords lines ↔
    w ∈ lines ∧ (MIN_WORD_LENGTH ≤ String.length w ≤ MAX_WORD_LENGTH)%nat.
Proof.
  unfold loadWords, keptByLoader. rewrite list_elem_of_filter, andb_true_iff, !Nat.leb_le.
  tauto.
Qed.

(** X4: after a successful load the engine is ready, holds exactly the lines
    of 3 to 10 characters, and its trie and its membership set agree: a
    path is shown VALID exactly when its release commits the word. *)
Theorem loadDictionary_agrees (lines : list string) (e : Engine) :
  let e' := loadDictionary lines e in
  isLoading e' = false
  ∧ (∀ w, w ∈ dictionary e' ↔
          w ∈ lines ∧ (MIN_WORD_LENGTH ≤ String.length w ≤ MAX_WORD_LENGTH)%nat)
  ∧ ∃ tr, trie e' = Some tr
          ∧ (∀ w, Trie.search w tr = ExactWord ↔ w ∈ dictionary e')
          ∧ (∀ w, selectionStatus tr w = VALID ↔
                  (MIN_WORD_LENGTH <=? String.length w)%nat
                  && bool_decide (w ∈ dictionary e') = true).
Proof.
  cbv zeta. unfold loadDictionary. cbn [isLoading dictionary trie]. split; [reflexivity|].
  assert (∀ w, w ∈ (list_to_set (loadWords lines) : gset string) ↔ w ∈ loadWords lines)
    as Hset by (intros w; apply elem_of_list_to_set).
  split; [intros w; by rewrite Hset, elem_of_loadWords|].
  eexists. split; [reflexivity|].
  assert (∀ w, Trie.search w (Trie.ofWords (loadWords lines)) = ExactWord
               ↔ w ∈ (list_to_set (loadWords lines) : gset string)) as Hagree.
  { intros w. rewrite Hset. apply (search_ofWords_exact_iff (loadWords lines) w). }
  split; [exact Hagree|].
  intros w. rewrite andb_true_iff, Nat.leb_le, bool_decide_eq_true, <- Hagree.
  unfold selectionStatus, ExactWord, MIN_WORD_LENGTH.
  destruct (Nat.ltb_spec 0 (String.length w)) as [Hpos|Hzero].
  - destruct (Nat.eqb_spec (Trie.search w (Trie.ofWords (loadWords lines))) 2) as [H2|H2];
      destruct (Nat.leb_spec 3 (String.length w)) as [Hl|Hl]; simpl;
      try (destruct (negb _)); split; intros; try done; try lia.
  - split; [done|]. lia.
Qed.

(** X5: without a trie (the load failed, or is not over) no touch changes
    anything: a touch that starts on a tile leaves the selection empty,
    and a move or a release with an empty selection is ignored; the hint
    and the deadlock check do nothing either. *)
Theorem no_trie_inert (e : Engine) :
  trie e = None → selection e = [] →
  (∀ r c tile, tileAt (grid e) r c = Some tile → handleTouchStart r c e = Some e)
  ∧ (∀ ev, handleTouchMove ev e = Some e)
  ∧ handleTouchEnd e = Some e
  ∧ (∀ fuel : nat, showHint fuel e = Return e)
  ∧ deadlockCheckArmed e = false.
Proof.
  intros Htrie Hsel. split_and!.
  - intros r c tile Ht. unfold handleTouchStart. destruct (_ || _); [done|].
    rewrite Ht. simpl. destruct (Tile.isBlocked tile); [done|].
    unfold evaluateSelection. by rewrite Htrie.
  - intros ev. unfold handleTouchMove. rewrite Hsel. simpl.
    by rewrite !orb_true_r.
  - unfold handleTouchEnd. rewrite Hsel. simpl. by rewrite !orb_true_r.
  - intros fuel. unfold showHint. by rewrite Htrie.
  - unfold deadlockCheckArmed. rewrite Htrie. apply andb_false_iff. by right.
Qed.

Lemma no_trie_inert_witness :
  handleTouchEnd (startGame CASUAL (loadFailed (mountedEngine Demo.halves)))
  = Some (startGame CASUAL (loadFailed (mountedEngine Demo.halves))).
Proof.
  apply (no_trie_inert (startGame CASUAL (loadFailed (mountedEngine Demo.halves))));
    reflexivity.
Defined.

End LoaderFacts.

(** ** More on the leaderboard *)

Section LeaderboardMore.

Implicit Types (entry s : HighScoreEntry) (prior : list HighScoreEntry).

Lemma StronglySorted_app_cross {A} (R : A → A → Prop) (l1 l2 : list A) :
  StronglySorted R (l1 ++ l2) → ∀ x y, x ∈ l1 → y ∈ l2 → R x y.
Proof.
  induction l1 as [|a l1 IH]; intros Hs x y Hx Hy; [by apply elem_of_nil in Hx|].
  simpl in Hs. apply StronglySorted_inv in Hs as [Hs Ha].
  apply elem_of_cons in Hx as [->|Hx]; [|by apply IH].
  rewrite Forall_forall in Ha. apply Ha, elem_of_app. by right.
Qed.

(** X6: what [saveScore] drops never beats what it keeps: the stored entries
    and the dropped ones together are the prior entries and the new one,
    and no dropped entry has a higher score than a stored one. *)
Theorem saveScore_keeps_best (mode : GameMode) entry (store : Storage) :
  ∃ dropped,
    getLeaderboard mode (saveScore mode entry store).1 ++ dropped
    ≡ₚ getLeaderboard mode store ++ [entry]
    ∧ ∀ s d, s ∈ getLeaderboard mode (saveScore mode entry store).1 → d ∈ dropped →
             HighScore.score d ≤ HighScore.score s.
Proof.
  unfold saveScore. simpl. rewrite getLeaderboard_setItem.
  set (sorted := sortByScore (getLeaderboard mode store ++ [entry])).
  exists (drop 10 sorted). split.
  - rewrite take_drop. apply sortByScore_perm.
  - apply (StronglySorted_app_cross byScoreDesc). rewrite take_drop.
    apply sortByScore_sorted.
Qed.

(** X7: on a board of fewer than ten entries, also on a missing one, every
    save qualifies and nothing is dropped. *)
Theorem saveScore_small_board (mode : GameMode) entry (store : Storage) :
  (length (getLeaderboard mode store) < 10)%nat →
  (saveScore mode entry store).2 = true
  ∧ getLeaderboard mode (saveScore mode entry store).1
    ≡ₚ getLeaderboard mode store ++ [entry]
  ∧ (store mode = None → getLeaderboard mode (saveScore mode entry store).1 = [entry]).
Proof.
  intros Hlen.
  assert (getLeaderboard mode (saveScore mode entry store).1
          = sortByScore (getLeaderboard mode store ++ [entry])) as Hstored.
  { unfold saveScore. simpl. rewrite getLeaderboard_setItem. apply take_ge.
    rewrite sortByScore_perm, length_app. simpl. lia. }
  split_and!.
  - unfold saveScore. simpl. rewrite take_ge
      by (rewrite sortByScore_perm, length_app; simpl; lia).
    apply existsb_exists. exists entry. split.
    + apply list_elem_of_In. rewrite sortByScore_perm. apply elem_of_app. right. by left.
    + by apply sameEntry_spec.
  - rewrite Hstored. apply sortByScore_perm.
  - intros Hnone. rewrite Hstored. unfold getLeaderboard. by rewrite Hnone.
Qed.

Lemma saveScore_small_board_witness :
  (saveScore CASUAL (Demo.entry 5 9) Demo.store0).2 = true.
Proof. apply (saveScore_small_board CASUAL (Demo.entry 5 9) Demo.store0). vm_compute. lia. Defined.

Lemma notBeaten_nil entry prior :
  (∀ s, s ∈ prior → HighScore.score s < HighScore.score entry) →
  notBeaten entry prior = [] ∧ beaten entry prior = prior.
Proof.
  induction prior as [|x prior IH]; intros Hbest; [done|].
  destruct IH as [IH1 IH2]; [intros s Hs; apply Hbest; by right|].
  assert (HighScore.score x < HighScore.score entry) as Hx by (apply Hbest; by left).
  unfold notBeaten, beaten in *. simpl.
  destruct (Z.leb_spec (HighScore.score entry) (HighScore.score x)); [lia|].
  simpl. by rewrite IH1, IH2.
Qed.

(** X8: a score above every stored score goes to the top of the board, in
    front of the nine best prior entries. *)
Theorem saveScore_new_best (mode : GameMode) entry (store : Storage) :
  (∀ s, s ∈ getLeaderboard mode store → HighScore.score s < HighScore.score entry) →
  (saveScore mode entry store).2 = true
  ∧ getLeaderboard mode (saveScore mode entry store).1
    = entry :: take 9 (sortByScore (getLeaderboard mode store)).
Proof.
  intros Hbest. apply notBeaten_nil in Hbest as [Hnb Hb].
  unfold saveScore. simpl. rewrite getLeaderboard_setItem, sortByScore_snoc, Hnb, Hb.
  simpl. split; [|reflexivity].
  apply orb_true_iff. left. by apply sameEntry_spec.
Qed.

Lemma saveScore_new_best_witness :
  (saveScore CASUAL (Demo.entry 1000000 9) Demo.store0).2 = true.
Proof.
  apply (saveScore_new_best CASUAL (Demo.entry 1000000 9) Demo.store0).
  intros s Hs. vm_compute in Hs.
  repeat (apply elem_of_cons in Hs as [->|Hs]; [vm_compute; reflexivity|]).
  by apply elem_of_nil in Hs.
Defined.

End LeaderboardMore.

(** ** More on the tile generator *)

Section GeneratorMore.

Implicit Types (g : Rng) (t : TileData).

Lemma Qltb_spec (x y : Q) : Qltb x y = true ↔ (x < y)%Q.
Proof.
  unfold Qltb. rewrite negb_true_iff. split.
  - intros Hb. apply Qnot_le_lt. intros Hle. apply Qle_bool_iff in Hle. congruence.
  - intros Hlt. destruct (Qle_bool y x) eqn:E; [|reflexivity].
    apply Qle_bool_iff in E. by apply Qlt_not_le in Hlt.
Qed.

Lemma Qltb_false (x y : Q) : Qltb x y = false ↔ (y <= x)%Q.
Proof.
  unfold Qltb. rewrite negb_false_iff. apply Qle_bool_iff.
Qed.

Lemma getRandomLetter_pool g :
  unitDraws g →
  poolLetter (getRandomLetter g).1
  ∧ (getRandomLetter g).2 = MkRng (draws g) (S (cursor g)).
Proof.
  intros Hunit. unfold getRandomLetter, random. cbv beta iota zeta.
  cbn [fst snd]. split; [|reflexivity].
  destruct (Hunit (cursor g)) as [H0 H1].
  pose proof (floor_scaled _ (Z.of_nat (String.length LETTER_POOL)) H0 H1 ltac:(simpl; lia))
    as [Hlo Hhi].
  destruct (Z.ltb_spec (Qfloor (draws g (cursor g)
                                * inject_Z (Z.of_nat (String.length LETTER_POOL)))) 0);
    [lia|].
  destruct (get_in_range LETTER_POOL
              (Z.to_nat (Qfloor (draws g (cursor g)
                                 * inject_Z (Z.of_nat (String.length LETTER_POOL))))))
    as [ch Hch]; [lia|].
  rewrite Hch. by exists (Z.to_nat (Qfloor (draws g (cursor g)
                                 * inject_Z (Z.of_nat (String.length LETTER_POOL))))), ch.
Qed.

Lemma blockedTile_kind b g :
  blockedKind (blockedTile b g).1
  ∧ Tile.status (blockedTile b g).1 = IDLE ∧ Tile.isNew (blockedTile b g).1 = b
  ∧ (blockedTile b g).2 = MkRng (draws g) (2 + cursor g).
Proof. by split_and!. Qed.

Lemma bombTile_kind b g :
  unitDraws g →
  bombKind (bombTile b g).1
  ∧ Tile.status (bombTile b g).1 = IDLE ∧ Tile.isNew (bombTile b g).1 = b
  ∧ (bombTile b g).2 = MkRng (draws g) (3 + cursor g).
Proof.
  intros Hunit. unfold bombTile, generateId, random. cbv beta iota zeta.
  pose proof (getRandomLetter_pool (MkRng (draws g) (S (cursor g))) Hunit) as [Hl Hg].
  destruct (getRandomLetter (MkRng (draws g) (S (cursor g)))) as [l g1].
  simpl in Hl, Hg. subst g1. simpl. by split_and!.
Qed.

Lemma paletteColor (x : Q) :
  (0 <= x)%Q → (x < 1)%Q →
  let i := Qfloor (x * inject_Z (Z.of_nat (length TILE_COLORS))) in
  (if i <? 0 then EmptyString else default EmptyString (TILE_COLORS !! Z.to_nat i))
  ∈ TILE_COLORS.
Proof.
  intros H0 H1 i.
  pose proof (floor_scaled x (Z.of_nat (length TILE_COLORS)) H0 H1 ltac:(simpl; lia))
    as [Hlo Hhi].
  fold i in Hlo, Hhi.
  destruct (Z.ltb_spec i 0); [lia|].
  destruct (lookup_lt_is_Some_2 TILE_COLORS (Z.to_nat i)) as [col Hcol]; [lia|].
  rewrite Hcol. simpl. by apply list_elem_of_lookup_2 in Hcol.
Qed.

Lemma plainTile_kind b g :
  unitDraws g →
  plainKind (plainTile b g).1
  ∧ (Tile.color (plainTile b g).1 = WILD_COLOR ↔ (draws g (cursor g) < 8 # 100)%Q)
  ∧ Tile.status (plainTile b g).1 = IDLE ∧ Tile.isNew (plainTile b g).1 = b
  ∧ draws (plainTile b g).2 = draws g
  ∧ (cursor g + 4 ≤ cursor (plainTile b g).2 ≤ cursor g + 5)%nat.
Proof.
  intros Hunit. destruct (plainTile b g) as [t g'] eqn:E.
  unfold plainTile in E. unfold random at 1 in E. cbv beta iota zeta in E.
  set (w := draws g (cursor g)) in *.
  set (pick := if Qltb w (8 # 100) then _ else _) in E.
  assert (∃ col n, pick = (col, MkRng (draws g) n)
                   ∧ (col = WILD_COLOR ∨ col ∈ TILE_COLORS)
                   ∧ (col = WILD_COLOR ↔ (w < 8 # 100)%Q)
                   ∧ (cursor g + 1 ≤ n ≤ cursor g + 2)%nat) as (col & n & Hpick & Hcol & Hw & Hn).
  { unfold pick. destruct (Qltb w (8 # 100)) eqn:Ew.
    - exists WILD_COLOR, (S (cursor g)). split_and!; [done | by left | | lia | lia].
      split; [intros _; by apply Qltb_spec | done].
    - unfold random. cbv beta iota zeta. cbn [draws cursor].
      eexists _, _. split; [reflexivity|].
      destruct (Hunit (S (cursor g))) as [H0 H1].
      pose proof (paletteColor _ H0 H1) as Hin. cbv zeta in Hin.
      split_and!; [by right | | lia | lia].
      split.
      + intros Heq. rewrite Heq in Hin. exfalso. clear -Hin.
        unfold TILE_COLORS, WILD_COLOR in Hin.
        repeat (apply elem_of_cons in Hin as [Hin|Hin]; [discriminate|]).
        by apply elem_of_nil in Hin.
      + intros Hlt. apply Qltb_spec in Hlt. congruence. }
  rewrite Hpick in E. unfold generateId, random in E. cbv beta iota zeta in E.
  cbn [draws cursor] in E.
  pose proof (getRandomLetter_pool (MkRng (draws g) (S n)) Hunit) as [Hl Hg].
  destruct (getRandomLetter (MkRng (draws g) (S n))) as [l g5].
  simpl in Hl, Hg. subst g5. injection E as <- <-. simpl.
  split_and!; try done; try lia.
Qed.

Lemma generateTile_None lvl m b g :
  generateTile lvl m b None g =
    let g1 := MkRng (draws g) (S (cursor g)) in
    if Qltb (draws g (cursor g)) (blockedChance lvl m) then blockedTile b g1
    else if Qltb (draws g (cursor g)) (blockedChance lvl m + (8 # 100)) then bombTile b g1
    else plainTile b g1.
Proof. reflexivity. Qed.

Lemma generateTile_shape lvl m b forced g :
  unitDraws g →
  let t := (generateTile lvl m b forced g).1 in
  let g' := (generateTile lvl m b forced g).2 in
  (blockedKind t ∨ bombKind t ∨ plainKind t)
  ∧ (∀ f, forced = Some f → forcedKind f t)
  ∧ Tile.status t = IDLE ∧ Tile.isNew t = b
  ∧ draws g' = draws g
  ∧ (cursor g + 2 ≤ cursor g' ≤ cursor g + 6)%nat.
Proof.
  intros Hunit t g'. unfold t, g'.
  destruct forced as [[]|].
  - change (generateTile lvl m b (Some BLOCKED) g) with (blockedTile b g).
    pose proof (blockedTile_kind b g) as (Hk & Hs & Hn & Hg). rewrite Hg.
    split_and!; try done; try (simpl; lia); [by left|].
    intros f [= <-]. exact Hk.
  - change (generateTile lvl m b (Some BOMB) g) with (bombTile b g).
    pose proof (bombTile_kind b g Hunit) as (Hk & Hs & Hn & Hg). rewrite Hg.
    split_and!; try done; try (simpl; lia); [right; by left|].
    intros f [= <-]. exact Hk.
  - rewrite generateTile_None. cbv zeta.
    destruct (Qltb (draws g (cursor g)) (blockedChance lvl m)).
    { pose proof (blockedTile_kind b (MkRng (draws g) (S (cursor g)))) as (Hk & Hs & Hn & Hg).
      rewrite Hg. split_and!; try done; try (simpl; lia). by left. }
    destruct (Qltb (draws g (cursor g)) (blockedChance lvl m + (8 # 100))).
    { pose proof (bombTile_kind b (MkRng (draws g) (S (cursor g))) Hunit)
        as (Hk & Hs & Hn & Hg).
      rewrite Hg. split_and!; try done; try (simpl; lia). right; by left. }
    pose proof (plainTile_kind b (MkRng (draws g) (S (cursor g))) Hunit)
      as (Hk & _ & Hs & Hn & Hd & Hc).
    cbn [draws cursor] in Hd, Hc.
    split_and!; try done; try lia. right; by right.
Qed.

(** X9: with draws in [0, 1) the tile that [generateTile] makes is of
    exactly one of three kinds (blocked and blank, bomb, or plain with a
    palette or wild colour), it is the kind that a forced type asks
    for, it is idle and new as asked, and making it takes between two and
    six draws. *)
Theorem generateTile_kinds lvl m b forced g :
  unitDraws g →
  let t := (generateTile lvl m b forced g).1 in
  let g' := (generateTile lvl m b forced g).2 in
  (blockedKind t ∨ bombKind t ∨ plainKind t)
  ∧ (∀ f, forced = Some f → forcedKind f t)
  ∧ Tile.status t = IDLE ∧ Tile.isNew t = b
  ∧ draws g' = draws g
  ∧ (cursor g + 2 ≤ cursor g' ≤ cursor g + 6)%nat.
Proof. apply generateTile_shape. Qed.

Lemma generateTile_kinds_witness :
  forcedKind BOMB
    (generateTile 1 CASUAL true (Some BOMB) Demo.halves).1.
Proof.
  apply (generateTile_kinds 1 CASUAL true (Some BOMB) Demo.halves); [|reflexivity].
  intros i. vm_compute. split; [discriminate | reflexivity].
Defined.

(** The kind by the first draw, over the exact thresholds of the
    embedding. *)
Lemma generateTile_roll_exact lvl m b g :
  unitDraws g →
  let roll := draws g (cursor g) in
  let chance := blockedChance lvl m in
  let t := (generateTile lvl m b None g).1 in
  (blockedKind t ↔ (roll < chance)%Q)
  ∧ (bombKind t ↔ (chance <= roll)%Q ∧ (roll < chance + (8 # 100))%Q)
  ∧ (plainKind t ↔ (chance + (8 # 100) <= roll)%Q)
  ∧ (plainKind t → (Tile.color t = WILD_COLOR ↔ (draws g (S (cursor g)) < 8 # 100)%Q)).
Proof.
  intros Hunit roll chance t. unfold t. rewrite generateTile_None. cbv zeta.
  fold roll. fold chance.
  assert (chance <= chance + (8 # 100))%Q as Hstep.
  { rewrite <- (Qplus_0_r chance) at 1. apply Qplus_le_r. discriminate. }
  destruct (Qltb roll chance) eqn:E1.
  { apply Qltb_spec in E1.
    pose proof (blockedTile_kind b (MkRng (draws g) (S (cursor g)))) as (Hk & _).
    split_and!.
    - by split.
    - split; [intros (_ & Hb & _); destruct Hk as (_ & Hb' & _); congruence|].
      intros [Hle _]. by apply Qlt_not_le in E1.
    - split; [intros (Hb & _); destruct Hk as (Hb' & _); congruence|].
      intros Hle. exfalso. apply (Qlt_not_le _ _ E1).
      by apply (Qle_trans _ (chance + (8 # 100))).
    - intros (Hb & _). destruct Hk as (Hb' & _). congruence. }
  apply Qltb_false in E1.
  destruct (Qltb roll (chance + (8 # 100))) eqn:E2.
  { apply Qltb_spec in E2.
    pose proof (bombTile_kind b (MkRng (draws g) (S (cursor g))) Hunit) as (Hk & _).
    split_and!.
    - split; [intros (Hb & _); destruct Hk as (Hb' & _); congruence|].
      intros Hlt. by apply Qlt_not_le in Hlt.
    - by split.
    - split; [intros (_ & Hb & _); destruct Hk as (_ & Hb' & _); congruence|].
      intros Hle. by apply Qlt_not_le in E2.
    - intros (_ & Hb & _). destruct Hk as (_ & Hb' & _). congruence. }
  apply Qltb_false in E2.
  pose proof (plainTile_kind b (MkRng (draws g) (S (cursor g))) Hunit) as (Hk & Hw & _).
  cbn [draws cursor] in Hw.
  split_and!.
  - split; [intros (Hb & _); destruct Hk as (Hb' & _); congruence|].
    intros Hlt. by apply Qlt_not_le in Hlt.
  - split; [intros (_ & Hb & _); destruct Hk as (_ & Hb' & _); congruence|].
    intros [_ Hlt]. by apply Qlt_not_le in Hlt.
  - by split.
  - intros _. exact Hw.
Qed.

Lemma Qle_minus_margin (x y : Q) : (x <= y - rollMargin)%Q → (x < y)%Q.
Proof.
  intros H. eapply Qle_lt_trans; [exact H|].
  rewrite <- (Qplus_0_r y) at 2. unfold Qminus. by apply Qplus_lt_r.
Qed.

Lemma Qle_plus_margin (x y : Q) : (x + rollMargin <= y)%Q → (x <= y)%Q.
Proof.
  intros H. eapply Qle_trans; [|exact H].
  rewrite <- (Qplus_0_r x) at 1. by apply Qplus_le_r.
Qed.

Lemma Qlt_plus_margin (x y : Q) : (x < y)%Q → (x <= y + rollMargin)%Q.
Proof.
  intros H. apply Qlt_le_weak. eapply Qlt_le_trans; [exact H|].
  rewrite <- (Qplus_0_r y) at 1. by apply Qplus_le_r.
Qed.

Lemma Qle_minus_margin_l (x y : Q) : (x <= y)%Q → (x - rollMargin <= y)%Q.
Proof.
  intros H. eapply Qle_trans; [|exact H].
  rewrite <- (Qplus_0_r x) at 2. unfold Qminus. by apply Qplus_le_r.
Qed.

(** X10: without a forced type the first draw decides the kind, up to
    the rounding of the thresholds: a draw below the blocked chance by
    the margin of one millionth or more gives a blocked tile, a draw
    inside the next 0.08 by the margin a bomb, a draw beyond it by the
    margin a plain tile; and a blocked, bomb or plain tile comes from a
    draw that is in its range up to the margin. A plain tile is wild
    exactly when the second draw is below 0.08. *)
Theorem generateTile_by_roll lvl m b g :
  unitDraws g →
  let roll := draws g (cursor g) in
  let chance := blockedChance lvl m in
  let t := (generateTile lvl m b None g).1 in
  ((roll <= chance - rollMargin)%Q → blockedKind t)
  ∧ ((chance + rollMargin <= roll)%Q → (roll <= chance + (8 # 100) - rollMargin)%Q →
     bombKind t)
  ∧ ((chance + (8 # 100) + rollMargin <= roll)%Q → plainKind t)
  ∧ (blockedKind t → (roll <= chance + rollMargin)%Q)
  ∧ (bombKind t →
     (chance - rollMargin <= roll)%Q ∧ (roll <= chance + (8 # 100) + rollMargin)%Q)
  ∧ (plainKind t → (chance + (8 # 100) - rollMargin <= roll)%Q)
  ∧ (plainKind t → (Tile.color t = WILD_COLOR ↔ (draws g (S (cursor g)) < 8 # 100)%Q)).
Proof.
  intros Hunit roll chance t.
  pose proof (generateTile_roll_exact lvl m b g Hunit) as H. cbv zeta in H.
  fold roll chance t in H. destruct H as (Hblocked & Hbomb & Hplain & Hwild).
  split_and!.
  - intros Hr. apply Hblocked. by apply Qle_minus_margin.
  - intros Hlo Hhi. apply Hbomb. split.
    + by apply Qle_plus_margin.
    + by apply Qle_minus_margin.
  - intros Hr. apply Hplain. by apply Qle_plus_margin.
  - intros Hr%Hblocked. by apply Qlt_plus_margin.
  - intros [Hlo Hhi]%Hbomb. split.
    + by apply Qle_minus_margin_l.
    + by apply Qlt_plus_margin.
  - intros Hr%Hplain. by apply Qle_minus_margin_l.
  - exact Hwild.
Qed.

Lemma generateTile_by_roll_witness :
  plainKind (generateTile 2 CASUAL false None Demo.halves).1.
Proof.
  apply (generateTile_by_roll 2 CASUAL false Demo.halves).
  - intros i. vm_compute. split; [discriminate | reflexivity].
  - vm_compute. discriminate.
Defined.


(** X11: the chance of a blocked tile lies between 0 and its cap, 0.25 in
    timed and 0.20 in casual play, never falls as the level rises, and
    sits at the cap from level 9 in timed and from level 17 in casual
    play. *)
Theorem blockedChance_bounds (lvl lvl' : Z) (m : GameMode) :
  0 ≤ lvl →
  let cap := match m with TIMED => 25 # 100 | CASUAL => 20 # 100 end in
  (0 <= blockedChance lvl m)%Q
  ∧ (blockedChance lvl m <= cap)%Q
  ∧ (lvl ≤ lvl' → (blockedChance lvl m <= blockedChance lvl' m)%Q)
  ∧ (match m with TIMED => 9 | CASUAL => 17 end ≤ lvl → (blockedChance lvl m == cap)%Q).
Proof.
  intros Hlvl cap. unfold cap, blockedChance. destruct m; split_and!.
  - apply Q.min_glb; [discriminate|]. unfold Qle. simpl. lia.
  - apply Q.le_min_l.
  - intros Hle. apply Q.min_le_compat_l. unfold Qle. simpl. lia.
  - intros Hle. apply Q.min_l. unfold Qle. simpl. lia.
  - apply Q.min_glb; [discriminate|]. unfold Qle. simpl. lia.
  - apply Q.le_min_l.
  - intros Hle. apply Q.min_le_compat_l. unfold Qle. simpl. lia.
  - intros Hle. apply Q.min_l. unfold Qle. simpl. lia.
Qed.

Lemma blockedChance_bounds_witness : (blockedChance 20 TIMED == 25 # 100)%Q.
Proof. apply (blockedChance_bounds 20 20 TIMED); lia. Defined.

Lemma fillRow_Forall (P : TileData → Prop) (n : nat) m :
  (∀ g, unitDraws g → P (generateTile 1 m false None g).1) →
  ∀ g, unitDraws g → Forall P (fillRow n m g).1.
Proof.
  intros HP. induction n as [|n IH]; intros g Hunit; [by constructor|].
  cbn [fillRow].
  pose proof (generateTile_spec 1 m false None g Hunit) as [_ Hd].
  pose proof (HP g Hunit) as Ht.
  destruct (generateTile 1 m false None g) as [tile g1]. simpl in Hd, Ht.
  specialize (IH g1 (unitDraws_same _ _ Hd Hunit)).
  destruct (fillRow n m g1) as [row g2]. simpl in *. by constructor.
Qed.

Lemma fillRows_Forall (P : TileData → Prop) (n : nat) m :
  (∀ g, unitDraws g → P (generateTile 1 m false None g).1) →
  ∀ g, unitDraws g → Forall (Forall P) (fillRows n m g).1.
Proof.
  intros HP. induction n as [|n IH]; intros g Hunit; [by constructor|].
  cbn [fillRows].
  pose proof (fillRow_spec GRID_SIZE m g Hunit) as (_ & _ & Hd).
  pose proof (fillRow_Forall P GRID_SIZE m HP g Hunit) as Hrow.
  destruct (fillRow GRID_SIZE m g) as [row g1]. simpl in Hd, Hrow.
  specialize (IH g1 (unitDraws_same _ _ Hd Hunit)).
  destruct (fillRows n m g1) as [rows g2]. simpl in *. by constructor.
Qed.

(** X12: the first grid of a game: 6 x 6, every tile of one of the three
    kinds, idle and not marked new, whatever level is passed: the tiles
    are generated for level 1. *)
Theorem createInitialGrid_tiles (lvl : Z) (m : GameMode) g :
  unitDraws g →
  let grid := (createInitialGrid lvl m g).1 in
  squareGrid grid
  ∧ (∀ p, onGrid p ↔ is_Some (tileAt grid (Coord.r p) (Coord.c p)))
  ∧ (∀ r c t, tileAt grid r c = Some t →
       (blockedKind t ∨ bombKind t ∨ plainKind t)
       ∧ Tile.status t = IDLE ∧ Tile.isNew t = false)
  ∧ createInitialGrid lvl m g = createInitialGrid 1 m g
  ∧ draws (createInitialGrid lvl m g).2 = draws g.
Proof.
  intros Hunit grid.
  pose proof (createInitialGrid_spec lvl m g Hunit) as (Hsq & _ & _ & Hd).
  split_and!; [exact Hsq | | | reflexivity | exact Hd].
  - intros p. split; [by apply tileAt_square|].
    intros [t Ht]. destruct p as [r c]. by apply (tileAt_square_inv grid r c t).
  - apply (tileAt_Forall (fun t => (blockedKind t ∨ bombKind t ∨ plainKind t)
                                   ∧ Tile.status t = IDLE ∧ Tile.isNew t = false)).
    apply fillRows_Forall; [|exact Hunit].
    intros g1 Hg1.
    pose proof (generateTile_shape 1 m false None g1 Hg1) as (Hk & _ & Hs & Hn & _).
    by split_and!.
Qed.

Lemma createInitialGrid_tiles_witness :
  squareGrid (createInitialGrid 3 TIMED Demo.halves).1.
Proof.
  apply (createInitialGrid_tiles 3 TIMED Demo.halves).
  intros i. vm_compute. split; [discriminate | reflexivity].
Defined.

End GeneratorMore.

(** ** Adjacency *)

Section Adjacency.

Implicit Types (p q : Coordinate).

Lemma isAdjacent_spec p q :
  isAdjacent p q = true ↔
    Z.max (Z.abs (Coord.r p - Coord.r q)) (Z.abs (Coord.c p - Coord.c q)) = 1.
Proof.
  unfold isAdjacent. cbv zeta.
  rewrite !andb_true_iff, negb_true_iff, andb_false_iff, !Z.leb_le, !Z.eqb_neq. lia.
Qed.

Lemma isAdjacent_in_neighbors p q :
  isAdjacent p q = true ↔ q ∈ neighbors (Coord.r p) (Coord.c p).
Proof.
  rewrite isAdjacent_spec. destruct p as [pr pc], q as [qr qc]. cbn [Coord.r Coord.c].
  unfold neighbors. split.
  - intros H.
    assert (qr = pr - 1 ∨ qr = pr ∨ qr = pr + 1) as Hr by lia.
    assert (qc = pc - 1 ∨ qc = pc ∨ qc = pc + 1) as Hc by lia.
    rewrite !elem_of_cons.
    destruct Hr as [ -> | [ -> | -> ] ], Hc as [ -> | [ -> | -> ] ]; try lia;
      repeat (first [left; reflexivity | right]).
  - intros H.
    repeat (apply elem_of_cons in H as [H|H]; [injection H as -> ->; lia|]).
    by apply elem_of_nil in H.
Qed.

(** X13: [isAdjacent] holds exactly of the eight neighbours that the deadlock
    detector walks, that is at distance 1 in the larger of the two
    coordinate differences; it is symmetric and no coordinate is adjacent
    to itself. *)
Theorem isAdjacent_neighbors p q :
  (isAdjacent p q = true ↔ q ∈ neighbors (Coord.r p) (Coord.c p))
  ∧ (isAdjacent p q = true ↔
       Z.max (Z.abs (Coord.r p - Coord.r q)) (Z.abs (Coord.c p - Coord.c q)) = 1)
  ∧ isAdjacent p q = isAdjacent q p
  ∧ isAdjacent p p = false.
Proof.
  split_and!.
  - apply isAdjacent_in_neighbors.
  - apply isAdjacent_spec.
  - apply Bool.eq_iff_eq_true. rewrite !isAdjacent_spec. lia.
  - apply Bool.not_true_iff_false. rewrite isAdjacent_spec. lia.
Qed.

End Adjacency.

(** ** More on the deadlock detector *)

Lemma string_append_nil (s : string) : String.append s EmptyString = s.
Proof.
  induction s as [|a s IH]; [reflexivity|].
  change (String a (String.append s EmptyString) = String a s). by rewrite IH.
Qed.

Lemma string_append_assoc (s1 s2 s3 : string) :
  String.append (String.append s1 s2) s3 = String.append s1 (String.append s2 s3).
Proof.
  induction s1 as [|a s1 IH]; [reflexivity|].
  change (String a (String.append (String.append s1 s2) s3)
          = String a (String.append s1 (String.append s2 s3))).
  by rewrite IH.
Qed.

Lemma firstResult_returns {A B} (f : A → Outcome (option B)) (l : list A) :
  (∀ x, x ∈ l → ∃ res, f x = Return res) → ∃ res, firstResult f l = Return res.
Proof.
  induction l as [|x l IH]; intros Hf; [by exists None|].
  simpl. destruct (Hf x (list_elem_of_here _ _)) as [[q|] ->]; [by eexists|].
  apply IH. intros y Hy. apply Hf. by right.
Qed.

Lemma firstResult_some {A B} (f : A → Outcome (option B)) (l : list A) x q :
  (∀ y, y ∈ l → ∃ res, f y = Return res) →
  x ∈ l → f x = Return (Some q) → ∃ q', firstResult f l = Return (Some q').
Proof.
  induction l as [|y l IH]; intros Hf Hx Hq; [by apply elem_of_nil in Hx|].
  simpl. destruct (Hf y (list_elem_of_here _ _)) as [[q'|] Hy]; rewrite Hy; [by eexists|].
  apply elem_of_cons in Hx as [->|Hx]; [congruence|].
  apply IH; [|exact Hx|exact Hq]. intros z Hz. apply Hf. by right.
Qed.

Section DeadlockMore.

Variables (grid : Grid) (trie : Trie.t) (rows cols : Z).

Implicit Types (p n : Coordinate) (path : list Coordinate) (fuel : nat).

Lemma extend_path path r c n :
  NoDup (path ++ [Coord.Mk r c]) → n ∈ neighbors r c → n ∉ path →
  NoDup ((path ++ [Coord.Mk r c]) ++ [Coord.Mk (Coord.r n) (Coord.c n)]).
Proof.
  intros Hnd Hn Hv. apply NoDup_app. split; [exact Hnd|]. split; [|apply NoDup_singleton].
  intros q Hq ->%list_elem_of_singleton.
  apply elem_of_app in Hq as [Hq|Hq]; [by destruct n|].
  apply list_elem_of_singleton in Hq.
  apply (neighbors_not_self r c n Hn). by destruct n.
Qed.

(** A returned path is the path of the call followed by a traced run of
    unblocked tiles whose letters, appended to the string of the call,
    make a word of the trie of at least three characters. *)
Lemma search_sound fuel :
  ∀ r c path cur q,
    NoDup (path ++ [Coord.Mk r c]) →
    search fuel grid trie rows cols r c path cur = Return (Some q) →
    ∃ tail tiles,
      q = path ++ Coord.Mk r c :: tail
      ∧ NoDup q
      ∧ linked (Coord.Mk r c :: tail)
      ∧ tilesAt grid (Coord.Mk r c :: tail) = Some tiles
      ∧ Trie.search (String.append cur (joinLetters (Tile.letter <$> tiles))) trie
        = ExactWord
      ∧ (MIN_WORD_LENGTH
         ≤ String.length (String.append cur (joinLetters (Tile.letter <$> tiles))))%nat.
Proof.
  induction fuel as [|fuel IH]; intros r c path cur q Hnd Hq; [discriminate|].
  rewrite search_step in Hq.
  destruct (tileAt grid r c) as [tile|] eqn:Ht; [|discriminate].
  destruct (Tile.isBlocked tile) eqn:Hb; [discriminate|]. cbv zeta in Hq.
  destruct (_ =? 0)%nat; [discriminate|].
  destruct (_ && _) eqn:Hhit.
  - injection Hq as <-. exists [], [tile].
    apply andb_true_iff in Hhit as [H2%Nat.eqb_eq Hlen%Nat.leb_le].
    rewrite tilesAt_cons. cbn [Coord.r Coord.c]. rewrite Ht.
    change (joinLetters (Tile.letter <$> [tile]))
      with (String.append (Tile.letter tile) EmptyString).
    rewrite string_append_nil. by split_and!.
  - destruct (8 <=? _)%nat; [discriminate|].
    apply firstResult_found in Hq as (n & Hn & Hq).
    destruct (inBounds rows cols n); [|discriminate].
    destruct (negb _) eqn:Hv; [|discriminate].
    apply not_visited_spec in Hv.
    apply IH in Hq as (tail & tiles & -> & Hndq & Hlink & Htiles & Hw & Hlen);
      [|by apply extend_path].
    exists (Coord.Mk (Coord.r n) (Coord.c n) :: tail), (tile :: tiles).
    split_and!.
    + by rewrite <- app_assoc.
    + exact Hndq.
    + split; [|exact Hlink]. apply isAdjacent_in_neighbors. by destruct n.
    + rewrite tilesAt_cons. cbn [Coord.r Coord.c]. rewrite Ht.
      cbn [mbind option_bind]. by rewrite Htiles.
    + change (joinLetters (Tile.letter <$> tile :: tiles))
        with (String.append (Tile.letter tile) (joinLetters (Tile.letter <$> tiles))).
      by rewrite <- string_append_assoc.
    + change (joinLetters (Tile.letter <$> tile :: tiles))
        with (String.append (Tile.letter tile) (joinLetters (Tile.letter <$> tiles))).
      by rewrite <- string_append_assoc.
Qed.

Hypothesis Htiles :
  ∀ p, inBounds rows cols p = true → is_Some (tileAt grid (Coord.r p) (Coord.c p)).

(** On a grid that has a tile at every coordinate in bounds the search
    returns, given fuel for the cells not yet on the path. *)
Lemma search_returns fuel :
  ∀ r c path cur,
    NoDup (path ++ [Coord.Mk r c]) →
    Forall (fun p => inBounds rows cols p = true) (path ++ [Coord.Mk r c]) →
    (Z.to_nat rows * Z.to_nat cols ≤ length path + fuel)%nat →
    ∃ res, search fuel grid trie rows cols r c path cur = Return res.
Proof.
  induction fuel as [|fuel IH]; intros r c path cur Hnd Hall Hfuel.
  - pose proof (path_fits rows cols _ Hnd Hall) as Hfit. rewrite length_app in Hfit.
    simpl in Hfit. lia.
  - rewrite search_step.
    assert (inBounds rows cols (Coord.Mk r c) = true) as Hrc.
    { pose proof (proj2 (proj1 (Forall_app _ _ _) Hall)) as Hrc.
      by rewrite Forall_singleton in Hrc. }
    destruct (Htiles _ Hrc) as [tile Ht]. cbn [Coord.r Coord.c] in Ht. rewrite Ht.
    destruct (Tile.isBlocked tile); [by eexists|]. cbv zeta.
    destruct (_ =? 0)%nat; [by eexists|].
    destruct (_ && _); [by eexists|].
    destruct (8 <=? _)%nat; [by eexists|].
    apply firstResult_returns. intros n Hn.
    destruct (inBounds rows cols n) eqn:Hb; [|by eexists].
    destruct (negb _) eqn:Hv; [|by eexists].
    apply not_visited_spec in Hv.
    apply IH.
    + by apply extend_path.
    + apply Forall_app. split; [exact Hall|]. apply Forall_singleton. by destruct n.
    + rewrite length_app. simpl. lia.
Qed.

(** A traceable run of unblocked tiles that completes the string of the
    call to a word of the trie of three to eight characters makes the
    search return a path. *)
Lemma search_complete :
  ∀ rest fuel r c pre cur tiles,
    NoDup (pre ++ Coord.Mk r c :: rest) →
    Forall (fun p => inBounds rows cols p = true) (pre ++ Coord.Mk r c :: rest) →
    linked (Coord.Mk r c :: rest) →
    tilesAt grid (Coord.Mk r c :: rest) = Some tiles →
    Forall (fun t => Tile.isBlocked t = false) tiles →
    Trie.search (String.append cur (joinLetters (Tile.letter <$> tiles))) trie = ExactWord →
    (MIN_WORD_LENGTH
     ≤ String.length (String.append cur (joinLetters (Tile.letter <$> tiles))))%nat →
    (String.length (String.append cur (joinLetters (Tile.letter <$> tiles))) ≤ 8)%nat →
    (Z.to_nat rows * Z.to_nat cols ≤ length pre + fuel)%nat →
    ∃ q, search fuel grid trie rows cols r c pre cur = Return (Some q).
Proof.
  induction rest as [|n rest IH];
    intros fuel r c pre cur tiles Hnd Hall Hlink Htl Hub Hw Hmin Hmax Hfuel.
  all: destruct fuel as [|fuel];
    [pose proof (path_fits rows cols _ Hnd Hall) as Hfit; rewrite length_app in Hfit;
     simpl in Hfit; lia|].
  all: rewrite tilesAt_cons in Htl; cbn [Coord.r Coord.c] in Htl;
    destruct (tileAt grid r c) as [tile|] eqn:Ht; [|discriminate];
    cbn [mbind option_bind] in Htl;
    destruct (tilesAt grid _) as [tiles'|] eqn:Htl'; [|discriminate];
    cbn [mbind option_bind] in Htl;
    injection Htl as <-;
    apply Forall_cons in Hub as [Hb Hub];
    change (joinLetters (Tile.letter <$> tile :: tiles'))
      with (String.append (Tile.letter tile) (joinLetters (Tile.letter <$> tiles')))
      in Hw, Hmin, Hmax;
    rewrite <- string_append_assoc in Hw, Hmin, Hmax;
    rewrite search_step, Ht, Hb; cbv zeta;
    set (str := String.append cur (Tile.letter tile)) in *;
    assert (Trie.search str trie ≠ 0%nat) as Hpre
      by (apply (searchAt_prefix_closed str (joinLetters (Tile.letter <$> tiles')));
          unfold Trie.search, ExactWord in Hw; rewrite Hw; discriminate);
    destruct (Nat.eqb_spec (Trie.search str trie) 0) as [|_]; [done|].
  - (* the run ends here: the string is the word *)
    change (tilesAt grid []) with (Some (@nil TileData)) in Htl'.
    injection Htl' as <-.
    change (joinLetters (Tile.letter <$> [])) with EmptyString in Hw, Hmin.
    rewrite string_append_nil in Hw, Hmin.
    rewrite Hw. destruct (Nat.leb_spec MIN_WORD_LENGTH (String.length str)); [|lia].
    by eexists.
  - destruct (_ && _) eqn:Hhit; [by eexists|].
    destruct (Nat.leb_spec 8 (String.length str)) as [Hcap|Hcap].
    { (* at the cap the word cannot be longer than the string *)
      exfalso. rewrite length_append in Hmax, Hmin.
      destruct (joinLetters (Tile.letter <$> tiles')) as [|a rest'] eqn:Hj;
        [|simpl in Hmax; lia].
      rewrite string_append_nil in Hw. simpl in Hmin.
      rewrite Hw in Hhit. apply andb_false_iff in Hhit as [Hhit|Hhit]; [discriminate|].
      apply Nat.leb_gt in Hhit. lia. }
    destruct Hlink as [Hadj Hlink].
    apply isAdjacent_in_neighbors in Hadj. cbn [Coord.r Coord.c] in Hadj.
    assert (NoDup ((pre ++ [Coord.Mk r c]) ++ n :: rest)) as Hnd'
      by (by rewrite <- app_assoc).
    assert (Forall (fun p => inBounds rows cols p = true)
                   ((pre ++ [Coord.Mk r c]) ++ n :: rest)) as Hall'
      by (by rewrite <- app_assoc).
    destruct n as [nr nc].
    destruct (IH fuel nr nc (pre ++ [Coord.Mk r c]) str tiles'
                 Hnd' Hall' Hlink Htl' Hub Hw Hmin Hmax) as [q Hq].
    { rewrite length_app. simpl. lia. }
    apply NoDup_app in Hnd' as (Hnd0 & Hdisj & _).
    apply Forall_app in Hall' as [Hall0 Hall1].
    apply (firstResult_some _ _ (Coord.Mk nr nc) q); [|exact Hadj|].
    + intros y Hy. cbv beta.
      destruct (inBounds rows cols y) eqn:Hby; [|by eexists].
      destruct (negb _) eqn:Hv; [|by eexists].
      apply not_visited_spec in Hv.
      apply search_returns.
      * by apply extend_path.
      * apply Forall_app. split; [exact Hall0|]. apply Forall_singleton. by destruct y.
      * rewrite length_app. simpl. lia.
    + cbv beta. cbn [Coord.r Coord.c].
      apply Forall_cons in Hall1 as [-> _].
      assert (Coord.Mk nr nc ∉ pre) as Hv.
      { intros Hin. apply (Hdisj (Coord.Mk nr nc)); [|by left].
        apply elem_of_app. by left. }
      apply not_visited_spec in Hv. rewrite Hv. exact Hq.
Qed.

End DeadlockMore.

Section DeadlockMoreTheorems.

Implicit Types (grid : Grid) (trie : Trie.t) (q path : list Coordinate).

Lemma rectangular_tiles grid p :
  rectangular grid →
  inBounds (Z.of_nat (length grid)) (Z.of_nat (length (hd [] grid))) p = true →
  is_Some (tileAt grid (Coord.r p) (Coord.c p)).
Proof.
  intros Hrect Hp. unfold inBounds in Hp.
  rewrite !andb_true_iff, !Z.leb_le, !Z.ltb_lt in Hp.
  destruct (lookup_lt_is_Some_2 grid (Z.to_nat (Coord.r p))) as [row Hrow]; [lia|].
  assert (length row = length (hd [] grid)) as Hlen.
  { unfold rectangular in Hrect. rewrite Forall_forall in Hrect.
    apply Hrect, list_elem_of_lookup. eauto. }
  destruct (lookup_lt_is_Some_2 row (Z.to_nat (Coord.c p))) as [t Ht]; [lia|].
  exists t. apply tileAt_spec. split_and!; try lia. eauto.
Qed.

Lemma tileAt_inBounds grid r c t :
  rectangular grid → tileAt grid r c = Some t →
  inBounds (Z.of_nat (length grid)) (Z.of_nat (length (hd [] grid))) (Coord.Mk r c) = true.
Proof.
  intros Hrect (Hr & Hc & row & Hrow & Ht)%tileAt_spec.
  assert (length row = length (hd [] grid)) as Hlen.
  { unfold rectangular in Hrect. rewrite Forall_forall in Hrect.
    apply Hrect, list_elem_of_lookup. eauto. }
  apply lookup_lt_Some in Hrow, Ht.
  unfold inBounds. cbn [Coord.r Coord.c].
  rewrite !andb_true_iff, !Z.leb_le, !Z.ltb_lt. lia.
Qed.

Lemma findFirstWord_move grid trie (fuel : nat) q :
  findFirstWord fuel grid trie = Return (Some q) →
  chain q
  ∧ Forall (unblockedAt grid) q
  ∧ ∃ w, wordOf grid q = Some w
         ∧ Trie.search w trie = ExactWord
         ∧ (MIN_WORD_LENGTH ≤ String.length w)%nat
         ∧ selectionStatus trie w = VALID.
Proof.
  intros Hq. pose proof (findFirstWord_unblocked _ _ _ _ Hq) as Hub.
  apply findFirstWord_found in Hq as (r & c & Hq).
  apply search_sound in Hq as (tail & tiles & Hqeq & Hnd & Hlink & Htiles & Hw & Hlen);
    [|apply NoDup_singleton].
  rewrite app_nil_l in Hqeq. subst q.
  change (String.append EmptyString (joinLetters (Tile.letter <$> tiles)))
    with (joinLetters (Tile.letter <$> tiles)) in Hw, Hlen.
  split_and!; [by split | exact Hub |].
  exists (joinLetters (Tile.letter <$> tiles)).
  split_and!; [| exact Hw | exact Hlen |].
  - unfold wordOf. by rewrite Htiles.
  - apply selectionStatus_spec; [unfold MIN_WORD_LENGTH in Hlen; lia|]. by split.
Qed.

(** X14: what the deadlock detector returns is a move: a path that can be
    traced, over unblocked tiles, whose word is in the trie and has at
    least three characters, so that selecting it is rated valid. *)
Theorem findFirstWord_sound grid trie (fuel : nat) q :
  findFirstWord fuel grid trie = Return (Some q) →
  chain q
  ∧ Forall (unblockedAt grid) q
  ∧ ∃ w, wordOf grid q = Some w
         ∧ Trie.search w trie = ExactWord
         ∧ (MIN_WORD_LENGTH ≤ String.length w)%nat
         ∧ selectionStatus trie w = VALID.
Proof. apply findFirstWord_move. Qed.

Lemma findFirstWord_sound_witness : chain Demo.path0.
Proof.
  apply (findFirstWord_sound Demo.grid0 (Trie.ofWords Demo.words) 36 Demo.path0).
  vm_compute. reflexivity.
Defined.

(** X15: on a grid with rows of one length the detector returns once its
    depth bound covers the cells, and it throws on the empty grid. *)
Theorem findFirstWord_returns grid trie (fuel : nat) :
  (grid = [] → findFirstWord fuel grid trie = TypeError)
  ∧ (grid ≠ [] → rectangular grid →
     (length grid * length (hd [] grid) ≤ fuel)%nat →
     ∃ res, findFirstWord fuel grid trie = Return res).
Proof.
  split; [by intros ->|]. intros Hne Hrect Hfuel.
  destruct grid as [|row0 rest]; [done|].
  unfold findFirstWord.
  apply firstResult_returns. intros r Hr%elem_of_seqZ.
  apply firstResult_returns. intros c Hc%elem_of_seqZ.
  apply search_returns.
  - intros p Hp. by apply rectangular_tiles.
  - apply NoDup_singleton.
  - apply Forall_singleton. unfold inBounds. cbn [Coord.r Coord.c].
    rewrite !andb_true_iff, !Z.leb_le, !Z.ltb_lt. lia.
  - rewrite !Nat2Z.id. cbn [length hd] in *. lia.
Qed.

Lemma findFirstWord_returns_witness :
  ∃ res, findFirstWord 36 Demo.grid0 (Trie.ofWords Demo.words) = Return res.
Proof.
  apply (findFirstWord_returns Demo.grid0 (Trie.ofWords Demo.words) 36).
  - discriminate.
  - repeat constructor.
  - vm_compute. lia.
Defined.

(** X16: the detector misses no move of three to eight letters: if some path
    can be traced over unblocked tiles and spells a word of the trie of
    that length, the detector returns a path. *)
Theorem findFirstWord_complete grid trie (fuel : nat) path w :
  rectangular grid →
  chain path →
  Forall (unblockedAt grid) path →
  wordOf grid path = Some w →
  Trie.search w trie = ExactWord →
  (MIN_WORD_LENGTH ≤ String.length w ≤ 8)%nat →
  (length grid * length (hd [] grid) ≤ fuel)%nat →
  ∃ q, findFirstWord fuel grid trie = Return (Some q).
Proof.
  intros Hrect [Hnd Hlink] Hub Hword Hw [Hmin Hmax] Hfuel.
  unfold wordOf in Hword.
  destruct (tilesAt grid path) as [tiles|] eqn:Htiles; [|discriminate].
  injection Hword as <-.
  destruct path as [|[r c] rest].
  { injection Htiles as <-. simpl in Hmin. unfold MIN_WORD_LENGTH in Hmin. lia. }
  assert (Forall (fun p => inBounds (Z.of_nat (length grid))
                                    (Z.of_nat (length (hd [] grid))) p = true)
                 (Coord.Mk r c :: rest)) as Hall.
  { eapply Forall_impl; [exact Hub|]. intros [pr pc] (t & Ht & _).
    by apply (tileAt_inBounds grid pr pc t). }
  assert (Forall (fun t => Tile.isBlocked t = false) tiles) as Hb.
  { clear -Htiles Hub. revert tiles Htiles.
    induction Hub as [|p l (t & Ht & Hbt) _ IH]; intros tiles Htiles.
    - injection Htiles as <-. constructor.
    - rewrite tilesAt_cons, Ht in Htiles. simpl in Htiles.
      destruct (tilesAt grid l) as [ts|]; [|discriminate].
      injection Htiles as <-. constructor; [exact Hbt | by apply IH]. }
  destruct (search_complete grid trie (Z.of_nat (length grid))
              (Z.of_nat (length (hd [] grid)))
              (fun p => rectangular_tiles grid p Hrect)
              rest fuel r c [] EmptyString tiles) as [q Hq]; try done.
  { rewrite !Nat2Z.id. simpl. lia. }
  apply Forall_cons in Hall as [Hrc _]. unfold inBounds in Hrc.
  cbn [Coord.r Coord.c] in Hrc.
  rewrite !andb_true_iff, !Z.leb_le, !Z.ltb_lt in Hrc.
  destruct grid as [|row0 rows]; [simpl in Hrc; lia|].
  unfold findFirstWord. cbn [hd] in *.
  assert (∀ r' c', r' ∈ seqZ 0 (Z.of_nat (length (row0 :: rows))) →
                   c' ∈ seqZ 0 (Z.of_nat (length row0)) →
                   ∃ res, search fuel (row0 :: rows) trie
                            (Z.of_nat (length (row0 :: rows))) (Z.of_nat (length row0))
                            r' c' [] EmptyString = Return res) as Hret.
  { intros r' c' Hr'%elem_of_seqZ Hc'%elem_of_seqZ. apply search_returns.
    - intros p Hp. by apply (rectangular_tiles (row0 :: rows)).
    - apply NoDup_singleton.
    - apply Forall_singleton. unfold inBounds. cbn [Coord.r Coord.c].
      rewrite !andb_true_iff, !Z.leb_le, !Z.ltb_lt. lia.
    - rewrite !Nat2Z.id. cbn [length] in *. lia. }
  destruct (firstResult_some
              (fun c' => search fuel (row0 :: rows) trie
                           (Z.of_nat (length (row0 :: rows))) (Z.of_nat (length row0))
                           r c' [] EmptyString)
              (seqZ 0 (Z.of_nat (length row0))) c q) as [q1 Hq1].
  { intros c' Hc'. apply Hret; [|exact Hc']. apply elem_of_seqZ. lia. }
  { apply elem_of_seqZ. lia. }
  { exact Hq. }
  apply (firstResult_some _ _ r q1).
  - intros r' Hr'. apply firstResult_returns. intros c' Hc'. by apply Hret.
  - apply elem_of_seqZ. lia.
  - exact Hq1.
Qed.

Lemma findFirstWord_complete_witness :
  ∃ q, findFirstWord 36 Demo.grid0 (Trie.ofWords Demo.words) = Return (Some q).
Proof.
  apply (findFirstWord_complete Demo.grid0 (Trie.ofWords Demo.words) 36
           Demo.path0 "CAT").
  - repeat constructor.
  - split; [|by vm_compute].
    repeat (apply NoDup_cons; split;
            [rewrite ?elem_of_cons, elem_of_nil; intros Hin;
             repeat (destruct Hin as [Hin|Hin]; [discriminate|]); exact Hin|]).
    apply NoDup_nil_2.
  - repeat (constructor; [eexists; split; reflexivity|]). constructor.
  - reflexivity.
  - reflexivity.
  - vm_compute. lia.
  - vm_compute. lia.
Defined.

End DeadlockMoreTheorems.

(** ** More on match resolution *)

Section MatchMore.

Implicit Types (g : Grid) (e : Engine) (t : TileData) (n b : Coordinate)
         (sel exploded : list Coordinate).

Lemma visited_spec (path : list Coordinate) n :
  existsb (fun p => Coord.same p n) path = true ↔ n ∈ path.
Proof.
  rewrite existsb_exists. split.
  - intros (p & Hin & ->%same_spec). by apply list_elem_of_In.
  - intros Hin. exists n. split; [by apply list_elem_of_In | by apply same_spec].
Qed.

Lemma visited_cases (path : list Coordinate) n :
  (n ∈ path ∧ existsb (fun p => Coord.same p n) path = true)
  ∨ ((n ∉ path) ∧ existsb (fun p => Coord.same p n) path = false).
Proof.
  destruct (existsb (fun p => Coord.same p n) path) eqn:E.
  - left. split; [by apply visited_spec | done].
  - right. split; [|done]. intros Hin%visited_spec. congruence.
Qed.

(** [markAll] writes the status at the listed coordinates and leaves
    every other field and every other tile as it was. *)
Lemma markAll_tileAt s coords g g' r c :
  markAll s coords g = Some g' →
  tileAt g' r c =
    (if existsb (fun p => Coord.same p (Coord.Mk r c)) coords
     then Tile.withStatus s else id) <$> tileAt g r c.
Proof.
  revert g'. induction coords as [|q coords IH] using rev_ind; intros g' Hm.
  - injection Hm as <-. simpl. by destruct (tileAt g r c).
  - rewrite markAll_snoc in Hm.
    destruct (markAll s coords g) as [g1|] eqn:Hg1; [|discriminate].
    cbn [mbind option_bind] in Hm.
    rewrite (tileAt_alterTile _ _ _ _ _ r c Hm), existsb_app.
    cbn [existsb]. rewrite orb_false_r.
    destruct (decide (r = Coord.r q ∧ c = Coord.c q)) as [[-> ->]|Hne].
    + assert (Coord.same q (Coord.Mk (Coord.r q) (Coord.c q)) = true) as ->
        by (apply same_spec; by destruct q).
      rewrite orb_true_r, (IH g1 eq_refl).
      destruct (existsb _ coords), (tileAt g (Coord.r q) (Coord.c q)); reflexivity.
    + assert (Coord.same q (Coord.Mk r c) = false) as ->.
      { apply not_true_iff_false. intros Heq%same_spec. subst q. by apply Hne. }
      rewrite orb_false_r. by apply IH.
Qed.

Lemma foldl_bind {A B C} (f : A → C → A) (h : B → list C) (l : list B) :
  ∀ a, foldl (fun acc x => foldl f acc (h x)) a l = foldl f a (l ≫= h).
Proof.
  induction l as [|x l IH]; intros a; [reflexivity|].
  cbn [foldl]. rewrite IH. change ((x :: l) ≫= h) with (h x ++ (l ≫= h)).
  by rewrite foldl_app.
Qed.

(** The test that [handleValidWord] makes on a neighbour of a bomb. *)
Local Abbreviation blastable g sel n :=
  (onGrid n ∧ (n ∉ sel)
   ∧ ∃ t, tileAt g (Coord.r n) (Coord.c n) = Some t ∧ Tile.status t ≠ EXPLODED).

Lemma blast_spec g sel exploded n :
  squareGrid g → NoDup exploded →
  ∃ exploded',
    blast g sel exploded n = Some exploded'
    ∧ NoDup exploded'
    ∧ ∀ m, m ∈ exploded' ↔ m ∈ exploded ∨ (m = n ∧ blastable g sel n).
Proof.
  intros Hsq Hnd. unfold blast.
  destruct (inBounds _ _ n) eqn:Hb.
  2:{ exists exploded. split_and!; [done..|].
      intros m. split; [by left|]. intros [? | [_ [Hon _]]]; [done|].
      unfold onGrid in Hon. congruence. }
  cbv zeta.
  destruct (visited_cases sel n) as [[Hs ->]|[Hs ->]].
  { exists exploded. split_and!; [done..|].
    intros m. split; [by left|]. by intros [? | [_ (_ & ? & _)]]. }
  destruct (visited_cases exploded n) as [[Hx ->]|[Hx ->]].
  { exists exploded. split_and!; [done..|].
    intros m. split; [by left|]. by intros [? | [-> _]]. }
  cbn [negb andb].
  destruct (tileAt_square g n Hsq Hb) as [t Ht]. rewrite Ht. cbn [mbind option_bind].
  destruct (bool_decide_reflect (Tile.status t ≠ EXPLODED)) as [Hst|Hst].
  - exists (exploded ++ [n]). split_and!; [done| |].
    + apply NoDup_app. split_and!; [done| |apply NoDup_singleton].
      intros m Hm ->%list_elem_of_singleton. done.
    + intros m. rewrite elem_of_app, list_elem_of_singleton. split.
      * intros [? | ->]; [by left|]. right. split; [done|]. split_and!; [done..|].
        by exists t.
      * intros [? | [-> _]]; [by left | by right].
  - exists exploded. split_and!; [done..|].
    intros m. split; [by left|]. intros [? | [_ (_ & _ & t' & Ht' & Hst')]]; [done|].
    assert (t' = t) as -> by congruence. by destruct Hst.
Qed.

Lemma blast_fold_spec g sel (cands : list Coordinate) :
  squareGrid g → ∀ exploded, NoDup exploded →
  ∃ exploded',
    foldl (fun acc n => x ← acc; blast g sel x n) (Some exploded) cands = Some exploded'
    ∧ NoDup exploded'
    ∧ ∀ m, m ∈ exploded' ↔ m ∈ exploded ∨ (m ∈ cands ∧ blastable g sel m).
Proof.
  intros Hsq. induction cands as [|n cands IH]; intros exploded Hnd.
  - exists exploded. split_and!; [done..|]. intros m. split; [by left|].
    by intros [? | [?%elem_of_nil _]].
  - cbn [foldl mbind option_bind].
    destruct (blast_spec g sel exploded n Hsq Hnd) as (x1 & -> & Hnd1 & Hx1).
    destruct (IH x1 Hnd1) as (x2 & -> & Hnd2 & Hx2).
    exists x2. split_and!; [done..|]. intros m. rewrite Hx2, Hx1, elem_of_cons.
    split.
    + intros [[? | [-> ?]] | [? ?]]; [by left | right; split; [by left|done] |
                                   right; split; [by right|done]].
    + intros [? | [[-> | ?] ?]]; [left; by left | left; right; by split | right; by split].
Qed.

Lemma elem_of_bombs g :
  ∀ sel tiles b,
    tilesAt g sel = Some tiles →
    b ∈ (List.filter (fun st : Coordinate * TileData => Tile.isBomb st.2) (zip sel tiles)).*1
    ↔ b ∈ sel ∧ ∃ t, tileAt g (Coord.r b) (Coord.c b) = Some t ∧ Tile.isBomb t = true.
Proof.
  induction sel as [|p sel IH]; intros tiles b Htiles.
  - injection Htiles as <-. simpl. split; [by intros ?%elem_of_nil|].
    by intros [?%elem_of_nil _].
  - rewrite tilesAt_cons in Htiles.
    destruct (tileAt g (Coord.r p) (Coord.c p)) as [t|] eqn:Ht; [|discriminate].
    cbn [mbind option_bind] in Htiles.
    destruct (tilesAt g sel) as [ts|] eqn:Hts; [|discriminate].
    cbn [mbind option_bind] in Htiles. injection Htiles as <-.
    specialize (IH ts b eq_refl). cbn [zip zip_with List.filter snd].
    destruct (Tile.isBomb t) eqn:Hbomb.
    + cbn [fmap list_fmap fst]. rewrite !elem_of_cons, IH. split.
      * intros [-> | [? ?]]; [|split; [by right | done]].
        split; [by left|]. by exists t.
      * intros [[-> | ?] ?]; [by left | right; by split].
    + rewrite IH, elem_of_cons. split.
      * intros [? ?]. split; [by right | done].
      * intros [[-> | ?] (t' & Ht' & Hb')]; [congruence|]. split; [done|]. by exists t'.
Qed.

(** X17: the tiles that a commit explodes: each once, and exactly the tiles
    on the grid that are 8-adjacent to a bomb of the selection, are not in
    the selection themselves and are not exploded already. *)
Theorem explodedTiles_spec e exploded :
  squareGrid (grid e) →
  explodedTilesOf e = Some exploded →
  NoDup exploded
  ∧ ∀ n, n ∈ exploded ↔
      onGrid n ∧ (n ∉ selection e)
      ∧ (∃ t, tileAt (grid e) (Coord.r n) (Coord.c n) = Some t
              ∧ Tile.status t ≠ EXPLODED)
      ∧ ∃ b tb, b ∈ selection e
                ∧ tileAt (grid e) (Coord.r b) (Coord.c b) = Some tb
                ∧ Tile.isBomb tb = true
                ∧ isAdjacent b n = true.
Proof.
  intros Hsq Hex. unfold explodedTilesOf, bombsOf in Hex.
  destruct (tilesAt (grid e) (selection e)) as [tiles|] eqn:Htiles; [|discriminate].
  cbn [mbind option_bind] in Hex. unfold blastAll in Hex.
  rewrite (foldl_bind (fun acc n => x ← acc; blast (grid e) (selection e) x n)
                      (fun bomb => neighbors (Coord.r bomb) (Coord.c bomb))) in Hex.
  destruct (blast_fold_spec (grid e) (selection e)
              ((List.filter (fun st : Coordinate * TileData => Tile.isBomb st.2)
                            (zip (selection e) tiles)).*1
               ≫= fun bomb => neighbors (Coord.r bomb) (Coord.c bomb))
              Hsq [] (NoDup_nil_2))
    as (x & Hx & Hnd & Hmem).
  rewrite Hx in Hex. injection Hex as <-. split; [exact Hnd|].
  intros n. rewrite Hmem, list_elem_of_bind. split.
  - intros [?%elem_of_nil | [(b & Hn & Hb) (Hon & Hsel & Ht)]]; [done|].
    apply (elem_of_bombs _ _ _ _ Htiles) in Hb as (Hb & tb & Htb & Hbomb).
    split_and!; [done..|]. exists b, tb. split_and!; [done..|].
    by apply isAdjacent_in_neighbors.
  - intros (Hon & Hsel & Ht & b & tb & Hb & Htb & Hbomb & Hadj). right.
    split; [|by split_and!]. exists b. split; [by apply isAdjacent_in_neighbors|].
    apply (elem_of_bombs _ _ _ _ Htiles). split; [done|]. by exists tb.
Qed.

Lemma explodedTiles_spec_witness :
  NoDup [Coord.Mk 1 0; Coord.Mk 1 1; Coord.Mk 1 2].
Proof.
  apply (explodedTiles_spec Demo.engine0 [Coord.Mk 1 0; Coord.Mk 1 1; Coord.Mk 1 2]).
  - exact squareGrid_grid0.
  - vm_compute. reflexivity.
Defined.

(** X18: what a commit writes to the grid: EXPLODED on the exploded tiles,
    MATCHED on the tiles of the selection, and nothing else. *)
Theorem handleValidWord_grid word e e' :
  handleValidWord word e = Some e' →
  ∃ exploded,
    explodedTilesOf e = Some exploded
    ∧ ∀ r c,
        (Coord.Mk r c ∈ exploded →
         tileAt (grid e') r c = Tile.withStatus EXPLODED <$> tileAt (grid e) r c)
        ∧ (Coord.Mk r c ∉ exploded → Coord.Mk r c ∈ selection e →
           tileAt (grid e') r c = Tile.withStatus MATCHED <$> tileAt (grid e) r c)
        ∧ (Coord.Mk r c ∉ exploded → Coord.Mk r c ∉ selection e →
           tileAt (grid e') r c = tileAt (grid e) r c).
Proof.
  intros (exploded & tiles & g2 & Hex & _ & Hg & Hgrid & _)%handleValidWord_inv.
  exists exploded. split; [exact Hex|]. intros r c. rewrite Hgrid.
  destruct (markAll MATCHED (selection e) (grid e)) as [g1|] eqn:Hg1; [|discriminate].
  cbn [mbind option_bind] in Hg.
  rewrite (markAll_tileAt _ _ _ _ r c Hg), (markAll_tileAt _ _ _ _ r c Hg1).
  destruct (visited_cases exploded (Coord.Mk r c)) as [[Hx ->]|[Hx ->]],
           (visited_cases (selection e) (Coord.Mk r c)) as [[Hs ->]|[Hs ->]];
    split_and!; try done; intros; by destruct (tileAt (grid e) r c).
Qed.

Lemma handleValidWord_grid_witness :
  ∃ e' exploded,
    handleValidWord "CAT" Demo.engine0 = Some e'
    ∧ explodedTilesOf Demo.engine0 = Some exploded.
Proof.
  destruct (handleValidWord "CAT" Demo.engine0) as [e'|] eqn:He';
    [|vm_compute in He'; discriminate].
  destruct (handleValidWord_grid "CAT" Demo.engine0 e' He') as (exploded & Hex & _).
  by exists e', exploded.
Defined.

End MatchMore.

(** ** The session after a commit *)

Section SessionMore.

Implicit Types (g : Grid) (e : Engine) (t : TileData) (tiles : list TileData).

Lemma baseWordScore_min (len : nat) : 10 ≤ baseWordScore len.
Proof.
  do 11 (destruct len as [|len]; [by vm_compute|]). by vm_compute.
Qed.

Lemma totalScore_min (len : nat) tiles (exploded : list Coordinate) :
  10 ≤ totalScore len tiles exploded.
Proof.
  unfold totalScore. pose proof (baseWordScore_min len) as Hb. cbv zeta.
  destruct (hasWild tiles), (isColorMatch tiles), (0 <? length exploded)%nat; lia.
Qed.

(** X19: what a commit does to the session besides score and streaks: one
    more word, the same level and target, a score higher by at least 10,
    the longer of the old best word and the new word as best word, the
    time bonus added to the clock; screen, mode, dictionary and trie
    stay. *)
Theorem handleValidWord_session word e e' :
  handleValidWord word e = Some e' →
  let st := gameState e in
  let st' := gameState e' in
  wordCount st' = wordCount st + 1
  ∧ level st' = level st
  ∧ targetScore st' = targetScore st
  ∧ score st + 10 ≤ score st'
  ∧ bestWord st' =
      (if (String.length (bestWord st) <? String.length word)%nat
       then word else bestWord st)
  ∧ (String.length (bestWord st) ≤ String.length (bestWord st'))%nat
  ∧ (String.length word ≤ String.length (bestWord st'))%nat
  ∧ (∃ tiles, tilesAt (grid e) (selection e) = Some tiles
              ∧ timeLeft st' =
                  timeLeft st + timeAdded (mode e) (level st) (String.length word) tiles)
  ∧ screen e' = screen e ∧ mode e' = mode e
  ∧ dictionary e' = dictionary e ∧ trie e' = trie e ∧ isLoading e' = isLoading e.
Proof.
  unfold handleValidWord. intros H.
  destruct (bombsOf (grid e) (selection e)) as [bombs|]; [|discriminate].
  cbn [mbind option_bind] in H.
  destruct (blastAll (grid e) (selection e) bombs) as [exploded|]; [|discriminate].
  cbn [mbind option_bind] in H.
  destruct (tilesAt (grid e) (selection e)) as [tiles|]; [|discriminate].
  cbn [mbind option_bind] in H.
  destruct (markAll MATCHED (selection e) (grid e)) as [g1|]; [|discriminate].
  cbn [mbind option_bind] in H.
  destruct (markAll EXPLODED exploded g1) as [g2|]; [|discriminate].
  cbn [mbind option_bind] in H.
  destruct (updateStreaks _ _ _ _ _) as [[short long] queue].
  injection H as <-. cbv zeta.
  cbn [gameState setGameState setSpawnQueue setGrid setAnimating
       wordCount level targetScore score bestWord timeLeft
       screen mode dictionary trie isLoading].
  pose proof (totalScore_min (String.length word) tiles exploded) as Hmin.
  split_and!; try done; try lia.
  - destruct (Nat.ltb_spec (String.length (bestWord (gameState e))) (String.length word));
      lia.
  - destruct (Nat.ltb_spec (String.length (bestWord (gameState e))) (String.length word));
      lia.
  - by exists tiles.
Qed.

Lemma handleValidWord_session_witness :
  ∃ e', handleValidWord "CAT" Demo.engine0 = Some e'
        ∧ wordCount (gameState e') = wordCount (gameState Demo.engine0) + 1.
Proof.
  destruct (handleValidWord "CAT" Demo.engine0) as [e'|] eqn:He';
    [|vm_compute in He'; discriminate].
  exists e'. split; [reflexivity|].
  apply (handleValidWord_session "CAT" Demo.engine0 e' He').
Defined.

Lemma Qceiling_fifth (n : Z) : Qceiling (inject_Z n * (2 # 10)) = (n + 4) / 5.
Proof.
  unfold Qceiling, Qfloor, Qopp, Qmult, inject_Z. cbn [Qnum Qden].
  change (Z.pos (1 * 10)) with 10. Z.div_mod_to_equations. lia.
Qed.

(** X20: the time bonus of a word: none in casual play; in timed play the
    word length scaled by a factor that falls from 1 at level 1 to 0.2
    from level 7 on, rounded up, plus 3 with a wild tile or else 2 with a
    colour match. *)
Theorem timeAdded_bounds (lvl : Z) (len : nat) tiles :
  let bonus := if hasWild tiles then 3 else if isColorMatch tiles then 2 else 0 in
  timeAdded CASUAL lvl len tiles = 0
  ∧ timeAdded TIMED 1 len tiles = Z.of_nat len + bonus
  ∧ (1 ≤ lvl →
     (Z.of_nat len + 4) / 5 + bonus ≤ timeAdded TIMED lvl len tiles ≤ Z.of_nat len + bonus)
  ∧ (7 ≤ lvl → timeAdded TIMED lvl len tiles = (Z.of_nat len + 4) / 5 + bonus).
Proof.
  intros bonus. unfold timeAdded. fold bonus. cbv zeta.
  set (m := Qmax (2 # 10) (1 - inject_Z (lvl - 1) * (15 # 100))).
  assert (0 <= inject_Z (Z.of_nat len))%Q as Hlen.
  { change 0%Q with (inject_Z 0). rewrite <- Zle_Qle. lia. }
  split_and!.
  - reflexivity.
  - assert (Qmax (2 # 10) (1 - inject_Z (1 - 1) * (15 # 100)) == 1)%Q as Hone.
    { rewrite Q.max_r; [reflexivity | discriminate]. }
    rewrite Hone, Qmult_1_r, Qceiling_Z. reflexivity.
  - intros Hlvl.
    assert (2 # 10 <= m)%Q as Hlo by apply Q.le_max_l.
    assert (m <= 1)%Q as Hhi.
    { apply Q.max_lub; [discriminate|]. unfold Qle. simpl. lia. }
    split.
    + apply Z.add_le_mono_r. rewrite <- Qceiling_fifth.
      apply Qceiling_resp_le. rewrite !(Qmult_comm (inject_Z (Z.of_nat len))).
      by apply Qmult_le_compat_r.
    + apply Z.add_le_mono_r. rewrite <- (Qceiling_Z (Z.of_nat len)) at 2.
      apply Qceiling_resp_le.
      rewrite <- (Qmult_1_r (inject_Z (Z.of_nat len))) at 2.
      rewrite !(Qmult_comm (inject_Z (Z.of_nat len))).
      by apply Qmult_le_compat_r.
  - intros Hlvl.
    assert (m == 2 # 10)%Q as Hm.
    { apply Q.max_l. unfold Qle. simpl. lia. }
    rewrite Hm, Qceiling_fifth. reflexivity.
Qed.

Lemma timeAdded_bounds_witness : timeAdded TIMED 9 7 [] = 2.
Proof. apply (timeAdded_bounds 9 7 []). lia. Defined.

End SessionMore.

(** ** Selection marks and the invalid word *)

Section MarksMore.

Implicit Types (g : Grid) (e : Engine) (t : TileData) (coords : list Coordinate).

(** X21: [updateTileStatus] gives the status to the tiles of the path; every
    other tile becomes IDLE unless it is MATCHED or EXPLODED, which it
    stays; no other field of any tile changes. *)
Theorem updateTileStatus_frame coords (s : TileStatus) g g' :
  updateTileStatus coords s g = Some g' →
  ∀ r c,
    (Coord.Mk r c ∈ coords → tileAt g' r c = Tile.withStatus s <$> tileAt g r c)
    ∧ (Coord.Mk r c ∉ coords →
       tileAt g' r c =
         (fun t => Tile.withStatus (if Tile.removed t then Tile.status t else IDLE) t)
           <$> tileAt g r c).
Proof.
  unfold updateTileStatus. intros Hup r c.
  rewrite (markAll_tileAt _ _ _ _ r c Hup), tileAt_map.
  destruct (visited_cases coords (Coord.Mk r c)) as [[Hin ->]|[Hout ->]].
  - split; [|done]. intros _. by destruct (tileAt g r c).
  - split; [done|]. intros _. by destruct (tileAt g r c).
Qed.

Lemma updateTileStatus_frame_witness :
  tileAt Demo.matchedGrid 0 0
  = Tile.withStatus MATCHED <$> tileAt Demo.grid0 0 0.
Proof.
  apply (updateTileStatus_frame Demo.path0 MATCHED Demo.grid0 Demo.matchedGrid eq_refl 0 0).
  by left.
Defined.

(** X22: an invalid word, from release to reset: the release marks the tiles
    of the selection INVALID and closes the gate; the reset clears the
    selection and opens the gate, and of each tile it keeps everything
    but [isNew], which is cleared, and the status, which is IDLE unless
    the tile was EXPLODED and outside the selection. Session, spawn queue
    and random source are as before the release. *)
Theorem handleInvalidWord_round_trip e e1 :
  handleInvalidWord e = Some e1 →
  let e2 := invalidReset e1 in
  animating e1 = true
  ∧ selection e1 = selection e
  ∧ (∀ r c,
       (Coord.Mk r c ∈ selection e →
        tileAt (grid e1) r c = Tile.withStatus INVALID <$> tileAt (grid e) r c)
       ∧ (Coord.Mk r c ∉ selection e → tileAt (grid e1) r c = tileAt (grid e) r c))
  ∧ animating e2 = false
  ∧ selection e2 = []
  ∧ (∀ r c,
       (Coord.Mk r c ∈ selection e →
        tileAt (grid e2) r c
        = (fun t => Tile.withIsNew false (Tile.withStatus IDLE t)) <$> tileAt (grid e) r c)
       ∧ (Coord.Mk r c ∉ selection e →
          tileAt (grid e2) r c
          = (fun t => Tile.withIsNew false
                        (Tile.withStatus
                           (if bool_decide (Tile.status t = EXPLODED)
                            then EXPLODED else IDLE) t))
              <$> tileAt (grid e) r c))
  ∧ gameState e2 = gameState e
  ∧ specialSpawnQueue e2 = specialSpawnQueue e
  ∧ rng e2 = rng e
  ∧ screen e2 = screen e.
Proof.
  unfold handleInvalidWord. intros H.
  destruct (markAll INVALID (selection e) (grid e)) as [g1|] eqn:Hg1; [|discriminate].
  cbn [mbind option_bind] in H. injection H as <-. cbv zeta.
  unfold invalidReset.
  cbn [animating selection grid gameState specialSpawnQueue rng screen
       setAnimating setGrid setSelection].
  split_and!; try done.
  - intros r c. rewrite (markAll_tileAt _ _ _ _ r c Hg1).
    destruct (visited_cases (selection e) (Coord.Mk r c)) as [[Hin ->]|[Hout ->]].
    + split; [done|]. by intros ?.
    + split; [by intros ?|]. intros _. by destruct (tileAt (grid e) r c).
  - intros r c. rewrite tileAt_map, (markAll_tileAt _ _ _ _ r c Hg1).
    destruct (visited_cases (selection e) (Coord.Mk r c)) as [[Hin ->]|[Hout ->]].
    + split; [|by intros ?]. intros _. by destruct (tileAt (grid e) r c).
    + split; [by intros ?|]. intros _. by destruct (tileAt (grid e) r c).
Qed.

Lemma handleInvalidWord_round_trip_witness :
  ∃ e1, handleInvalidWord Demo.engine0 = Some e1
        ∧ selection (invalidReset e1) = [].
Proof.
  destruct (handleInvalidWord Demo.engine0) as [e1|] eqn:He1;
    [|vm_compute in He1; discriminate].
  exists e1. split; [reflexivity|].
  apply (handleInvalidWord_round_trip Demo.engine0 e1 He1).
Defined.

End MarksMore.

(** ** More on gravity and refill *)

Section GravityMore.

Implicit Types (g : Rng) (e : Engine) (t : TileData) (queue : list ForcedType).

Lemma spawnTiles_queue (needed : nat) lvl m :
  ∀ queue g,
    (spawnTiles needed lvl m queue g).1.2 = drop needed queue
    ∧ (needed = 0%nat → (spawnTiles needed lvl m queue g).2 = g).
Proof.
  induction needed as [|needed IH]; intros queue g; [by rewrite drop_0|].
  split; [|discriminate]. cbn [spawnTiles].
  destruct queue as [|f q].
  - destruct (generateTile lvl m true None g) as [tile g1].
    destruct (IH [] g1) as [IHq _].
    destruct (spawnTiles needed lvl m [] g1) as [[tiles q'] g2].
    cbn [fst snd] in *. by rewrite IHq, !drop_nil.
  - destruct (generateTile lvl m true (Some f) g) as [tile g1].
    destruct (IH q g1) as [IHq _].
    destruct (spawnTiles needed lvl m q g1) as [[tiles q'] g2].
    cbn [fst snd] in *. by rewrite IHq.
Qed.

(** X23: the new tiles of a column take the spawn queue from its front: the
    i-th new tile is of the kind that the i-th queued type asks for, the
    queue loses as many entries as tiles are made, and every new tile is
    of one of the three kinds, idle and marked new. *)
Theorem spawnTiles_fifo (needed : nat) lvl m queue g :
  unitDraws g →
  let res := spawnTiles needed lvl m queue g in
  length res.1.1 = needed
  ∧ res.1.2 = drop needed queue
  ∧ (∀ (i : nat) f t, queue !! i = Some f → res.1.1 !! i = Some t → forcedKind f t)
  ∧ Forall (fun t => (blockedKind t ∨ bombKind t ∨ plainKind t)
                     ∧ Tile.isNew t = true ∧ Tile.status t = IDLE) res.1.1.
Proof.
  intros Hunit res. unfold res. clear res.
  split; [apply spawnTiles_spec|]. split; [apply spawnTiles_queue|].
  revert queue g Hunit. induction needed as [|needed IH]; intros queue g Hunit.
  { split; [|constructor]. intros i f t _ Ht. by destruct i. }
  cbn [spawnTiles].
  set (forced := match queue with [] => (None, []) | f :: q => (Some f, q) end).
  assert (forced = (head queue, tail queue)) as -> by (by destruct queue).
  pose proof (generateTile_shape lvl m true (head queue) g Hunit)
    as (Hk & Hf & Hs & Hn & _).
  pose proof (generateTile_spec lvl m true (head queue) g Hunit) as [_ Hd].
  destruct (generateTile lvl m true (head queue) g) as [tile g1].
  cbn [fst snd] in Hk, Hf, Hs, Hn, Hd.
  destruct (IH (tail queue) g1 (unitDraws_same _ _ Hd Hunit)) as [IHf IHall].
  destruct (spawnTiles needed lvl m (tail queue) g1) as [[tiles q'] g2].
  cbn [fst snd] in *. split; [|by constructor].
  intros [|i] f t Hq Ht.
  - injection Ht as <-. apply Hf. by destruct queue.
  - apply (IHf i); [|exact Ht]. by destruct queue.
Qed.

Lemma spawnTiles_fifo_witness :
  (spawnTiles 2 1 CASUAL [BOMB; BLOCKED; BOMB] Demo.halves).1.2 = [BOMB].
Proof.
  apply (spawnTiles_fifo 2 1 CASUAL [BOMB; BLOCKED; BOMB] Demo.halves).
  intros i. vm_compute. split; [discriminate | reflexivity].
Defined.

Lemma gravityColumn_queue prev lvl m ng queue g (c : nat) ng' queue' g' :
  gravityColumn prev lvl m (Some (ng, queue, g)) c = Some (ng', queue', g') →
  ∃ col, column prev c = Some col
         ∧ queue' = drop (GRID_SIZE - length (colTiles col)) queue
         ∧ ((GRID_SIZE - length (colTiles col) = 0)%nat → g' = g).
Proof.
  unfold gravityColumn. cbn [mbind option_bind].
  destruct (column prev c) as [col|]; [|discriminate]. cbn [mbind option_bind]. cbv zeta.
  pose proof (spawnTiles_queue (GRID_SIZE - length (colTiles col)) lvl m queue g)
    as [Hq Hg].
  destruct (spawnTiles _ lvl m queue g) as [[newTiles q1] g1]. cbn [fst snd] in Hq, Hg.
  destruct (writeColumn c _ ng) as [ng1|]; [|discriminate]. cbn [mbind option_bind].
  intros [= <- <- <-]. exists col. split_and!; [done | done | exact Hg].
Qed.

Lemma gravityColumns_queue prev lvl m (cols : list nat) :
  ∀ ng queue g ng' queue' g',
    foldl (gravityColumn prev lvl m) (Some (ng, queue, g)) cols = Some (ng', queue', g') →
    queue' = drop (sum_list (neededIn prev <$> cols)) queue
    ∧ (sum_list (neededIn prev <$> cols) = 0%nat → g' = g).
Proof.
  induction cols as [|c cols IH]; intros ng queue g ng' queue' g' H.
  - injection H as <- <- <-. by split.
  - cbn [foldl] in H.
    destruct (gravityColumn prev lvl m (Some (ng, queue, g)) c) as [[[ng1 q1] g1]|] eqn:Hc.
    2:{ rewrite foldl_None in H; [discriminate | done]. }
    apply gravityColumn_queue in Hc as (col & Hcol & -> & Hg1).
    apply IH in H as (-> & Hg').
    assert (neededIn prev c = (GRID_SIZE - length (colTiles col))%nat) as Hn
      by (unfold neededIn; by rewrite Hcol).
    change (sum_list (neededIn prev <$> c :: cols))
      with (neededIn prev c + sum_list (neededIn prev <$> cols))%nat.
    rewrite Hn. split; [by rewrite drop_drop|].
    intros Hz. rewrite Hg', Hg1; [done | lia | lia].
Qed.

Lemma length_filter_sum {A} (f : A → bool) (l : list A) :
  length (List.filter f l) = sum_list_with (fun x => if f x then 1%nat else 0%nat) l.
Proof.
  induction l as [|x l IH]; [reflexivity|]. simpl. destruct (f x); simpl; by rewrite IH.
Qed.

Lemma needed_removed (col : list TileData) :
  length col = GRID_SIZE →
  (GRID_SIZE - length (colTiles col))%nat
  = sum_list_with (fun t => if Tile.removed t then 1%nat else 0%nat) col.
Proof.
  intros Hlen. unfold colTiles. rewrite length_fmap, <- Hlen. clear Hlen.
  induction col as [|t col IH]; [reflexivity|].
  simpl. pose proof (List.filter_length_le (fun t => negb (Tile.removed t)) col) as Hle.
  destruct (Tile.removed t); simpl in *; lia.
Qed.

Ltac six_cells r H :=
  destruct r as [|? [|? [|? [|? [|? [|? [|? ?]]]]]]]; try discriminate H; clear H.

(** On a 6 x 6 grid the columns need as many new tiles as the grid has
    tiles pending removal. *)
Lemma neededIn_total grid :
  squareGrid grid →
  sum_list (neededIn grid <$> seq 0 GRID_SIZE) = pendingRemoval grid.
Proof.
  intros Hsq.
  assert (∀ c : nat, (c < 6)%nat →
            ∃ col, column grid c = Some col
                   ∧ neededIn grid c
                     = sum_list_with (fun t => if Tile.removed t then 1%nat else 0%nat) col)
    as Hcol.
  { intros c Hc. destruct (column_square grid c Hsq Hc) as (col & Hcol & Hlen).
    exists col. split; [exact Hcol|]. unfold neededIn. rewrite Hcol.
    by apply needed_removed. }
  unfold pendingRemoval. rewrite length_filter_sum.
  destruct (Hcol 0%nat ltac:(lia)) as (c0 & H0 & E0).
  destruct (Hcol 1%nat ltac:(lia)) as (c1 & H1 & E1).
  destruct (Hcol 2%nat ltac:(lia)) as (c2 & H2 & E2).
  destruct (Hcol 3%nat ltac:(lia)) as (c3 & H3 & E3).
  destruct (Hcol 4%nat ltac:(lia)) as (c4 & H4 & E4).
  destruct (Hcol 5%nat ltac:(lia)) as (c5 & H5 & E5).
  change (seq 0 GRID_SIZE) with [0; 1; 2; 3; 4; 5]%nat.
  cbn [fmap list_fmap sum_list sum_list_with]. rewrite E0, E1, E2, E3, E4, E5.
  clear Hcol E0 E1 E2 E3 E4 E5.
  destruct (squareGrid_inv grid Hsq)
    as (r0 & r1 & r2 & r3 & r4 & r5 & -> & L0 & L1 & L2 & L3 & L4 & L5).
  six_cells r0 L0. six_cells r1 L1. six_cells r2 L2.
  six_cells r3 L3. six_cells r4 L4. six_cells r5 L5.
  vm_compute in H0, H1, H2, H3, H4, H5.
  injection H0 as <-. injection H1 as <-. injection H2 as <-.
  injection H3 as <-. injection H4 as <-. injection H5 as <-.
  cbn [concat app sum_list_with]. unfold id. clear Hsq.
  repeat match goal with
         | |- context [if Tile.removed ?t then 1%nat else 0%nat] =>
             generalize (if Tile.removed t then 1%nat else 0%nat); intro
         end.
  lia.
Qed.

Lemma pendingRemoval_none grid : noneRemoved grid → pendingRemoval grid = 0%nat.
Proof.
  unfold pendingRemoval, noneRemoved.
  induction 1 as [|row rows Hrow _ IH]; [reflexivity|].
  cbn [concat]. rewrite List.filter_app, length_app, IH.
  assert (List.filter Tile.removed row = []) as ->; [|reflexivity].
  clear -Hrow. induction Hrow as [|t row Ht _ IH]; [reflexivity|].
  simpl. by rewrite Ht.
Qed.

(** X24: gravity takes from the front of the spawn queue one forced type for
    each tile pending removal, as far as the queue reaches, and adds
    none; the session, the screen, the mode and the dictionary are not
    touched. *)
Theorem applyGravity_queue e e' :
  squareGrid (grid e) →
  applyGravity e = Some e' →
  specialSpawnQueue e' = drop (pendingRemoval (grid e)) (specialSpawnQueue e)
  ∧ gameState e' = gameState e
  ∧ screen e' = screen e ∧ mode e' = mode e ∧ difficulty e' = difficulty e
  ∧ dictionary e' = dictionary e ∧ trie e' = trie e.
Proof.
  intros Hsq H. unfold applyGravity in H.
  destruct (foldl _ _ _) as [[[ng q] g]|] eqn:Hfold; [|discriminate].
  cbn [mbind option_bind] in H. injection H as <-.
  apply gravityColumns_queue in Hfold as [-> _].
  rewrite (neededIn_total _ Hsq). by split_and!.
Qed.

Lemma applyGravity_queue_witness :
  ∃ e', applyGravity (setSpawnQueue [BOMB; BOMB; BOMB; BLOCKED] Demo.matchedEngine)
        = Some e'
        ∧ specialSpawnQueue e' = [BLOCKED].
Proof.
  destruct (applyGravity (setSpawnQueue [BOMB; BOMB; BOMB; BLOCKED] Demo.matchedEngine))
    as [e'|] eqn:He'; [|vm_compute in He'; discriminate].
  exists e'. split; [reflexivity|].
  apply (applyGravity_queue
           (setSpawnQueue [BOMB; BOMB; BOMB; BLOCKED] Demo.matchedEngine) e'
           squareGrid_matchedGrid He').
Defined.

(** X25: with no tile pending removal gravity only clears the [isNew] marks:
    every tile stays in its place, and neither the spawn queue nor the
    random source is used. *)
Theorem applyGravity_idle e :
  squareGrid (grid e) →
  noneRemoved (grid e) →
  ∃ e',
    applyGravity e = Some e'
    ∧ (∀ r c, tileAt (grid e') r c = Tile.withIsNew false <$> tileAt (grid e) r c)
    ∧ specialSpawnQueue e' = specialSpawnQueue e
    ∧ rng e' = rng e
    ∧ selection e' = [] ∧ animating e' = false.
Proof.
  intros Hsq Hnone.
  destruct (applyGravity_refilled e Hsq) as (e' & He' & Hsq' & Han & Hsel & _ & Hcols).
  exists e'. split; [exact He'|].
  pose proof (pendingRemoval_none _ Hnone) as Hpend.
  unfold applyGravity in He'.
  destruct (foldl _ _ _) as [[[ng q] g]|] eqn:Hfold; [|discriminate].
  cbn [mbind option_bind] in He'. injection He' as <-.
  apply gravityColumns_queue in Hfold as [-> Hg].
  rewrite (neededIn_total _ Hsq), Hpend in Hg |- *.
  cbn [grid specialSpawnQueue rng selection animating
       setAnimating setSelection setRng setSpawnQueue setGrid] in *.
  split_and!; [|done| by rewrite Hg |done|done].
  intros r c.
  destruct (decide (0 ≤ r < 6 ∧ 0 ≤ c < 6)) as [Hin|Hout].
  - destruct (Hcols (Z.to_nat c) ltac:(lia))
      as (old & new & Hold & Hnew & newTiles & Heq & Hlen & _).
    pose proof (column_lookup _ _ _ Hsq Hold (Z.to_nat r) ltac:(lia)) as Ho.
    pose proof (column_lookup _ _ _ Hsq' Hnew (Z.to_nat r) ltac:(lia)) as Hn.
    rewrite !Z2Nat.id in Ho, Hn by lia. rewrite Ho, Hn.
    assert (length old = 6%nat) as Holdlen.
    { destruct (column_square (grid e) (Z.to_nat c) Hsq ltac:(lia)) as (old' & Hold' & Hl).
      congruence. }
    assert (List.filter (fun t => negb (Tile.removed t)) old = old) as Hall.
    { assert (Forall (fun t => Tile.removed t = false) old) as Hno.
      { apply Forall_forall. intros t [i Hi]%list_elem_of_lookup.
        pose proof (lookup_lt_Some _ _ _ Hi) as Hlt.
        rewrite <- (column_lookup _ _ _ Hsq Hold i) in Hi by lia.
        by apply (proj1 (noneRemoved_tileAt _) Hnone _ _ _ Hi). }
      clear -Hno. induction Hno as [|t l Ht _ IH]; [reflexivity|].
      simpl. by rewrite Ht, IH. }
    rewrite Hall in Heq. subst new. rewrite length_app, length_fmap in Hlen.
    destruct newTiles; [|simpl in Hlen; unfold GRID_SIZE in *; lia].
    by rewrite app_nil_l, list_lookup_fmap.
  - destruct (tileAt ng r c) as [t|] eqn:Ht.
    { apply (tileAt_square_inv _ _ _ _ Hsq'), onGrid_spec in Ht. simpl in Ht. lia. }
    destruct (tileAt (grid e) r c) as [t|] eqn:Ht0; [|done].
    apply (tileAt_square_inv _ _ _ _ Hsq), onGrid_spec in Ht0. simpl in Ht0. lia.
Qed.

Lemma applyGravity_idle_witness :
  ∃ e', applyGravity Demo.engine0 = Some e' ∧ rng e' = rng Demo.engine0.
Proof.
  destruct (applyGravity_idle Demo.engine0 squareGrid_grid0) as (e' & He' & _ & _ & Hr & _).
  - repeat constructor.
  - by exists e'.
Defined.

(** X26: the callback after a valid word: gravity, then the level-up screen
    exactly when the score has reached the target; apart from the screen
    the state is the one that gravity leaves. *)
Theorem settle_level_up e e' :
  settle e = Some e' →
  ∃ e1,
    applyGravity e = Some e1
    ∧ e' = (if targetScore (gameState e) <=? score (gameState e)
            then setScreen LEVEL_UP e1 else e1)
    ∧ gameState e' = gameState e
    ∧ grid e' = grid e1 ∧ selection e' = [] ∧ animating e' = false
    ∧ (targetScore (gameState e) ≤ score (gameState e) → screen e' = LEVEL_UP)
    ∧ (score (gameState e) < targetScore (gameState e) → screen e' = screen e).
Proof.
  unfold settle. intros H.
  destruct (applyGravity e) as [e1|] eqn:He1; [|discriminate].
  cbn [mbind option_bind] in H. exists e1. split; [reflexivity|].
  assert (gameState e1 = gameState e ∧ screen e1 = screen e
          ∧ selection e1 = [] ∧ animating e1 = false) as (Hgs & Hscr & Hsel & Han).
  { unfold applyGravity in He1.
    destruct (foldl _ _ _) as [[[ng q] g]|]; [|discriminate].
    cbn [mbind option_bind] in He1. by injection He1 as <-. }
  rewrite Hgs in H.
  destruct (Z.leb_spec (targetScore (gameState e)) (score (gameState e)));
    injection H as <-; split_and!; try done; try lia.
Qed.

Lemma settle_level_up_witness :
  ∃ e', settle Demo.matchedEngine = Some e' ∧ selection e' = [].
Proof.
  destruct (settle Demo.matchedEngine) as [e'|] eqn:He';
    [|vm_compute in He'; discriminate].
  exists e'. split; [reflexivity|].
  destruct (settle_level_up _ e' He') as (e1 & _ & _ & _ & _ & Hsel & _). exact Hsel.
Defined.

End GravityMore.

(** ** The selection as a path *)

Section PathMore.

Implicit Types (g : Grid) (e : Engine) (t : TileData) (p : Coordinate)
         (sel path : list Coordinate) (s : Runtime).

Lemma linked_snoc path x p :
  linked path → last path = Some x → isAdjacent x p = true → linked (path ++ [p]).
Proof.
  induction path as [|a [|b path] IH]; intros Hl Hlast Hadj; [discriminate| |].
  - injection Hlast as ->. by split.
  - destruct Hl as [Hab Hl]. split; [exact Hab|]. by apply IH.
Qed.

Lemma linked_take (n : nat) path : linked path → linked (take n path).
Proof.
  revert n. induction path as [|a [|b path] IH]; intros n Hl.
  - by destruct n.
  - by destruct n as [|[|n]].
  - destruct n as [|[|n]]; [done | done |].
    destruct Hl as [Hab Hl]. split; [exact Hab|]. apply (IH (S n) Hl).
Qed.

Lemma chain_nil : chain [].
Proof. split; [apply NoDup_nil_2 | done]. Qed.

Lemma chain_singleton p : chain [p].
Proof. split; [apply NoDup_singleton | done]. Qed.

Lemma chain_take (n : nat) path : chain path → chain (take n path).
Proof.
  intros [Hnd Hl]. split; [|by apply linked_take].
  rewrite <- (take_drop n path) in Hnd. by apply NoDup_app in Hnd as [? _].
Qed.

Lemma chain_snoc path x p :
  chain path → last path = Some x → p ∉ path → isAdjacent x p = true →
  chain (path ++ [p]).
Proof.
  intros [Hnd Hl] Hlast Hp Hadj. split; [|by eapply linked_snoc].
  apply NoDup_app. split_and!; [done| |apply NoDup_singleton].
  by intros q Hq ->%list_elem_of_singleton.
Qed.

Lemma statusOnly_refl g : statusOnly g g.
Proof. by intros r c. Qed.

Lemma updateTileStatus_statusOnly coords (st : TileStatus) g g' :
  updateTileStatus coords st g = Some g' → statusOnly g g'.
Proof.
  unfold updateTileStatus. intros Hup r c.
  rewrite (markAll_tileAt _ _ _ _ r c Hup), tileAt_map.
  destruct (existsb _ coords), (tileAt g r c); reflexivity.
Qed.

(** What [evaluateSelection] changes: nothing, or the selection and the
    statuses on the grid. *)
Lemma evaluateSelection_frame sel e e' :
  evaluateSelection sel e = Some e' →
  e' = e
  ∨ (selection e' = sel
     ∧ statusOnly (grid e) (grid e')
     ∧ gameState e' = gameState e ∧ animating e' = animating e
     ∧ specialSpawnQueue e' = specialSpawnQueue e ∧ rng e' = rng e
     ∧ screen e' = screen e).
Proof.
  intros [->|(tr & word & g' & Hup & ->)]%evaluateSelection_inv; [by left|].
  right. split_and!; try done.
  by apply (updateTileStatus_statusOnly _ _ _ _ Hup).
Qed.



Lemma moveOnto_chain target e e' :
  moveOnto target e = Some e' → chain (selection e) → chain (selection e').
Proof.
  intros H Hchain. unfold moveOnto in H.
  destruct target as [p|]; [|by injection H as <-].
  destruct (tileAt (grid e) (Coord.r p) (Coord.c p)) as [t|]; [|discriminate].
  cbn [mbind option_bind] in H.
  destruct (Tile.isBlocked t); [by injection H as <-|].
  destruct (last (selection e)) as [lastSel|] eqn:Hlast; [|discriminate].
  cbn [mbind option_bind] in H. cbv zeta in H.
  assert (∀ sel, chain sel → evaluateSelection sel e = Some e' → chain (selection e'))
    as Heval.
  { intros sel Hsel [->|(-> & _)]%evaluateSelection_frame; done. }
  assert ((if negb (existsb (fun x => Coord.same x p) (selection e))
              && isAdjacent lastSel p
           then evaluateSelection (selection e ++ [p]) e else Some e) = Some e' →
          chain (selection e')) as Hext.
  { destruct (negb _ && _) eqn:Hx; [|by intros [= <-]].
    apply andb_true_iff in Hx as [Hv%not_visited_spec Hadj].
    apply Heval. by apply (chain_snoc _ lastSel). }
  destruct (1 <? length (selection e))%nat.
  - destruct (selection e !! (length (selection e) - 2)%nat) as [secondLast|];
      [|by apply Hext].
    destruct (Coord.same secondLast p); [|by apply Hext].
    revert H. apply Heval. by apply chain_take.
  - by apply Hext.
Qed.

Lemma handleTouchEnd_selection e e' :
  handleTouchEnd e = Some e' → selection e' = selection e.
Proof.
  unfold handleTouchEnd. destruct (_ || _); [by intros [= <-]|].
  destruct (wordOf (grid e) (selection e)) as [word|]; [|discriminate].
  cbn [mbind option_bind].
  destruct (_ && _).
  - intros (? & ? & ? & _ & _ & _ & _ & _ & _ & _ & _ & _ & Hsel & _)%handleValidWord_inv.
    exact Hsel.
  - unfold handleInvalidWord.
    destruct (markAll INVALID (selection e) (grid e)); [|discriminate].
    by intros [= <-].
Qed.

Lemma settle_selection e e' : settle e = Some e' → selection e' = [].
Proof.
  unfold settle, applyGravity.
  destruct (foldl _ _ _) as [[[ng q] g]|]; [|discriminate].
  cbn [mbind option_bind]. destruct (_ <=? _); by intros [= <-].
Qed.

Lemma step_chain s s' :
  Step s s' → chain (selection (engine s)) → chain (selection (engine s')).
Proof.
  intros Hstep Hchain. destruct Hstep; cbn [engine] in *.
  - unfold startGame. destruct (createInitialGrid _ _ _). apply chain_nil.
  - exact Hchain.
  - unfold handleTouchStart in H. destruct (_ || _); [by injection H as <-|].
    destruct (tileAt (grid e) r c) as [t|]; [|discriminate].
    cbn [mbind option_bind] in H. destruct (Tile.isBlocked t); [by injection H as <-|].
    apply evaluateSelection_frame in H as [->|(-> & _)]; [done | apply chain_singleton].
  - unfold handleTouchMove in H. destruct (_ || _); [by injection H as <-|].
    destruct ev as [target|buttons target].
    + by eapply moveOnto_chain.
    + destruct (_ =? _).
      * by rewrite (handleTouchEnd_selection _ _ H).
      * by eapply moveOnto_chain.
  - by rewrite (handleTouchEnd_selection _ _ H).
  - unfold showHint in H. destruct (trie e) as [tr|]; [|by injection H as <-].
    destruct (animating e); [by injection H as <-|].
    destruct (findFirstWord fuel (grid e) tr) as [| |[move|]] eqn:Hfind;
      [discriminate | discriminate | | by injection H as <-].
    destruct (markAll SELECTED move (grid e)) as [g|]; [|discriminate].
    injection H as <-. by apply findFirstWord_move in Hfind as [? _].
  - rewrite (settle_selection _ _ H). apply chain_nil.
  - apply chain_nil.
  - by rewrite H0.
Qed.

(** X28: in every state that the engine can reach the selection is a path
    that can be traced: no tile twice, each tile 8-adjacent to the one
    before it. *)
Theorem reachable_chain s : Reachable s → chain (selection (engine s)).
Proof.
  induction 1 as [e Hg Hsel Han Hunit|s s' _ IH Hstep].
  - cbn [engine]. rewrite Hsel. apply chain_nil.
  - by eapply step_chain.
Qed.

Lemma reachable_chain_witness :
  Reachable (MkRuntime Played.touched2 [])
  ∧ selection Played.touched2 = [Coord.Mk 0 0; Coord.Mk 0 1]
  ∧ chain (selection Played.touched2).
Proof.
  split; [exact reachable_touched2|].
  split; [by vm_compute|].
  apply (reachable_chain (MkRuntime Played.touched2 []) reachable_touched2).
Defined.

Lemma wordOf_cons g p path :
  wordOf g (p :: path) =
    t ← tileAt g (Coord.r p) (Coord.c p);
    w ← wordOf g path;
    Some (String.append (Tile.letter t) w).
Proof.
  unfold wordOf. rewrite tilesAt_cons.
  destruct (tileAt g (Coord.r p) (Coord.c p)) as [t|]; [|reflexivity].
  cbn [mbind option_bind]. by destruct (tilesAt g path).
Qed.

Lemma wordOf_faces g g' path : sameFaces g g' → wordOf g' path = wordOf g path.
Proof.
  intros Hf. induction path as [|p path IH]; [reflexivity|].
  rewrite !wordOf_cons, IH. specialize (Hf (Coord.r p) (Coord.c p)).
  destruct (tileAt g' (Coord.r p) (Coord.c p)) as [t'|],
           (tileAt g (Coord.r p) (Coord.c p)) as [t|]; try discriminate; [|reflexivity].
  injection Hf as Hl _. cbn [mbind option_bind]. by rewrite Hl.
Qed.

(** X29: a hint can be committed: when the trie and the dictionary hold the
    same words and the detector finds a move, [showHint] selects it and
    a release then takes the branch of the valid word. *)
Theorem showHint_commits (fuel : nat) (ws : list string) e move :
  trie e = Some (Trie.ofWords ws) →
  dictionary e = list_to_set ws →
  screen e = GAME → isLoading e = false → animating e = false →
  squareGrid (grid e) →
  findFirstWord fuel (grid e) (Trie.ofWords ws) = Return (Some move) →
  ∃ e' w,
    showHint fuel e = Return e'
    ∧ selection e' = move
    ∧ (∀ p, p ∈ move →
            ∃ t, tileAt (grid e') (Coord.r p) (Coord.c p) = Some t
                 ∧ Tile.status t = SELECTED)
    ∧ wordOf (grid e') move = Some w
    ∧ w ∈ ws
    ∧ (MIN_WORD_LENGTH ≤ String.length w)%nat
    ∧ handleTouchEnd e' = handleValidWord w e'.
Proof.
  intros Htrie Hdict Hscreen Hload Han Hsq Hfind.
  pose proof (findFirstWord_move _ _ _ _ Hfind)
    as (_ & Hub & w & Hword & Hexact & Hlen & _).
  assert (Forall onGrid move) as Hon.
  { eapply Forall_impl; [exact Hub|]. intros [r c] (t & Ht & _).
    by apply (tileAt_square_inv _ _ _ _ Hsq Ht). }
  destruct (markAll_square SELECTED move (grid e) Hsq Hon) as (g & Hg & Hsq').
  exists (setGrid g (setSelection move e)), w.
  assert (wordOf g move = Some w) as Hword'.
  { rewrite <- Hword. apply wordOf_faces. by eapply markAll_faces. }
  split_and!.
  - unfold showHint. by rewrite Htrie, Han, Hfind, Hg.
  - reflexivity.
  - intros p Hp. by apply (markAll_status _ _ _ _ Hg).
  - exact Hword'.
  - by apply search_ofWords_exact_iff.
  - exact Hlen.
  - rewrite (handleTouchEnd_commits _ w); cbn [animating isLoading screen selection grid
                                                 dictionary setGrid setSelection];
      try done.
    + rewrite Hdict.
      destruct (Nat.leb_spec MIN_WORD_LENGTH (String.length w)) as [_|]; [|lia].
      rewrite bool_decide_eq_true_2; [reflexivity|].
      by apply elem_of_list_to_set, search_ofWords_exact_iff.
    + intros ->. unfold MIN_WORD_LENGTH in Hlen.
      injection Hword as <-. simpl in Hlen. lia.
Qed.

Lemma showHint_commits_witness :
  ∃ e' w, showHint 36 Demo.engine0 = Return e'
          ∧ handleTouchEnd e' = handleValidWord w e'.
Proof.
  destruct (showHint_commits 36 Demo.words Demo.engine0 Demo.path0
              eq_refl eq_refl eq_refl eq_refl eq_refl squareGrid_grid0)
    as (e' & w & Hs & _ & _ & _ & _ & _ & He).
  - vm_compute. reflexivity.
  - by exists e', w.
Defined.

End PathMore.
